(** * holodeck: fixed-time two-power-law hardening and the dynamic
      binary-number mapper (Cython module of the semi-analytic model)

    The C [double]s of the source are idealised as real numbers: every
    arithmetic operation is exact, [pow], [log10] and [sqrt] of the C maths
    library are the real functions wherever the C result is a finite number.
    The only not-a-number that the source manipulates on purpose is the
    [NAN] it stores in an output field; output cells therefore have a type
    of their own, [cell].  C [int]s are integers of [Z] (the sizes of the
    grids are far below the 32-bit limit).  The [printf] calls of the mapper
    are left out.  [while] loops are given the number of iterations after
    which their condition is false at the latest; giving them more changes
    nothing (lemmas [while_up_fuel], [while_down_fuel],
    [redz_age_while_fuel] and [ff_loop_fuel]). *)

From Stdlib Require Import Reals Lra Lia ZArith List Bool.
Import ListNotations.

Open Scope R_scope.

(** ** Comparisons of doubles, as the booleans the source branches on *)

Definition Rltb (x y : R) : bool := if Rlt_dec x y then true else false.
Definition Rgtb (x y : R) : bool := Rltb y x.

Notation "x <? y" := (Rltb x y) (at level 70, no associativity) : R_scope.
Notation "x >? y" := (Rgtb x y) (at level 70, no associativity) : R_scope.

(** ** The C maths library on the idealised doubles

    [pow x y] is the real power [exp (y * ln x)] for a positive base.  For a
    base that is zero or negative C's [pow] is finite exactly when the
    exponent is an integer (the signed integer power) or when the base is
    zero and the exponent positive (the result is zero); the infinite and
    not-a-number results of the remaining cases have no real counterpart and
    are given the value of the formula below. *)

Definition is_integer (y : R) : bool :=
  if Req_dec_T y (IZR (Int_part y)) then true else false.

Definition pow (x y : R) : R :=
  if 0 <? x then Rpower x y
  else if is_integer y then powerRZ x (Int_part y)
  else 0.

(** [log10] of a positive number; C returns an infinity or a not-a-number
    for the other arguments. *)

Definition log10 (x : R) : R := ln x / ln 10.

Definition M_PI : R := PI.

(** ** Typed memory views

    A [double[:]] is read with bounds checking and wrap-around switched off
    ([@cython.boundscheck(False)], [@cython.wraparound(False)]): an index
    outside [0, size) reads whatever the neighbouring memory holds.  A view
    is therefore its size together with the value found at every integer
    index; the values outside [0, size) are unconstrained. *)

Record dvec : Type := mkvec { size : Z; at_ : Z -> R }.

Notation "a .[ i ]" := (at_ a i%Z) (at level 1, left associativity, format "a .[ i ]") : R_scope.

Definition of_list (l : list R) : dvec :=
  {| size := Z.of_nat (length l); at_ := fun i => nth (Z.to_nat i) l 0 |}.

(** A one-dimensional array that is written: the contents after the cell
    [i] has been set to [v]. *)

Definition update (f : Z -> R) (i : Z) (v : R) : Z -> R :=
  fun j => if (j =? i)%Z then v else f j.

(** The values [0 .. n-1] of a [range(n)] and [n-1 .. 0] of a
    [range(n-1, -1, -1)]. *)

Definition range (n : Z) : list Z := map Z.of_nat (seq 0 (Z.to_nat n)).
Definition range_rev (n : Z) : list Z := rev (range n).

(** ** Constants *)

Definition MY_NWTG : R := 6.6742999e-08.
Definition MY_SPLC : R := 29979245800.0.
Definition MY_MPC : R := 3.08567758e+24.
Definition MY_MSOL : R := 1.988409870698051e+33.
Definition MY_YR : R := 31557600.0.
Definition MY_SCHW : R := 1.4852320538237328e-28.
Definition GW_DADT_SEP_CONST : R := - 64.0 * pow MY_NWTG 3 / 5.0 / pow MY_SPLC 5.

Definition MY_PC : R := MY_MPC / 1.0e6.
Definition MY_GYR : R := MY_YR * 1.0e9.
Definition KEPLER_CONST_FREQ : R := (1.0 / (2.0 * M_PI)) * sqrt MY_NWTG.
Definition KEPLER_CONST_SEPA : R := pow MY_NWTG (1.0 / 3.0) / pow (2.0 * M_PI) (2.0 / 3.0).
Definition FOUR_PI_SPLC_OVER_MPC : R := 4 * M_PI * MY_SPLC / MY_MPC.

(** ** Linear interpolation helpers of [holodeck.cyutils] *)

(** Modelled from the spec: [interp_at_index] is declared in
    [holodeck.cyutils], which is not part of the sources at hand.  It is the
    linear interpolation "with a supplied last known index": the straight
    line through the table points [idx] and [idx + 1], evaluated at [xnew]. *)

Definition interp_at_index (idx : Z) (xnew : R) (xold yold : dvec) : R :=
  yold.[idx] + (yold.[idx + 1] - yold.[idx]) / (xold.[idx + 1] - xold.[idx]) * (xnew - xold.[idx]).

(** Modelled from the spec: [_interp_between_vals] is declared in
    [holodeck.cyutils] too.  It "linearly interpolates between" the points
    [(xl, yl)] and [(xr, yr)] at [xnew]. *)

Definition _interp_between_vals (xnew xl xr yl yr : R) : R :=
  yl + (yr - yl) * (xnew - xl) / (xr - xl).

(** ** Gravitational-wave hardening and Kepler's law *)

Definition hard_gw (mtot mrat sepa : R) : R :=
  let dadt := GW_DADT_SEP_CONST * pow mtot 3 * mrat / pow sepa 3 / pow (1 + mrat) 2 in
  dadt.

Definition kepler_freq_from_sepa (mtot sepa : R) : R :=
  let freq := KEPLER_CONST_FREQ * sqrt mtot / pow sepa 1.5 in
  freq.

Definition kepler_sepa_from_freq (mtot freq : R) : R :=
  let sepa := KEPLER_CONST_SEPA * pow mtot (1.0 / 3.0) / pow freq (2.0 / 3.0) in
  sepa.

(** ** Index search: [while_while] *)

Fixpoint while_up (fuel : nat) (index size : Z) (val : R) (edges : dvec) : Z :=
  match fuel with
  | O => index
  | S fuel' =>
      if (index <? size - 1)%Z && (edges.[index + 1] <? val)
      then while_up fuel' (index + 1)%Z size val edges
      else index
  end.

Fixpoint while_down (fuel : nat) (index : Z) (val : R) (edges : dvec) : Z :=
  match fuel with
  | O => index
  | S fuel' =>
      if (index >? 0)%Z && (edges.[index - 1] >? val)
      then while_down fuel' (index - 1)%Z val edges
      else index
  end.

(** The first loop runs at most [size - 1 - start] times and the second at
    most [index] times. *)

Definition while_while (start size : Z) (val : R) (edges : dvec) : Z :=
  let index := while_up (Z.to_nat (size - 1 - start)) start size val edges in
  while_down (Z.to_nat index) index val edges.

(** ** Fixed_Time_2PL_SAM: the hardening model *)

Definition _hard_func_2pwl (norm xx gamma_inner gamma_outer : R) : R :=
  let dadt := - norm * pow (1.0 + xx) (- gamma_outer + gamma_inner) / pow xx (gamma_inner - 1) in
  dadt.

Definition hard_func_2pwl_gw (mtot mrat sepa norm rchar gamma_inner gamma_outer : R) : R :=
  let dadt := _hard_func_2pwl norm (sepa / rchar) gamma_inner gamma_outer in
  dadt + hard_gw mtot mrat sepa.

(** ** Python functions that can raise

    What a Python function gives back: the value it returns, or the
    [AssertionError] of an [assert] whose condition does not hold. *)

Inductive outcome (A : Type) : Type :=
| Returns : A -> outcome A
| AssertionError : outcome A.

Arguments Returns {A} _.
Arguments AssertionError {A}.

(** ** The coalescence-time integrator *)

Module Integrator.

Record integrate_2pl_params : Type := mkpars {
  target_time : R;
  mt : R;
  mr : R;
  sepa_init : R;
  rchar : R;
  gamma_inner : R;
  gamma_outer : R;
  nsteps : Z
}.

(** The variables that the stepping loop of the integrator updates. *)

Record integ_state : Type := mkinteg {
  i_sepa_log10 : R;
  i_sepa_left : R;
  i_dadt_left : R;
  i_time : R
}.

Definition integ_init (norm : R) (pars : integrate_2pl_params) : integ_state :=
  let sepa_log10 := log10 (sepa_init pars) in
  let sepa_left := pow 10.0 sepa_log10 in
  {| i_sepa_log10 := sepa_log10;
     i_sepa_left := sepa_left;
     i_dadt_left := hard_func_2pwl_gw (mt pars) (mr pars) sepa_left
                      norm (rchar pars) (gamma_inner pars) (gamma_outer pars);
     i_time := 0.0 |}.

Definition integ_dx (pars : integrate_2pl_params) : R :=
  let risco_log10 := log10 (3.0 * MY_SCHW * mt pars) in
  let sepa_log10 := log10 (sepa_init pars) in
  (sepa_log10 - risco_log10) / IZR (nsteps pars).

Definition integ_step (norm : R) (pars : integrate_2pl_params) (st : integ_state) (ii : Z)
  : integ_state :=
  let sepa_log10 := i_sepa_log10 st - integ_dx pars in
  let sepa_right := pow 10.0 sepa_log10 in
  let dadt_right := hard_func_2pwl_gw (mt pars) (mr pars) sepa_right
                      norm (rchar pars) (gamma_inner pars) (gamma_outer pars) in
  let dt := 2.0 * (sepa_right - i_sepa_left st) / (i_dadt_left st + dadt_right) in
  {| i_sepa_log10 := sepa_log10;
     i_sepa_left := sepa_right;
     i_dadt_left := dadt_right;
     i_time := i_time st + dt |}.

(** The state of the integrator after its first [k] steps. *)

Definition integ_after (norm_log10 : R) (pars : integrate_2pl_params) (k : Z) : integ_state :=
  let norm := pow 10.0 norm_log10 in
  fold_left (integ_step norm pars) (range k) (integ_init norm pars).

Definition _integrate_binary_evolution_2pl (norm_log10 : R) (pars : integrate_2pl_params) : R :=
  let time := i_time (integ_after norm_log10 pars (nsteps pars)) in
  time - target_time pars.

Definition integrate_binary_evolution_2pl
  (norm_log10 mtot mrat sepa_init rchar gamma_inner gamma_outer : R) (nsteps : Z) : R :=
  let args := {| target_time := 0.0; mt := mtot; mr := mrat; sepa_init := sepa_init;
                 rchar := rchar; gamma_inner := gamma_inner; gamma_outer := gamma_outer;
                 nsteps := nsteps |} in
  _integrate_binary_evolution_2pl norm_log10 args.

(** *** The normalisation solver *)

Section Solver.

(** [brentq] of [scipy.optimize.cython_optimize], which is not part of the
    sources: it is given the callback (here already applied to its argument
    record), the two ends of the bracket, the absolute and the relative
    tolerance and the iteration cap, and returns its estimate of a root.
    With [full_output] null it reports no failure. *)

Variable brentq : (R -> R) -> R -> R -> R -> R -> Z -> R.

Definition with_binary (args : integrate_2pl_params) (mt mr : R) : integrate_2pl_params :=
  {| target_time := target_time args; mt := mt; mr := mr;
     sepa_init := sepa_init args; rchar := rchar args;
     gamma_inner := gamma_inner args; gamma_outer := gamma_outer args;
     nsteps := nsteps args |}.

(** [assert mtot.size == mrat.size] comes before the loop over the
    binaries. *)

Definition _find_2pl_hardening_norm (mtot mrat : dvec) (args : integrate_2pl_params)
  (norm_log10 : Z -> R) : outcome (Z -> R) :=
  let XTOL := 1e-3 in
  let RTOL := 1e-5 in
  let MITR := 100%Z in
  let NORM_LOG10_LO := -20.0 in
  let NORM_LOG10_HI := 20.0 in
  let num := size mtot in
  if negb (size mtot =? size mrat)%Z then AssertionError
  else
    Returns (fold_left
          (fun (norm_log10 : Z -> R) (ii : Z) =>
             let args := with_binary args mtot.[ii] mrat.[ii] in
             update norm_log10 ii
               (brentq (fun x => _integrate_binary_evolution_2pl x args)
                  NORM_LOG10_LO NORM_LOG10_HI XTOL RTOL MITR))
          (range num) norm_log10).

(** Of the three [assert]s of the Python entry point, [np.ndim(time) == 0]
    and [np.ndim(mtot) == 1] hold by the types of [time] and [mtot] here;
    [np.shape(mtot) == np.shape(mrat)] is the equality of the sizes of the
    two one-dimensional arrays.  The result is the array [norm_log10] of
    [mtot.size] cells, allocated with zeros.  The fields [mt] and [mr] of
    the argument record are not set before the loop over the binaries sets
    them; they are taken to be zero. *)

Definition find_2pl_hardening_norm
  (time : R) (mtot mrat : dvec) (sepa_init rchar gamma_inner gamma_outer : R) (nsteps : Z)
  : outcome dvec :=
  if negb (size mtot =? size mrat)%Z then AssertionError
  else
    let norm_log10 : Z -> R := fun _ => 0 in
    let args := {| target_time := time; mt := 0; mr := 0; sepa_init := sepa_init;
                   rchar := rchar; gamma_inner := gamma_inner; gamma_outer := gamma_outer;
                   nsteps := nsteps |} in
    match _find_2pl_hardening_norm mtot mrat args norm_log10 with
    | Returns contents => Returns {| size := size mtot; at_ := contents |}
    | AssertionError => AssertionError
    end.

End Solver.

End Integrator.

(** ** The dynamic binary-number mapper *)

(** A cell of an output field: the [NAN] written by the initialisation, or
    a number. *)

Inductive cell : Type :=
| NaN : cell
| Val : R -> cell.

(** A [double[:, :, :, :]], indexed by (mass, ratio, redshift, frequency). *)

Definition field4 : Type := Z -> Z -> Z -> Z -> cell.

Definition set4 (a : field4) (i j k l : Z) (v : cell) : field4 :=
  fun i' j' k' l' =>
    if ((i' =? i) && (j' =? j) && (k' =? k) && (l' =? l))%Z then v else a i' j' k' l'.

Record fields : Type := mkfields { redz_final : field4; diff_num : field4 }.

(** The input arguments of [_dynamic_binary_number_at_fobs]. *)

Record mapper_args : Type := mkargs {
  target_fobs_orb : dvec;
  hard_norm : Z -> Z -> R;
  hard_rchar : R;
  hard_gamma_inner : R;
  hard_gamma_outer : R;
  dens : Z -> Z -> Z -> R;
  mtot : dvec;
  mrat : dvec;
  redz : dvec;
  gmt_time : Z -> Z -> Z -> R;
  sepa_init : R;
  num_steps : Z;
  redz_interp_grid : dvec;
  dcom_interp_grid : dvec;
  tage_interp_grid : dvec
}.

Definition nf (a : mapper_args) : Z := size (target_fobs_orb a).
Definition nm (a : mapper_args) : Z := size (mtot a).
Definition nq (a : mapper_args) : Z := size (mrat a).
Definition nz (a : mapper_args) : Z := size (redz a).
Definition ninterp (a : mapper_args) : Z := size (redz_interp_grid a).
Definition age_universe (a : mapper_args) : R := (tage_interp_grid a).[ninterp a - 1].
Definition sepa_init_log10 (a : mapper_args) : R := log10 (sepa_init a).

(** *** Ages corresponding to [redz] *)

Fixpoint redz_age_while (fuel : nat) (a : mapper_args) (rev ii : Z) : Z :=
  match fuel with
  | O => ii
  | S fuel' =>
      if ((redz_interp_grid a).[ii + 1] >? (redz a).[rev]) && (ii <? ninterp a - 1)%Z
      then redz_age_while fuel' a rev (ii + 1)%Z
      else ii
  end.

Definition redz_age_step (a : mapper_args) (st : Z * (Z -> R)) (kk : Z) : Z * (Z -> R) :=
  let '(ii, redz_age) := st in
  let rev := (nz a - 1 - kk)%Z in
  let ii := redz_age_while (Z.to_nat (ninterp a - 1 - ii)) a rev ii in
  (ii, update redz_age rev
         (interp_at_index ii (redz a).[rev] (redz_interp_grid a) (tage_interp_grid a))).

(** The contents of the freshly allocated [redz_age] are not read before
    they are written; they are taken to be zero. *)

Definition redz_ages (a : mapper_args) : Z -> R :=
  snd (fold_left (redz_age_step a) (range (nz a)) (0%Z, fun _ => 0)).

(** *** One (mass, ratio, step, starting redshift) *)

(** The local variables in scope where a target frequency is found. *)

Record locals : Type := mklocals {
  ii : Z; jj : Z; kk : Z;
  mt : R; mr : R; norm : R;
  time_left : R; time_right : R;
  interp_left : Z; interp_right : Z;
  redz_left : R; redz_right : R;
  fobs_orb_left : R; fobs_orb_right : R
}.

(** The block under "TARGET FOUND". *)

Definition target_found (a : mapper_args) (lc : locals) (ff : Z) (ftemp : R) (out : fields)
  : fields :=
  let newz := _interp_between_vals ftemp (fobs_orb_left lc) (fobs_orb_right lc)
                (redz_left lc) (redz_right lc) in
  if newz >? 0.0 then
    let target_frst_orb := ftemp * (1.0 + newz) in
    let sepa := kepler_sepa_from_freq (mt lc) target_frst_orb in
    let dadt := hard_func_2pwl_gw (mt lc) (mr lc) sepa
                  (norm lc) (hard_rchar a) (hard_gamma_inner a) (hard_gamma_outer a) in
    let tres := - (2.0 / 3.0) * sepa / dadt in
    let dcom_left := interp_at_index (interp_left lc) (time_left lc)
                       (tage_interp_grid a) (dcom_interp_grid a) in
    let dcom_right := interp_at_index (interp_right lc) (time_right lc)
                        (tage_interp_grid a) (dcom_interp_grid a) in
    let dcom := _interp_between_vals ftemp (fobs_orb_left lc) (fobs_orb_right lc)
                  dcom_left dcom_right in
    let cosmo_fact := FOUR_PI_SPLC_OVER_MPC * (1.0 + newz) * pow (dcom / MY_MPC) 2 in
    {| redz_final := set4 (redz_final out) (ii lc) (jj lc) (kk lc) ff (Val newz);
       diff_num := set4 (diff_num out) (ii lc) (jj lc) (kk lc) ff
                     (Val (dens a (ii lc) (jj lc) (kk lc) * tres * cosmo_fact)) |}
  else out.

(** The loop over the target frequencies between the two step edges.  [ff]
    grows by one in every iteration and the loop stops when it reaches [nf]
    at the latest. *)

Fixpoint ff_loop (fuel : nat) (a : mapper_args) (lc : locals) (ff : Z) (ftemp : R)
  (out : fields) : fields :=
  match fuel with
  | O => out
  | S fuel' =>
      if (fobs_orb_left lc <? ftemp) && (ftemp <? fobs_orb_right lc) && (ff <? nf a)%Z
      then
        let out := target_found a lc ff ftemp out in
        let ff := (ff + 1)%Z in
        let ftemp := if (ff <? nf a)%Z then (target_fobs_orb a).[ff] else ftemp in
        ff_loop fuel' a lc ff ftemp out
      else out
  end.

(** The variables that survive one pass of the loop over the starting
    redshifts: the two search positions and the output fields. *)

Record cursor : Type := mkcursor { c_interp_left : Z; c_fidx : Z; c_out : fields }.

(** How the body of the redshift loop ends. *)

Inductive flow : Type := Next | Break.

(** The values of one trajectory step that the redshift loop reads. *)

Record step_edges : Type := mkedges {
  e_ii : Z; e_jj : Z; e_mt : R; e_mr : R; e_norm : R;
  e_sepa_log10 : R; e_sepa_right : R; e_dadt_right : R;
  e_time_evo : R; e_dt : R;
  e_frst_orb_left : R; e_frst_orb_right : R
}.

Definition kk_locals (a : mapper_args) (redz_age : Z -> R) (e : step_edges) (kk : Z)
  (c : cursor) : locals :=
  let gmt := gmt_time a (e_ii e) (e_jj e) kk in
  let time_left := (e_time_evo e - e_dt e) + gmt + redz_age kk in
  let time_right := e_time_evo e + gmt + redz_age kk in
  let interp_left := while_while (c_interp_left c) (ninterp a) time_left (tage_interp_grid a) in
  let interp_right := while_while interp_left (ninterp a) time_left (tage_interp_grid a) in
  let redz_left := interp_at_index interp_left time_left
                     (tage_interp_grid a) (redz_interp_grid a) in
  let redz_right := interp_at_index interp_right time_right
                      (tage_interp_grid a) (redz_interp_grid a) in
  {| ii := e_ii e; jj := e_jj e; kk := kk;
     mt := e_mt e; mr := e_mr e; norm := e_norm e;
     time_left := time_left; time_right := time_right;
     interp_left := interp_left; interp_right := interp_right;
     redz_left := redz_left; redz_right := redz_right;
     fobs_orb_left := e_frst_orb_left e / (1.0 + redz_left);
     fobs_orb_right := e_frst_orb_right e / (1.0 + redz_right) |}.

Definition kk_body (a : mapper_args) (redz_age : Z -> R) (e : step_edges) (kk : Z)
  (c : cursor) : cursor * flow :=
  let lc := kk_locals a redz_age e kk c in
  if time_left lc >? age_universe a then (c, Next)
  else
    if fobs_orb_left lc >? (target_fobs_orb a).[nf a - 1]
    then ({| c_interp_left := interp_left lc; c_fidx := c_fidx c; c_out := c_out c |}, Break)
    else
      let fidx := while_while (c_fidx c) (nf a) (fobs_orb_left lc) (target_fobs_orb a) in
      let ff := fidx in
      let ftemp := (target_fobs_orb a).[ff] in
      ({| c_interp_left := interp_left lc; c_fidx := fidx;
          c_out := ff_loop (Z.to_nat (nf a - ff)) a lc ff ftemp (c_out c) |}, Next).

Fixpoint kk_loop (a : mapper_args) (redz_age : Z -> R) (e : step_edges) (kks : list Z)
  (c : cursor) : cursor :=
  match kks with
  | [] => c
  | kk :: kks' =>
      match kk_body a redz_age e kk c with
      | (c', Break) => c'
      | (c', Next) => kk_loop a redz_age e kks' c'
      end
  end.

(** *** One (mass, ratio): the walk along the trajectory *)

Record walk : Type := mkwalk {
  w_sepa_log10 : R;
  w_sepa_left : R;
  w_dadt_left : R;
  w_frst_orb_left : R;
  w_time_evo : R;
  w_cursor : cursor
}.

Definition risco (mt : R) : R := 3.0 * MY_SCHW * mt.

Definition mapper_dx (a : mapper_args) (mt : R) : R :=
  let risco_log10 := log10 (risco mt) in
  (sepa_init_log10 a - risco_log10) / IZR (num_steps a).

Definition walk_init (a : mapper_args) (ii jj : Z) (out : fields) : walk :=
  let mt := (mtot a).[ii] in
  let mr := (mrat a).[jj] in
  let sepa_log10 := sepa_init_log10 a in
  let norm := hard_norm a ii jj in
  let sepa_left := pow 10.0 sepa_log10 in
  {| w_sepa_log10 := sepa_log10;
     w_sepa_left := sepa_left;
     w_dadt_left := hard_func_2pwl_gw mt mr sepa_left
                      norm (hard_rchar a) (hard_gamma_inner a) (hard_gamma_outer a);
     w_frst_orb_left := kepler_freq_from_sepa mt sepa_left;
     w_time_evo := 0.0;
     w_cursor := {| c_interp_left := 0; c_fidx := 0; c_out := out |} |}.

(** The head of a step: the separation moves one [dx] down in log10 and
    the right edge of the step is evaluated. *)

Definition step_edges_of (a : mapper_args) (ii jj : Z) (w : walk) : step_edges :=
  let mt := (mtot a).[ii] in
  let mr := (mrat a).[jj] in
  let norm := hard_norm a ii jj in
  let sepa_log10 := w_sepa_log10 w - mapper_dx a mt in
  let sepa_right := pow 10.0 sepa_log10 in
  let frst_orb_right := kepler_freq_from_sepa mt sepa_right in
  let dadt_right := hard_func_2pwl_gw mt mr sepa_right
                      norm (hard_rchar a) (hard_gamma_inner a) (hard_gamma_outer a) in
  let dt := 2.0 * (sepa_right - w_sepa_left w) / (w_dadt_left w + dadt_right) in
  {| e_ii := ii; e_jj := jj; e_mt := mt; e_mr := mr; e_norm := norm;
     e_sepa_log10 := sepa_log10; e_sepa_right := sepa_right; e_dadt_right := dadt_right;
     e_time_evo := w_time_evo w + dt; e_dt := dt;
     e_frst_orb_left := w_frst_orb_left w; e_frst_orb_right := frst_orb_right |}.

(** One step: the head, the loop over the starting redshifts from the last
    bin down to the first, and the new left edge. *)

Definition walk_step (a : mapper_args) (redz_age : Z -> R) (ii jj : Z) (w : walk) (ss : Z)
  : walk :=
  let e := step_edges_of a ii jj w in
  let c := kk_loop a redz_age e (range_rev (nz a)) (w_cursor w) in
  {| w_sepa_log10 := e_sepa_log10 e;
     w_sepa_left := e_sepa_right e;
     w_dadt_left := e_dadt_right e;
     w_frst_orb_left := e_frst_orb_right e;
     w_time_evo := e_time_evo e;
     w_cursor := c |}.

(** The walk of the pair (ii, jj) after its first [k] steps. *)

Definition walk_after (a : mapper_args) (redz_age : Z -> R) (ii jj : Z) (out : fields) (k : Z)
  : walk :=
  fold_left (walk_step a redz_age ii jj) (range k) (walk_init a ii jj out).

Definition jj_body (a : mapper_args) (redz_age : Z -> R) (ii : Z) (out : fields) (jj : Z)
  : fields :=
  c_out (w_cursor (walk_after a redz_age ii jj out (num_steps a))).

Definition ii_body (a : mapper_args) (redz_age : Z -> R) (out : fields) (ii : Z) : fields :=
  fold_left (jj_body a redz_age ii) (range (nq a)) out.

Definition _dynamic_binary_number_at_fobs (a : mapper_args) (out : fields) : fields :=
  let redz_age := redz_ages a in
  fold_left (ii_body a redz_age) (range (nm a)) out.

(** The Python entry point allocates the two output fields,
    [NAN * np.ones(shape)] and [np.zeros(shape)], and runs the mapper on
    them. *)

Definition alloc_fields : fields :=
  {| redz_final := fun _ _ _ _ => NaN; diff_num := fun _ _ _ _ => Val 0 |}.

Definition dynamic_binary_number_at_fobs (a : mapper_args) : fields :=
  _dynamic_binary_number_at_fobs a alloc_fields.

(** * Specification vocabulary *)

(** An array whose first [size] cells are in ascending order. *)

Definition ascending (size : Z) (edges : dvec) : Prop :=
  forall i j : Z, (0 <= i)%Z -> (i <= j)%Z -> (j < size)%Z -> edges.[i] <= edges.[j].

(** The cells of a field of shape (nm, nq, nz, nf). *)

Definition in_shape (a : mapper_args) (i j k l : Z) : Prop :=
  (0 <= i < nm a)%Z /\ (0 <= j < nq a)%Z /\ (0 <= k < nz a)%Z /\ (0 <= l < nf a)%Z.

(** The input invariants of the data model: positive total masses below
    which the ISCO lies inside the initial separation, positive mass
    ratios, non-negative normalisations and a positive characteristic
    radius. *)

Definition valid_binary (a : mapper_args) (ii jj : Z) : Prop :=
  0 < (mtot a).[ii] /\ risco (mtot a).[ii] < sepa_init a
  /\ 0 < (mrat a).[jj] /\ 0 <= hard_norm a ii jj /\ 0 < hard_rchar a.

(** The time that the binary (ii, jj) has spent hardening before each of
    its steps is not negative.  It is so for every binary that satisfies
    the invariants of the data model (lemma [valid_binary_elapsed]): its
    separation shrinks at a negative rate. *)

Definition elapsed_nonneg (a : mapper_args) (ii jj : Z) : Prop :=
  forall (ss : Z) (out : fields),
    (0 <= ss < num_steps a)%Z -> 0 <= w_time_evo (walk_after a (redz_ages a) ii jj out ss).

(** ** Invariants of the output fields *)

(** The calls of [target_found] that one trajectory step [e] can make keep
    [P]: the redshift bin is in range and not stalled, the frequency index
    is in range. *)

Definition bin_closed (a : mapper_args) (redz_age : Z -> R) (P : fields -> Prop)
  (e : step_edges) : Prop :=
  forall (kk : Z) (c : cursor) (ff : Z) (ftemp : R) (out : fields),
    (0 <= kk < nz a)%Z ->
    let lc := kk_locals a redz_age e kk c in
    time_left lc <= age_universe a ->
    fobs_orb_left lc <= (target_fobs_orb a).[nf a - 1] ->
    (0 <= ff < nf a)%Z ->
    P out -> P (target_found a lc ff ftemp out).

(** The fields of a cursor satisfy [P] and its search position among the
    target frequencies is not negative. *)

Definition cursor_ok (P : fields -> Prop) (c : cursor) : Prop :=
  P (c_out c) /\ (0 <= c_fidx c)%Z.

(** A cell that holds no crossing redshift holds a zero differential
    number, and a crossing redshift is positive. *)

Definition paired (out : fields) : Prop :=
  forall i j k l : Z,
    (redz_final out i j k l = NaN -> diff_num out i j k l = Val 0)
    /\ (forall z : R, redz_final out i j k l = Val z -> 0 < z).

(** ** Small runs of the mapper

    One binary of unit mass and unit mass ratio starts at unit separation
    and reaches the ISCO in a single step, through a universe whose age
    grows from 0 to 8 over the three rows of the cosmology table.  The
    target frequencies, the starting redshifts, the redshifts of the table
    and the galaxy-merger time of each starting redshift are left open. *)

Definition example_with (targets redzs grid : list R) (gmt : Z -> R) : mapper_args :=
  {| target_fobs_orb := of_list targets;
     hard_norm := fun _ _ => 1;
     hard_rchar := 1;
     hard_gamma_inner := 1;
     hard_gamma_outer := 1;
     dens := fun _ _ _ => 1;
     mtot := of_list [1];
     mrat := of_list [1];
     redz := of_list redzs;
     gmt_time := fun _ _ kk => gmt kk;
     sepa_init := 1;
     num_steps := 1;
     redz_interp_grid := of_list grid;
     dcom_interp_grid := of_list [2 * MY_MPC; MY_MPC; 0.5 * MY_MPC];
     tage_interp_grid := of_list [0; 4; 8] |}.

(** A binary formed at redshift 1 while the redshift falls from 2 to 0.5:
    with one target frequency and no galaxy-merger delay; with no target
    frequency; with a galaxy-merger time beyond the age of the universe. *)

Definition example_args : mapper_args := example_with [1] [1] [2; 1; 0.5] (fun _ => 0).
Definition example_empty : mapper_args := example_with [] [1] [2; 1; 0.5] (fun _ => 0).
Definition example_stalled : mapper_args := example_with [1] [1] [2; 1; 0.5] (fun _ => 100).

(** Two starting redshifts, 1 and 1.5: the binaries of the higher one have
    a galaxy-merger time beyond the age of the universe, those of the lower
    one none. *)

Definition example_skipped : mapper_args :=
  example_with [1] [1; 1.5] [2; 1; 0.5] (fun kk => if (kk =? 1)%Z then 100 else 0).

(** Two starting redshifts, 1e6 and 2e6, in a universe whose redshift falls
    from 2e6 to 0; the binaries of the higher starting redshift begin to
    harden after a galaxy-merger time of 8, those of the lower one at
    once. *)

Definition example_delayed : mapper_args :=
  example_with [1e-6] [1e6; 2e6] [2e6; 1e6; 0] (fun kk => if (kk =? 1)%Z then 8 else 0).

(** The parameters of the integrator for the same binary. *)

Definition example_pars : Integrator.integrate_2pl_params :=
  {| Integrator.target_time := 0; Integrator.mt := 1; Integrator.mr := 1;
     Integrator.sepa_init := 1; Integrator.rchar := 1;
     Integrator.gamma_inner := 1; Integrator.gamma_outer := 1;
     Integrator.nsteps := 1 |}.

(** The first step of the first binary, and the cursor it starts with. *)

Definition edges_of (a : mapper_args) : step_edges :=
  step_edges_of a 0 0 (walk_init a 0 0 alloc_fields).

Definition example_cursor : cursor :=
  {| c_interp_left := 0; c_fidx := 0; c_out := alloc_fields |}.

(** The only redshift bin of [example_args]. *)

Definition example_edges : step_edges := edges_of example_args.

Definition example_locals : locals :=
  kk_locals example_args (redz_ages example_args) example_edges 0 example_cursor.

(** The two redshift bins of [example_delayed], in the order of the loop:
    bin 1, then bin 0 with the cursor that bin 1 leaves. *)

Definition delayed_edges : step_edges := edges_of example_delayed.

Definition delayed_first : locals :=
  kk_locals example_delayed (redz_ages example_delayed) delayed_edges 1 example_cursor.

Definition delayed_cursor : cursor :=
  fst (kk_body example_delayed (redz_ages example_delayed) delayed_edges 1 example_cursor).

Definition delayed_next : locals :=
  kk_locals example_delayed (redz_ages example_delayed) delayed_edges 0 delayed_cursor.

(** A unit binary that the double power law pushes apart (its
    normalisation is negative), followed over two steps: one starting
    redshift, 1, with a galaxy-merger time of 4.5, and one target
    frequency. *)

Definition example_softening : mapper_args :=
  {| target_fobs_orb := of_list [1e30];
     hard_norm := fun _ _ => -1;
     hard_rchar := 1;
     hard_gamma_inner := 1;
     hard_gamma_outer := 1;
     dens := fun _ _ _ => 1;
     mtot := of_list [1];
     mrat := of_list [1];
     redz := of_list [1];
     gmt_time := fun _ _ _ => 4.5;
     sepa_init := 1;
     num_steps := 2;
     redz_interp_grid := of_list [2; 1; 0.5];
     dcom_interp_grid := of_list [2 * MY_MPC; MY_MPC; 0.5 * MY_MPC];
     tage_interp_grid := of_list [0; 4; 8] |}.

(** Its separation after the first step, the walk before the second step,
    and the edges and the only redshift bin of the second step. *)

Definition softening_sepa : R :=
  pow 10.0 (sepa_init_log10 example_softening - mapper_dx example_softening 1).

Definition softening_walk : walk :=
  walk_after example_softening (redz_ages example_softening) 0 0 alloc_fields 1.

Definition softening_edges : step_edges := step_edges_of example_softening 0 0 softening_walk.

Definition softening_locals : locals :=
  kk_locals example_softening (redz_ages example_softening) softening_edges 0 example_cursor.

Definition softening_newz : R :=
  _interp_between_vals 1e30 (fobs_orb_left softening_locals) (fobs_orb_right softening_locals)
    (redz_left softening_locals) (redz_right softening_locals).

(** The redshift at which that binary crosses the target frequency. *)

Definition example_newz : R :=
  _interp_between_vals 1 (fobs_orb_left example_locals) (fobs_orb_right example_locals)
    (redz_left example_locals) (redz_right example_locals).

(** ** The differential number of a crossing, in the words of the
    specification *)

(** The residence time [- (2/3) * sepa / (da/dt)], the hardening rate
    being evaluated at the separation that Kepler's law gives for the
    rest-frame frequency [ftemp * (1 + newz)]. *)

Definition residence_time (a : mapper_args) (lc : locals) (ftemp newz : R) : R :=
  let sepa := kepler_sepa_from_freq (mt lc) (ftemp * (1 + newz)) in
  - (2 / 3) * sepa
  / hard_func_2pwl_gw (mt lc) (mr lc) sepa (norm lc)
      (hard_rchar a) (hard_gamma_inner a) (hard_gamma_outer a).

(** The comoving distance of the crossing, interpolated at the target
    frequency between the comoving distances of the two step edges. *)

Definition crossing_dcom (a : mapper_args) (lc : locals) (ftemp : R) : R :=
  _interp_between_vals ftemp (fobs_orb_left lc) (fobs_orb_right lc)
    (interp_at_index (interp_left lc) (time_left lc)
       (tage_interp_grid a) (dcom_interp_grid a))
    (interp_at_index (interp_right lc) (time_right lc)
       (tage_interp_grid a) (dcom_interp_grid a)).

(** The weighting factor as the specification writes it,
    [4 pi c (1 + newz) D^2 / Mpc^2], and as the source computes it,
    [(4 pi c / Mpc) (1 + newz) (D / Mpc)^2]. *)

Definition weight_claimed (newz dcom : R) : R :=
  4 * PI * MY_SPLC * (1 + newz) * dcom ^ 2 / MY_MPC ^ 2.

Definition weight_coded (newz dcom : R) : R :=
  4 * PI * MY_SPLC / MY_MPC * (1 + newz) * (dcom / MY_MPC) ^ 2.

(** ** Interpolation in a table, in the words of the specification *)

(** The index [i] brackets [x] in the first [n] cells of [xs]. *)

Definition brackets (xs : dvec) (n i : Z) (x : R) : Prop :=
  (0 <= i < n - 1)%Z /\ xs.[i] <= x <= xs.[i + 1].

(** [v] is the value at [x] of the piecewise-linear interpolant of the
    table [(xs, ys)] of [n] rows. *)

Definition is_interpolant (xs ys : dvec) (n : Z) (x v : R) : Prop :=
  exists i : Z, brackets xs n i x /\ v = interp_at_index i x xs ys.

(** ** The coalescence time as a function of the normalisation *)

(** The shape of the double power law, the factor of [- norm] in the
    hardening rate. *)

Definition power_law_shape (rchar gamma_inner gamma_outer sepa : R) : R :=
  pow (1.0 + sepa / rchar) (- gamma_outer + gamma_inner) / pow (sepa / rchar) (gamma_inner - 1).

(** Valid parameters of the integrator: a positive total mass whose ISCO
    lies inside the initial separation, a positive mass ratio, a positive
    characteristic radius and at least one step. *)

Definition valid_pars (pars : Integrator.integrate_2pl_params) : Prop :=
  0 < Integrator.mt pars /\ 0 < Integrator.mr pars
  /\ risco (Integrator.mt pars) < Integrator.sepa_init pars
  /\ 0 < Integrator.rchar pars /\ (1 <= Integrator.nsteps pars)%Z.


(** ** The root finder *)

(** Modelled from the spec: [brentq] belongs to scipy, not to this
    repository.  The specification describes it as "a bracketed
    derivative-free root finder (bisection/Brent-family) with fixed
    tolerances (absolute step tolerance, relative tolerance) and a maximum
    iteration count".  What a finder of that family guarantees: on a
    continuous function whose values at the two ends of the bracket have
    opposite signs, and with an iteration cap that lets the halving of the
    bracket reach the absolute tolerance, the estimate [x] lies in the
    bracket, within [xtol + rtol * |x|] of a root. *)


(** A finder that meets the contract: plain bisection, which halves the
    bracket [mitr] times, keeps the half at whose ends the signs differ,
    and returns the lower end of the last one. *)



(** ** A cell and the crossing it records *)

(** The cell (i, j, k, l) of the two fields holds the record of one
    crossing: at some step of the binary (i, j) the target frequency [l]
    lies strictly between the observed frequencies of the two edges for the
    starting redshift [k], the redshift interpolated there is positive,
    [redz_final] holds that redshift and [diff_num] the differential number
    computed from it at the same place. *)

Definition crossing_record (a : mapper_args) (out : fields) (i j k l : Z) : Prop :=
  exists (ss : Z) (out0 : fields) (c : cursor),
    (0 <= ss < num_steps a)%Z
    /\ let lc := kk_locals a (redz_ages a)
                   (step_edges_of a i j (walk_after a (redz_ages a) i j out0 ss)) k c in
       let ftemp := (target_fobs_orb a).[l] in
       let newz := _interp_between_vals ftemp (fobs_orb_left lc) (fobs_orb_right lc)
                     (redz_left lc) (redz_right lc) in
       fobs_orb_left lc < ftemp < fobs_orb_right lc
       /\ 0 < newz
       /\ redz_final out i j k l = Val newz
       /\ diff_num out i j k l
          = Val (dens a i j k * residence_time a lc ftemp newz
                 * weight_coded newz (crossing_dcom a lc ftemp)).

(** Every cell is as it was allocated, not-a-number and zero, or holds the
    record of a crossing, inside the shape of the fields. *)

Definition recorded_together (a : mapper_args) (out : fields) : Prop :=
  forall i j k l : Z,
    (redz_final out i j k l = NaN /\ diff_num out i j k l = Val 0)
    \/ (in_shape a i j k l /\ crossing_record a out i j k l).
(** ** Vocabulary of the further properties *)

(** The two cells of the output fields at one index agree in [out] and
    [out']. *)

Definition same_cell (out out' : fields) (i j k l : Z) : Prop :=
  redz_final out i j k l = redz_final out' i j k l
  /\ diff_num out i j k l = diff_num out' i j k l.

(** The fields agree on every cell of the binary (i, j). *)


(** The calls of [target_found] that the loop over the target frequencies
    makes in one trajectory step [e] keep [P]: the frequency index is in
    range, the frequency is the target at that index and lies strictly
    between the observed frequencies of the two step edges. *)

Definition crossing_closed (a : mapper_args) (redz_age : Z -> R) (P : fields -> Prop)
  (e : step_edges) : Prop :=
  forall (kk : Z) (c : cursor) (ff : Z) (out : fields),
    (0 <= kk < nz a)%Z ->
    let lc := kk_locals a redz_age e kk c in
    let ftemp := (target_fobs_orb a).[ff] in
    (0 <= ff < nf a)%Z ->
    fobs_orb_left lc < ftemp < fobs_orb_right lc ->
    P out -> P (target_found a lc ff ftemp out).

(** The two search positions of a cursor are not negative and not beyond
    the last row of their tables. *)

Definition search_in_range (a : mapper_args) (c : cursor) : Prop :=
  (0 <= c_interp_left c <= Z.max 0 (ninterp a - 1))%Z
  /\ (0 <= c_fidx c <= Z.max 0 (nf a - 1))%Z.

(** The arguments [a] with the density [d] in the place of their own. *)

Definition with_dens (a : mapper_args) (d : Z -> Z -> Z -> R) : mapper_args :=
  {| target_fobs_orb := target_fobs_orb a;
     hard_norm := hard_norm a;
     hard_rchar := hard_rchar a;
     hard_gamma_inner := hard_gamma_inner a;
     hard_gamma_outer := hard_gamma_outer a;
     dens := d;
     mtot := mtot a;
     mrat := mrat a;
     redz := redz a;
     gmt_time := gmt_time a;
     sepa_init := sepa_init a;
     num_steps := num_steps a;
     redz_interp_grid := redz_interp_grid a;
     dcom_interp_grid := dcom_interp_grid a;
     tage_interp_grid := tage_interp_grid a |}.

(** Two argument records that differ in the density at most. *)

Definition same_inputs (a a' : mapper_args) : Prop :=
  target_fobs_orb a' = target_fobs_orb a
  /\ hard_norm a' = hard_norm a
  /\ hard_rchar a' = hard_rchar a
  /\ hard_gamma_inner a' = hard_gamma_inner a
  /\ hard_gamma_outer a' = hard_gamma_outer a
  /\ mtot a' = mtot a
  /\ mrat a' = mrat a
  /\ redz a' = redz a
  /\ gmt_time a' = gmt_time a
  /\ sepa_init a' = sepa_init a
  /\ num_steps a' = num_steps a
  /\ redz_interp_grid a' = redz_interp_grid a
  /\ dcom_interp_grid a' = dcom_interp_grid a
  /\ tage_interp_grid a' = tage_interp_grid a.

(** Two cursors at the same search positions whose fields are related by
    [Rf], and two walks at the same place of the trajectory with such
    cursors. *)

Definition same_search (Rf : fields -> fields -> Prop) (c c' : cursor) : Prop :=
  c_interp_left c' = c_interp_left c /\ c_fidx c' = c_fidx c /\ Rf (c_out c) (c_out c').

Definition same_walk (Rf : fields -> fields -> Prop) (w w' : walk) : Prop :=
  w_sepa_log10 w' = w_sepa_log10 w
  /\ w_sepa_left w' = w_sepa_left w
  /\ w_dadt_left w' = w_dadt_left w
  /\ w_frst_orb_left w' = w_frst_orb_left w
  /\ w_time_evo w' = w_time_evo w
  /\ same_search Rf (w_cursor w) (w_cursor w').

(** The fields of two runs, the first with a density of one everywhere and
    the second with the density [d]: the same crossing redshifts, and in
    every cell the differential number of the second is [d] times that of
    the first. *)

Definition scaled_by (d : Z -> Z -> Z -> R) (out out' : fields) : Prop :=
  forall i j k l : Z,
    redz_final out' i j k l = redz_final out i j k l
    /\ exists w : R, diff_num out i j k l = Val w /\ diff_num out' i j k l = Val (d i j k * w).

(** The number in a cell, zero for not-a-number. *)

Definition cell_value (c : cell) : R :=
  match c with
  | NaN => 0
  | Val v => v
  end.

(** The crossing redshifts of two fields are the same. *)

Definition same_redz_final (out out' : fields) : Prop :=
  forall i j k l : Z, redz_final out' i j k l = redz_final out i j k l.

(** Every differential number is a number that is not negative. *)

Definition diff_num_nonneg (out : fields) : Prop :=
  forall i j k l : Z, exists v : R, diff_num out i j k l = Val v /\ 0 <= v.

(** The row [idx] of the table of redshifts, which the mapper expects in
    descending order, is the row of the redshift [z]: the redshift of the
    next row, when there is one, is at most [z], and the redshift of the
    row, unless it is the first, is above [z]. *)

Definition age_row (a : mapper_args) (z : R) (idx : Z) : Prop :=
  (0 <= idx <= ninterp a - 1)%Z
  /\ ((idx < ninterp a - 1)%Z -> (redz_interp_grid a).[idx + 1] <= z)
  /\ ((0 < idx)%Z -> z < (redz_interp_grid a).[idx]).

(** The cursor and the ages after the first [m] starting redshifts, the
    highest ones, have been looked up. *)

Definition redz_ages_after (a : mapper_args) (m : Z) : Z * (Z -> R) :=
  fold_left (redz_age_step a) (range m) (0%Z, fun _ => 0).

(** The stepping loop of the integrator run with the normalisation [norm]
    itself, and the time it gives with no phenomenological hardening at
    all, gravitational waves only: [norm = 0], which [10 ^ norm_log10]
    approaches and never reaches. *)

Definition integ_after_norm (norm : R) (pars : Integrator.integrate_2pl_params) (k : Z)
  : Integrator.integ_state :=
  fold_left (Integrator.integ_step norm pars) (range k) (Integrator.integ_init norm pars).

Definition gw_only_time (pars : Integrator.integrate_2pl_params) : R :=
  Integrator.i_time (integ_after_norm 0 pars (Integrator.nsteps pars)).

(** * Properties *)

(** ** Booleans of comparisons *)

Lemma Rltb_spec (x y : R) : reflect (x < y) (x <? y).
Proof. unfold Rltb. destruct (Rlt_dec x y); constructor; assumption. Qed.

Lemma Rltb_true_iff (x y : R) : (x <? y) = true <-> x < y.
Proof.
  destruct (Rltb_spec x y); split; intros;
    try assumption; try reflexivity; try discriminate; contradiction.
Qed.

Lemma Rltb_false_iff (x y : R) : (x <? y) = false <-> y <= x.
Proof. destruct (Rltb_spec x y); split; intros; try reflexivity; try discriminate; lra. Qed.

Lemma Rgtb_true_iff (x y : R) : (x >? y) = true <-> y < x.
Proof. unfold Rgtb. apply Rltb_true_iff. Qed.

Lemma Rgtb_false_iff (x y : R) : (x >? y) = false <-> x <= y.
Proof. unfold Rgtb. apply Rltb_false_iff. Qed.

Lemma Rltb_true (x y : R) : x < y -> (x <? y) = true.
Proof. apply Rltb_true_iff. Qed.

Lemma Rltb_false (x y : R) : y <= x -> (x <? y) = false.
Proof. apply Rltb_false_iff. Qed.

Lemma Rgtb_true (x y : R) : y < x -> (x >? y) = true.
Proof. apply Rgtb_true_iff. Qed.

Lemma Rgtb_false (x y : R) : x <= y -> (x >? y) = false.
Proof. apply Rgtb_false_iff. Qed.

(** The decimal constants of the source, written as integers before
    [field] is called. *)

Ltac undecimal :=
  try replace 0.0 with 0 in * by lra;
  try replace 1.0 with 1 in * by lra;
  try replace 2.0 with 2 in * by lra;
  try replace 3.0 with 3 in * by lra;
  try replace 10.0 with 10 in * by lra.

(** ** Ranges *)

Lemma in_range (n i : Z) : In i (range n) <-> (0 <= i < n)%Z.
Proof.
  unfold range. rewrite in_map_iff. split.
  - intros [k [<- Hk]]. apply in_seq in Hk. lia.
  - intros H. exists (Z.to_nat i). split; [lia | apply in_seq; lia].
Qed.

Lemma in_range_rev (n i : Z) : In i (range_rev n) <-> (0 <= i < n)%Z.
Proof. unfold range_rev. rewrite <- in_rev. apply in_range. Qed.

Lemma range_succ (n : Z) : (0 <= n)%Z -> range (n + 1) = range n ++ [n].
Proof.
  intros Hn. unfold range.
  replace (Z.to_nat (n + 1)) with (Z.to_nat n + 1)%nat by lia.
  rewrite seq_app, map_app. simpl. rewrite Z2Nat.id by lia. reflexivity.
Qed.

Lemma range_nonpos (n : Z) : (n <= 0)%Z -> range n = [].
Proof. intros Hn. unfold range. replace (Z.to_nat n) with 0%nat by lia. reflexivity. Qed.

(** ** [while_while] *)

Lemma while_up_range (fuel : nat) (index size : Z) (val : R) (edges : dvec) :
  (index <= while_up fuel index size val edges)%Z /\
  (while_up fuel index size val edges <= Z.max index (size - 1))%Z.
Proof.
  revert index. induction fuel as [|fuel IH]; intros index; simpl.
  - lia.
  - destruct (Z.ltb_spec index (size - 1)); simpl.
    + destruct (edges.[index + 1] <? val).
      * specialize (IH (index + 1)%Z). lia.
      * lia.
    + lia.
Qed.

(** The loop stops because its condition is false, not for want of fuel. *)

Lemma while_up_exit (fuel : nat) (index size : Z) (val : R) (edges : dvec) :
  (size - 1 - index <= Z.of_nat fuel)%Z ->
  let r := while_up fuel index size val edges in
  (r < size - 1)%Z -> val <= edges.[r + 1].
Proof.
  revert index. induction fuel as [|fuel IH]; intros index Hfuel; simpl.
  - intros Hr. lia.
  - destruct (Z.ltb_spec index (size - 1)); simpl.
    + destruct (Rltb_spec (edges.[index + 1]) val).
      * apply IH. lia.
      * intros _. lra.
    + intros Hr. lia.
Qed.

Lemma while_down_range (fuel : nat) (index : Z) (val : R) (edges : dvec) :
  (Z.min index 0 <= while_down fuel index val edges)%Z /\
  (while_down fuel index val edges <= index)%Z.
Proof.
  revert index. induction fuel as [|fuel IH]; intros index; simpl.
  - lia.
  - destruct (Z.gtb_spec index 0); simpl.
    + destruct (edges.[index - 1] >? val).
      * specialize (IH (index - 1)%Z). lia.
      * lia.
    + lia.
Qed.

Lemma while_down_exit (fuel : nat) (index : Z) (val : R) (edges : dvec) :
  (index <= Z.of_nat fuel)%Z ->
  let r := while_down fuel index val edges in
  (0 < r)%Z -> edges.[r - 1] <= val.
Proof.
  revert index. induction fuel as [|fuel IH]; intros index Hfuel; simpl.
  - intros Hr. lia.
  - destruct (Z.gtb_spec index 0); simpl.
    + destruct (Rltb_spec val (edges.[index - 1])) as [Hlt|Hge].
      * unfold Rgtb. rewrite (Rltb_true _ _ Hlt). apply IH. lia.
      * unfold Rgtb. rewrite Rltb_false by lra. intros _. lra.
    + intros Hr. lia.
Qed.

(** What the downward loop keeps of the upper bound found by the upward
    loop: either it does not move, or it stops below an edge that is
    greater than [val]. *)

Lemma while_down_upper (fuel : nat) (index size : Z) (val : R) (edges : dvec) :
  ascending size edges -> (index < size)%Z ->
  let r := while_down fuel index val edges in
  r = index \/ ((0 <= r)%Z /\ (r < index)%Z /\ val < edges.[r]).
Proof.
  intros Hasc. revert index. induction fuel as [|fuel IH]; intros index Hidx; simpl.
  - left. reflexivity.
  - destruct (Z.gtb_spec index 0); simpl.
    + destruct (Rltb_spec val (edges.[index - 1])) as [Hlt|Hge].
      * unfold Rgtb. rewrite (Rltb_true _ _ Hlt). right.
        destruct (IH (index - 1)%Z ltac:(lia)) as [-> | [H0 [H1 H2]]].
        -- split; [lia | split; [lia | assumption]].
        -- split; [assumption | split; [lia | assumption]].
      * unfold Rgtb. rewrite Rltb_false by lra. left. reflexivity.
    + left. reflexivity.
Qed.

(** More fuel than the bound on the number of iterations changes
    nothing. *)

Lemma while_up_fuel (fuel fuel' : nat) (index size : Z) (val : R) (edges : dvec) :
  (size - 1 - index <= Z.of_nat fuel)%Z -> (fuel <= fuel')%nat ->
  while_up fuel' index size val edges = while_up fuel index size val edges.
Proof.
  revert fuel' index. induction fuel as [|fuel IH]; intros fuel' index Hb Hle.
  - destruct fuel' as [|fuel']; simpl; [reflexivity |].
    destruct (Z.ltb_spec index (size - 1)); [lia | reflexivity].
  - destruct fuel' as [|fuel']; [lia |]. simpl.
    destruct ((index <? size - 1)%Z && (edges.[index + 1] <? val)); [| reflexivity].
    apply IH; lia.
Qed.

Lemma while_down_fuel (fuel fuel' : nat) (index : Z) (val : R) (edges : dvec) :
  (index <= Z.of_nat fuel)%Z -> (fuel <= fuel')%nat ->
  while_down fuel' index val edges = while_down fuel index val edges.
Proof.
  revert fuel' index. induction fuel as [|fuel IH]; intros fuel' index Hb Hle.
  - destruct fuel' as [|fuel']; simpl; [reflexivity |].
    destruct (Z.gtb_spec index 0); [lia | reflexivity].
  - destruct fuel' as [|fuel']; [lia |]. simpl.
    destruct ((index >? 0)%Z && (edges.[index - 1] >? val)); [| reflexivity].
    apply IH; lia.
Qed.

Lemma while_while_spec (start size : Z) (val : R) (edges : dvec) :
  (1 <= size)%Z -> ascending size edges -> (0 <= start <= size - 1)%Z ->
  let index := while_while start size val edges in
  (0 <= index <= size - 1)%Z /\
  ((index > 0)%Z -> edges.[index - 1] <= val) /\
  ((index < size - 1)%Z -> val <= edges.[index + 1]).
Proof.
  intros Hsize Hasc Hstart. unfold while_while.
  set (up := while_up (Z.to_nat (size - 1 - start)) start size val edges).
  assert (Hup : (start <= up <= size - 1)%Z).
  { unfold up.
    pose proof (while_up_range (Z.to_nat (size - 1 - start)) start size val edges). lia. }
  assert (Hupx : (up < size - 1)%Z -> val <= edges.[up + 1]).
  { unfold up. apply while_up_exit. lia. }
  pose proof (while_down_range (Z.to_nat up) up val edges) as Hrange.
  pose proof (while_down_exit (Z.to_nat up) up val edges ltac:(lia)) as Hlow.
  pose proof (while_down_upper (Z.to_nat up) up size val edges Hasc ltac:(lia)) as Hupper.
  simpl in *.
  set (r := while_down (Z.to_nat up) up val edges) in *.
  split; [lia | split].
  - intros Hr. apply Hlow. lia.
  - intros Hr. destruct Hupper as [-> | [H0 [H1 H2]]].
    + apply Hupx. lia.
    + pose proof (Hasc r (r + 1)%Z ltac:(lia) ltac:(lia) ltac:(lia)). lra.
Qed.

(** Searching again for the same value from the index found does not
    move. *)

Lemma while_up_stay (fuel : nat) (index size : Z) (val : R) (edges : dvec) :
  ((index < size - 1)%Z -> val <= edges.[index + 1]) ->
  while_up fuel index size val edges = index.
Proof.
  intros H. destruct fuel as [|fuel]; simpl; [reflexivity |].
  destruct (Z.ltb_spec index (size - 1)); simpl; [| reflexivity].
  rewrite Rltb_false by (apply H; assumption). reflexivity.
Qed.

Lemma while_down_stay (fuel : nat) (index : Z) (val : R) (edges : dvec) :
  ((index > 0)%Z -> edges.[index - 1] <= val) ->
  while_down fuel index val edges = index.
Proof.
  intros H. destruct fuel as [|fuel]; simpl; [reflexivity |].
  destruct (Z.gtb_spec index 0); simpl; [| reflexivity].
  rewrite Rgtb_false by (apply H; lia). reflexivity.
Qed.

Lemma while_while_idempotent (start size : Z) (val : R) (edges : dvec) :
  (1 <= size)%Z -> ascending size edges -> (0 <= start <= size - 1)%Z ->
  while_while (while_while start size val edges) size val edges
  = while_while start size val edges.
Proof.
  intros Hsize Hasc Hstart.
  destruct (while_while_spec start size val edges Hsize Hasc Hstart) as [_ [Hlo Hhi]].
  set (r := while_while start size val edges) in *.
  unfold while_while at 1. rewrite (while_up_stay _ r size val edges Hhi).
  apply while_down_stay. exact Hlo.
Qed.

(** From the last cell of a table of four edges the search for 0.5 stops
    at index 1, one cell above the row that holds 0.5. *)

Example while_while_downwards : while_while 3 4 0.5 (of_list [0; 1; 2; 3]) = 1%Z.
Proof.
  unfold while_while. simpl.
  rewrite (Rgtb_true 2 0.5), (Rgtb_true 1 0.5), (Rgtb_false 0 0.5) by lra. reflexivity.
Qed.

(** C10. For an ascending array [edges] of [size >= 1] cells, a start
    index in [0, size-1] and any value [val], [while_while] returns an index
    in [0, size-1]; the edge before it, when there is one, is at most [val]
    and the edge after it, when there is one, is at least [val]. *)

Theorem while_while_brackets (start size : Z) (val : R) (edges : dvec) :
  (1 <= size)%Z -> ascending size edges -> (0 <= start <= size - 1)%Z ->
  let index := while_while start size val edges in
  (0 <= index <= size - 1)%Z /\
  ((index > 0)%Z -> edges.[index - 1] <= val) /\
  ((index < size - 1)%Z -> val <= edges.[index + 1]).
Proof. exact (while_while_spec start size val edges). Qed.

(** The theorem at a table of four edges, searched from its last cell. *)

Lemma while_while_brackets_witness :
  let edges := of_list [0; 1; 2; 3] in
  let index := while_while 3 4 0.5 edges in
  (0 <= index <= 4 - 1)%Z /\
  ((index > 0)%Z -> edges.[index - 1] <= 0.5) /\
  ((index < 4 - 1)%Z -> 0.5 <= edges.[index + 1]).
Proof.
  apply (while_while_brackets 3 4 0.5 (of_list [0; 1; 2; 3])).
  - lia.
  - intros i j Hi Hij Hj.
    assert (Hc : (i = 0 \/ i = 1 \/ i = 2 \/ i = 3)%Z) by lia.
    assert (Hd : (j = 0 \/ j = 1 \/ j = 2 \/ j = 3)%Z) by lia.
    destruct Hc as [-> | [-> | [-> | ->]]]; destruct Hd as [-> | [-> | [-> | ->]]];
      try lia; simpl; lra.
  - lia.
Defined.
(** ** The maths library on positive arguments *)

Lemma pow_pos_base (x y : R) : 0 < x -> pow x y = Rpower x y.
Proof. intros Hx. unfold pow. rewrite Rltb_true by assumption. reflexivity. Qed.

Lemma pow_gt_0 (x y : R) : 0 < x -> 0 < pow x y.
Proof. intros Hx. rewrite pow_pos_base by assumption. apply exp_pos. Qed.

Lemma pow_nat (x : R) (n : nat) : 0 < x -> pow x (INR n) = x ^ n.
Proof. intros Hx. rewrite pow_pos_base by assumption. apply Rpower_pow. assumption. Qed.

Lemma pow_2 (x : R) : 0 < x -> pow x 2 = x ^ 2.
Proof. intros Hx. rewrite <- pow_nat by assumption. f_equal; try (simpl; lra). Qed.

Lemma pow_3 (x : R) : 0 < x -> pow x 3 = x ^ 3.
Proof. intros Hx. rewrite <- pow_nat by assumption. f_equal; try (simpl; lra). Qed.

Lemma pow_5 (x : R) : 0 < x -> pow x 5 = x ^ 5.
Proof. intros Hx. rewrite <- pow_nat by assumption. f_equal; try (simpl; lra). Qed.

Lemma is_integer_2 : is_integer 2 = true /\ Int_part 2 = 2%Z.
Proof.
  assert (H : Int_part 2 = 2%Z).
  { symmetry. apply Int_part_spec. simpl. lra. }
  split; [| exact H]. unfold is_integer. rewrite H.
  destruct (Req_dec_T 2 2); [reflexivity | contradiction].
Qed.

(** C's [pow(x, 2)] is the square of [x], whatever the sign of [x]. *)

Lemma pow_sqr (x : R) : pow x 2 = x * x.
Proof.
  destruct (Rlt_dec 0 x) as [Hx|Hx].
  - rewrite pow_2 by assumption. ring.
  - unfold pow. rewrite Rltb_false by lra.
    destruct is_integer_2 as [-> ->]. simpl. ring.
Qed.

Lemma ln_10_pos : 0 < ln 10.
Proof. rewrite <- ln_1. apply ln_increasing; lra. Qed.

Lemma pow_10_log10 (x : R) : 0 < x -> pow 10.0 (log10 x) = x.
Proof.
  intros Hx. rewrite pow_pos_base by lra. unfold Rpower, log10.
  replace 10.0 with 10 by lra.
  replace (ln x / ln 10 * ln 10) with (ln x).
  - apply exp_ln. assumption.
  - field. pose proof ln_10_pos. lra.
Qed.

Lemma pow_10_increasing (u v : R) : u < v -> pow 10.0 u < pow 10.0 v.
Proof. intros H. rewrite !pow_pos_base by lra. apply Rpower_lt; lra. Qed.

Lemma log10_increasing (x y : R) : 0 < x -> x < y -> log10 x < log10 y.
Proof.
  intros Hx Hxy. unfold log10. pose proof ln_10_pos.
  apply Rmult_lt_compat_r; [apply Rinv_0_lt_compat; assumption |].
  apply ln_increasing; assumption.
Qed.

Lemma pow_increasing_base (x y c : R) : 0 < c -> 0 < x -> x < y -> pow x c < pow y c.
Proof.
  intros Hc Hx Hxy. rewrite !pow_pos_base by lra. apply Rlt_Rpower_l; lra.
Qed.

(** ** Signs of the constants *)

Lemma MY_NWTG_pos : 0 < MY_NWTG.
Proof. unfold MY_NWTG. lra. Qed.

Lemma MY_SPLC_pos : 0 < MY_SPLC.
Proof. unfold MY_SPLC. lra. Qed.

Lemma MY_MPC_pos : 0 < MY_MPC.
Proof. unfold MY_MPC. lra. Qed.

Lemma MY_SCHW_pos : 0 < MY_SCHW.
Proof. unfold MY_SCHW. lra. Qed.

Lemma GW_DADT_SEP_CONST_closed :
  GW_DADT_SEP_CONST = - (64 * MY_NWTG ^ 3 / (5 * MY_SPLC ^ 5)).
Proof.
  unfold GW_DADT_SEP_CONST.
  rewrite (pow_3 _ MY_NWTG_pos), (pow_5 _ MY_SPLC_pos).
  replace (-64.0) with (-64) by lra. replace 5.0 with 5 by lra.
  field. pose proof MY_SPLC_pos. lra.
Qed.

Lemma GW_DADT_SEP_CONST_neg : GW_DADT_SEP_CONST < 0.
Proof.
  rewrite GW_DADT_SEP_CONST_closed.
  assert (0 < MY_NWTG ^ 3) by (apply pow_lt, MY_NWTG_pos).
  assert (0 < MY_SPLC ^ 5) by (apply pow_lt, MY_SPLC_pos).
  assert (0 < 64 * MY_NWTG ^ 3 / (5 * MY_SPLC ^ 5)).
  { apply Rdiv_lt_0_compat; lra. }
  lra.
Qed.

Lemma KEPLER_CONST_FREQ_pos : 0 < KEPLER_CONST_FREQ.
Proof.
  unfold KEPLER_CONST_FREQ, M_PI. pose proof PI_RGT_0.
  apply Rmult_lt_0_compat.
  - apply Rdiv_lt_0_compat; lra.
  - apply sqrt_lt_R0, MY_NWTG_pos.
Qed.

Lemma KEPLER_CONST_SEPA_pos : 0 < KEPLER_CONST_SEPA.
Proof.
  unfold KEPLER_CONST_SEPA, M_PI. pose proof PI_RGT_0.
  apply Rdiv_lt_0_compat; apply pow_gt_0; [apply MY_NWTG_pos | lra].
Qed.

Lemma FOUR_PI_SPLC_OVER_MPC_pos : 0 < FOUR_PI_SPLC_OVER_MPC.
Proof.
  unfold FOUR_PI_SPLC_OVER_MPC, M_PI. pose proof PI_RGT_0.
  pose proof MY_SPLC_pos. pose proof MY_MPC_pos.
  apply Rdiv_lt_0_compat; [| assumption].
  apply Rmult_lt_0_compat; lra.
Qed.

(** ** The hardening rate *)

Lemma hard_gw_neg (mtot mrat sepa : R) :
  0 < mtot -> 0 < mrat -> 0 < sepa -> hard_gw mtot mrat sepa < 0.
Proof.
  intros Hm Hq Hs. unfold hard_gw.
  pose proof GW_DADT_SEP_CONST_neg as HC.
  pose proof (pow_gt_0 mtot 3 Hm) as H1.
  pose proof (pow_gt_0 sepa 3 Hs) as H2.
  pose proof (pow_gt_0 (1 + mrat) 2 ltac:(lra)) as H3.
  assert (H4 : 0 < pow mtot 3 * mrat / pow sepa 3 / pow (1 + mrat) 2).
  { repeat apply Rdiv_lt_0_compat; try assumption. apply Rmult_lt_0_compat; assumption. }
  replace (GW_DADT_SEP_CONST * pow mtot 3 * mrat / pow sepa 3 / pow (1 + mrat) 2)
    with (GW_DADT_SEP_CONST * (pow mtot 3 * mrat / pow sepa 3 / pow (1 + mrat) 2))
    by (unfold Rdiv; ring).
  nra.
Qed.

Lemma _hard_func_2pwl_nonpos (norm xx gamma_inner gamma_outer : R) :
  0 <= norm -> 0 < xx -> _hard_func_2pwl norm xx gamma_inner gamma_outer <= 0.
Proof.
  intros Hn Hx. unfold _hard_func_2pwl.
  pose proof (pow_gt_0 (1.0 + xx) (- gamma_outer + gamma_inner) ltac:(lra)) as H1.
  pose proof (pow_gt_0 xx (gamma_inner - 1) Hx) as H2.
  assert (H3 : 0 < pow (1.0 + xx) (- gamma_outer + gamma_inner) / pow xx (gamma_inner - 1)).
  { apply Rdiv_lt_0_compat; assumption. }
  replace (- norm * pow (1.0 + xx) (- gamma_outer + gamma_inner) / pow xx (gamma_inner - 1))
    with (- (norm * (pow (1.0 + xx) (- gamma_outer + gamma_inner) / pow xx (gamma_inner - 1))))
    by (unfold Rdiv; ring).
  nra.
Qed.

Lemma hard_func_2pwl_gw_neg (mtot mrat sepa norm rchar gamma_inner gamma_outer : R) :
  0 < mtot -> 0 < mrat -> 0 < sepa -> 0 <= norm -> 0 < rchar ->
  hard_func_2pwl_gw mtot mrat sepa norm rchar gamma_inner gamma_outer < 0.
Proof.
  intros Hm Hq Hs Hn Hr. unfold hard_func_2pwl_gw.
  pose proof (hard_gw_neg mtot mrat sepa Hm Hq Hs).
  pose proof (_hard_func_2pwl_nonpos norm (sepa / rchar) gamma_inner gamma_outer Hn
                ltac:(apply Rdiv_lt_0_compat; assumption)).
  lra.
Qed.

(** C8. For positive total mass, mass ratio in (0, 1], positive
    separation, normalisation and characteristic radius, and any two slopes,
    the total hardening rate is the gravitational-wave term, the negative
    constant [-64 G^3 / (5 c^5)] times [mtot^3 * mrat / (1 + mrat)^2 / sepa^3],
    plus the double power law [- norm * (1 + x)^(gamma_inner - gamma_outer) /
    x^(gamma_inner - 1)] at [x = sepa / rchar]; the total is strictly
    negative. *)

Theorem hard_func_2pwl_gw_sum_negative
  (mtot mrat sepa norm rchar gamma_inner gamma_outer : R) :
  0 < mtot -> 0 < mrat <= 1 -> 0 < sepa -> 0 < norm -> 0 < rchar ->
  let x := sepa / rchar in
  hard_func_2pwl_gw mtot mrat sepa norm rchar gamma_inner gamma_outer
  = GW_DADT_SEP_CONST * (mtot ^ 3 * mrat / (1 + mrat) ^ 2 / sepa ^ 3)
    + - norm * Rpower (1 + x) (gamma_inner - gamma_outer) / Rpower x (gamma_inner - 1)
  /\ GW_DADT_SEP_CONST = - (64 * MY_NWTG ^ 3 / (5 * MY_SPLC ^ 5))
  /\ GW_DADT_SEP_CONST < 0
  /\ hard_func_2pwl_gw mtot mrat sepa norm rchar gamma_inner gamma_outer < 0.
Proof.
  intros Hm [Hq Hq1] Hs Hn Hr x.
  assert (Hx : 0 < x) by (apply Rdiv_lt_0_compat; assumption).
  split; [| split; [apply GW_DADT_SEP_CONST_closed | split; [apply GW_DADT_SEP_CONST_neg |]]].
  - unfold hard_func_2pwl_gw, _hard_func_2pwl, hard_gw. fold x.
    rewrite (pow_3 _ Hm), (pow_3 _ Hs), (pow_2 (1 + mrat)) by lra.
    rewrite (pow_pos_base (1.0 + x)) by lra. rewrite (pow_pos_base x) by assumption.
    replace (1.0 + x) with (1 + x) by lra.
    replace (- gamma_outer + gamma_inner) with (gamma_inner - gamma_outer) by ring.
    assert (Rpower x (gamma_inner - 1) <> 0).
    { pose proof (exp_pos ((gamma_inner - 1) * ln x)). unfold Rpower. lra. }
    field. repeat split; (assumption || lra).
  - apply hard_func_2pwl_gw_neg; lra.
Qed.

(** The theorem at a binary of 1e41 g and ratio 0.3, at 1e18 cm. *)

Lemma hard_func_2pwl_gw_sum_negative_witness :
  let x := 1e18 / 3e19 in
  hard_func_2pwl_gw 1e41 0.3 1e18 1e-5 3e19 (-1) 1.5
  = GW_DADT_SEP_CONST * (1e41 ^ 3 * 0.3 / (1 + 0.3) ^ 2 / 1e18 ^ 3)
    + - (1e-5) * Rpower (1 + x) (-1 - 1.5) / Rpower x (-1 - 1)
  /\ GW_DADT_SEP_CONST = - (64 * MY_NWTG ^ 3 / (5 * MY_SPLC ^ 5))
  /\ GW_DADT_SEP_CONST < 0
  /\ hard_func_2pwl_gw 1e41 0.3 1e18 1e-5 3e19 (-1) 1.5 < 0.
Proof.
  apply (hard_func_2pwl_gw_sum_negative 1e41 0.3 1e18 1e-5 3e19 (-1) 1.5); lra.
Defined.
(** ** The trajectory of separations *)

Lemma fold_left_range_succ {A : Type} (f : A -> Z -> A) (k : Z) (x : A) :
  (0 <= k)%Z -> fold_left f (range (k + 1)) x = f (fold_left f (range k) x) k.
Proof. intros Hk. rewrite range_succ by assumption. rewrite fold_left_app. reflexivity. Qed.

Lemma walk_after_0 (a : mapper_args) (redz_age : Z -> R) (ii jj : Z) (out : fields) :
  walk_after a redz_age ii jj out 0 = walk_init a ii jj out.
Proof. reflexivity. Qed.

Lemma walk_after_succ (a : mapper_args) (redz_age : Z -> R) (ii jj : Z) (out : fields) (k : Z) :
  (0 <= k)%Z ->
  walk_after a redz_age ii jj out (k + 1)
  = walk_step a redz_age ii jj (walk_after a redz_age ii jj out k) k.
Proof. intros Hk. unfold walk_after. apply fold_left_range_succ. assumption. Qed.

Lemma integ_after_succ (norm_log10 : R) (pars : Integrator.integrate_2pl_params) (k : Z) :
  (0 <= k)%Z ->
  Integrator.integ_after norm_log10 pars (k + 1)
  = Integrator.integ_step (pow 10.0 norm_log10) pars (Integrator.integ_after norm_log10 pars k) k.
Proof. intros Hk. unfold Integrator.integ_after. apply fold_left_range_succ. assumption. Qed.

(** After [k] steps the mapper stands at [log10 sepa_init - k * dx], and the
    left edge and its frequency are those of that separation. *)

Lemma walk_after_sepa (a : mapper_args) (redz_age : Z -> R) (ii jj : Z) (out : fields) (k : Z) :
  (0 <= k)%Z ->
  let w := walk_after a redz_age ii jj out k in
  w_sepa_log10 w = sepa_init_log10 a - IZR k * mapper_dx a (mtot a).[ii]
  /\ w_sepa_left w = pow 10.0 (w_sepa_log10 w)
  /\ w_frst_orb_left w = kepler_freq_from_sepa (mtot a).[ii] (w_sepa_left w).
Proof.
  intros Hk. pattern k. apply natlike_ind; [| | exact Hk].
  - rewrite walk_after_0. simpl. repeat split. lra.
  - intros x Hx [IH1 [IH2 IH3]]. unfold Z.succ. rewrite walk_after_succ by assumption.
    simpl. rewrite IH1. rewrite plus_IZR. repeat split. lra.
Qed.

Lemma integ_after_sepa (norm_log10 : R) (pars : Integrator.integrate_2pl_params) (k : Z) :
  (0 <= k)%Z ->
  let st := Integrator.integ_after norm_log10 pars k in
  Integrator.i_sepa_log10 st
  = log10 (Integrator.sepa_init pars) - IZR k * Integrator.integ_dx pars
  /\ Integrator.i_sepa_left st = pow 10.0 (Integrator.i_sepa_log10 st).
Proof.
  intros Hk. pattern k. apply natlike_ind; [| | exact Hk].
  - simpl. split; [lra | reflexivity].
  - intros x Hx [IH1 IH2]. unfold Z.succ. rewrite integ_after_succ by assumption.
    simpl. rewrite IH1. rewrite plus_IZR. split; [lra | reflexivity].
Qed.

Lemma risco_pos (mt : R) : 0 < mt -> 0 < risco mt.
Proof. intros H. unfold risco. pose proof MY_SCHW_pos. nra. Qed.

Lemma mapper_dx_pos (a : mapper_args) (mt : R) :
  0 < mt -> risco mt < sepa_init a -> (1 <= num_steps a)%Z -> 0 < mapper_dx a mt.
Proof.
  intros Hm Hs Hn. unfold mapper_dx, sepa_init_log10.
  pose proof (log10_increasing _ _ (risco_pos mt Hm) Hs).
  apply Rdiv_lt_0_compat; [lra |]. apply IZR_lt. lia.
Qed.

Lemma kepler_freq_from_sepa_decreasing (mtot s1 s2 : R) :
  0 < mtot -> 0 < s1 -> s1 < s2 ->
  kepler_freq_from_sepa mtot s2 < kepler_freq_from_sepa mtot s1.
Proof.
  intros Hm H1 H12. unfold kepler_freq_from_sepa.
  pose proof KEPLER_CONST_FREQ_pos as HK.
  pose proof (sqrt_lt_R0 mtot Hm) as Hsq.
  pose proof (pow_gt_0 s1 1.5 H1) as Hp1.
  pose proof (pow_increasing_base s1 s2 1.5 ltac:(lra) H1 H12) as Hp.
  unfold Rdiv. apply Rmult_lt_compat_l; [apply Rmult_lt_0_compat; assumption |].
  apply Rinv_lt_contravar; [| assumption].
  apply Rmult_lt_0_compat; lra.
Qed.

Lemma kepler_freq_from_sepa_pos (mtot sepa : R) :
  0 < mtot -> 0 < sepa -> 0 < kepler_freq_from_sepa mtot sepa.
Proof.
  intros Hm Hs. unfold kepler_freq_from_sepa.
  apply Rdiv_lt_0_compat; [| apply pow_gt_0; assumption].
  apply Rmult_lt_0_compat; [apply KEPLER_CONST_FREQ_pos | apply sqrt_lt_R0; assumption].
Qed.

(** C9. For a positive total mass, an initial separation above the ISCO
    (three Schwarzschild radii) and at least one step, the separations
    visited by the integrator and by the mapper are the same, [k] steps of
    [dx = (log10 sepa_init - log10 risco) / nsteps] below [sepa_init] in
    log10; they start at [sepa_init], end at the ISCO and decrease strictly
    from one step to the next, and the rest-frame orbital frequency that the
    mapper carries is Kepler's frequency at the separation and increases
    strictly. *)

Theorem trajectory_strictly_monotone
  (a : mapper_args) (redz_age : Z -> R) (ii jj : Z) (out : fields)
  (norm_log10 : R) (pars : Integrator.integrate_2pl_params) :
  let m := (mtot a).[ii] in
  let n := num_steps a in
  0 < m -> risco m < sepa_init a -> (1 <= n)%Z ->
  Integrator.mt pars = m -> Integrator.sepa_init pars = sepa_init a ->
  Integrator.nsteps pars = n ->
  let sepa := fun k : Z => w_sepa_left (walk_after a redz_age ii jj out k) in
  let frst := fun k : Z => w_frst_orb_left (walk_after a redz_age ii jj out k) in
  (forall k : Z, (0 <= k <= n)%Z ->
     Integrator.i_sepa_left (Integrator.integ_after norm_log10 pars k) = sepa k)
  /\ (forall k : Z, (0 <= k <= n)%Z ->
        sepa k = pow 10.0 (log10 (sepa_init a)
                           - IZR k * ((log10 (sepa_init a) - log10 (risco m)) / IZR n)))
  /\ sepa 0%Z = sepa_init a
  /\ sepa n = risco m
  /\ (forall k : Z, (0 <= k <= n)%Z -> frst k = kepler_freq_from_sepa m (sepa k))
  /\ (forall k : Z, (0 <= k < n)%Z -> sepa (k + 1)%Z < sepa k /\ frst k < frst (k + 1)%Z).
Proof.
  intros m n Hm Hs Hn Hpm Hps Hpn sepa frst.
  pose proof (risco_pos m Hm) as Hr.
  pose proof (mapper_dx_pos a m Hm Hs Hn) as Hdx.
  assert (Hsepa : forall k, (0 <= k)%Z ->
            sepa k = pow 10.0 (sepa_init_log10 a - IZR k * mapper_dx a m)).
  { intros k Hk. unfold sepa.
    destruct (walk_after_sepa a redz_age ii jj out k Hk) as [H1 [H2 _]].
    rewrite H2, H1. reflexivity. }
  assert (Hfrst : forall k, (0 <= k)%Z -> frst k = kepler_freq_from_sepa m (sepa k)).
  { intros k Hk. unfold frst, sepa.
    destruct (walk_after_sepa a redz_age ii jj out k Hk) as [_ [_ H3]]. exact H3. }
  assert (Hpos : forall k, (0 <= k)%Z -> 0 < sepa k).
  { intros k Hk. rewrite Hsepa by assumption. apply pow_gt_0. lra. }
  assert (Hdec : forall k, (0 <= k)%Z -> sepa (k + 1)%Z < sepa k).
  { intros k Hk. rewrite !Hsepa by lia. apply pow_10_increasing. rewrite plus_IZR. nra. }
  split; [| split; [| split; [| split; [| split]]]].
  - intros k [Hk _].
    destruct (integ_after_sepa norm_log10 pars k Hk) as [H1 H2].
    rewrite H2, H1, Hsepa by assumption.
    unfold Integrator.integ_dx, mapper_dx, sepa_init_log10, risco.
    rewrite Hpm, Hps, Hpn. reflexivity.
  - intros k [Hk _]. apply Hsepa. assumption.
  - rewrite Hsepa by lia. replace (sepa_init_log10 a - 0 * mapper_dx a m)
      with (log10 (sepa_init a)) by (unfold sepa_init_log10; ring).
    apply pow_10_log10. lra.
  - rewrite Hsepa by lia.
    replace (sepa_init_log10 a - IZR n * mapper_dx a m) with (log10 (risco m)).
    + apply pow_10_log10. assumption.
    + unfold mapper_dx. fold n. field. apply not_0_IZR. lia.
  - intros k [Hk _]. apply Hfrst. assumption.
  - intros k [Hk _]. split; [apply Hdec; assumption |].
    rewrite !Hfrst by lia.
    apply kepler_freq_from_sepa_decreasing; [assumption | apply Hpos; lia | apply Hdec; assumption].
Qed.
(** ** The coalescence time as a function of the normalisation *)

Lemma hard_func_affine (mtot mrat sepa norm rchar gamma_inner gamma_outer : R) :
  hard_func_2pwl_gw mtot mrat sepa norm rchar gamma_inner gamma_outer
  = - norm * power_law_shape rchar gamma_inner gamma_outer sepa + hard_gw mtot mrat sepa.
Proof.
  unfold hard_func_2pwl_gw, _hard_func_2pwl, power_law_shape. unfold Rdiv. ring.
Qed.

Lemma power_law_shape_pos (rchar gamma_inner gamma_outer sepa : R) :
  0 < rchar -> 0 < sepa -> 0 < power_law_shape rchar gamma_inner gamma_outer sepa.
Proof.
  intros Hr Hs. unfold power_law_shape.
  assert (0 < sepa / rchar) by (apply Rdiv_lt_0_compat; assumption).
  apply Rdiv_lt_0_compat; apply pow_gt_0; lra.
Qed.

(** One step of the trapezoidal rule, [c / (n a + b)] in the normalisation
    [n]: a larger normalisation shortens the step, by no more than the
    ratio of the normalisations. *)

Lemma dt_ratio (sl sr pl pr gl gr n1 n2 : R) :
  sr < sl -> 0 < pl -> 0 < pr -> gl < 0 -> gr < 0 -> 0 < n1 <= n2 ->
  let d := fun n => 2.0 * (sr - sl) / ((- n * pl + gl) + (- n * pr + gr)) in
  0 < d n2 /\ d n2 <= d n1 /\ d n1 <= n2 / n1 * d n2.
Proof.
  intros Hs Hpl Hpr Hgl Hgr [Hn1 Hn12] d.
  set (c := 2 * (sl - sr)). set (a := pl + pr). set (b := - (gl + gr)).
  assert (Hc : 0 < c) by (unfold c; lra).
  assert (Ha : 0 < a) by (unfold a; lra).
  assert (Hb : 0 < b) by (unfold b; lra).
  assert (Hd : forall n, 0 < n -> d n = c / (n * a + b)).
  { intros n Hn. unfold d, c, a, b. replace 2.0 with 2 by lra.
    assert (0 < n * (pl + pr)) by (apply Rmult_lt_0_compat; lra).
    field. split; lra. }
  assert (H1 : 0 < n1 * a + b) by (assert (0 < n1 * a) by (apply Rmult_lt_0_compat; lra); lra).
  assert (H2 : 0 < n2 * a + b) by (assert (0 < n2 * a) by (apply Rmult_lt_0_compat; lra); lra).
  rewrite (Hd n1 Hn1), (Hd n2 ltac:(lra)).
  split; [apply Rdiv_lt_0_compat; assumption |]. split.
  - unfold Rdiv. apply Rmult_le_compat_l; [lra |].
    apply Rinv_le_contravar; [assumption |]. nra.
  - replace (n2 / n1 * (c / (n2 * a + b))) with (c * (n2 / (n1 * (n2 * a + b))))
      by (field; split; lra).
    unfold Rdiv at 1. apply Rmult_le_compat_l; [lra |].
    apply Rmult_le_reg_r with (n1 * (n2 * a + b)); [apply Rmult_lt_0_compat; lra |].
    replace (n2 / (n1 * (n2 * a + b)) * (n1 * (n2 * a + b))) with n2 by (field; split; lra).
    apply Rmult_le_reg_r with (n1 * a + b); [assumption |].
    replace (/ (n1 * a + b) * (n1 * (n2 * a + b)) * (n1 * a + b))
      with (n1 * (n2 * a + b)) by (field; lra).
    nra.
Qed.

Lemma integ_dx_pos (pars : Integrator.integrate_2pl_params) :
  valid_pars pars -> 0 < Integrator.integ_dx pars.
Proof.
  intros [Hm [_ [Hs [_ Hn]]]]. unfold Integrator.integ_dx.
  pose proof (log10_increasing _ _ (risco_pos _ Hm) Hs) as Hl. unfold risco in Hl.
  apply Rdiv_lt_0_compat; [lra |]. apply IZR_lt. lia.
Qed.

(** The left rate of the integrator is the hardening rate at its left
    separation, which is positive. *)

Lemma integ_after_dadt (norm_log10 : R) (pars : Integrator.integrate_2pl_params) (k : Z) :
  (0 <= k)%Z ->
  let st := Integrator.integ_after norm_log10 pars k in
  0 < Integrator.i_sepa_left st
  /\ Integrator.i_dadt_left st
     = hard_func_2pwl_gw (Integrator.mt pars) (Integrator.mr pars) (Integrator.i_sepa_left st)
         (pow 10.0 norm_log10) (Integrator.rchar pars)
         (Integrator.gamma_inner pars) (Integrator.gamma_outer pars).
Proof.
  intros Hk. pattern k. apply natlike_ind; [| | exact Hk].
  - simpl. split; [apply pow_gt_0; lra | reflexivity].
  - intros x Hx _. unfold Z.succ. rewrite integ_after_succ by assumption.
    simpl. split; [apply pow_gt_0; lra | reflexivity].
Qed.

(** Two runs of the integrator that differ in the normalisation only: the
    larger normalisation gives the shorter time, by no more than the ratio
    of the normalisations. *)

Lemma integ_times_ratio (x1 x2 : R) (pars : Integrator.integrate_2pl_params) (k : Z) :
  valid_pars pars -> x1 <= x2 -> (0 <= k)%Z ->
  let t1 := Integrator.i_time (Integrator.integ_after x1 pars k) in
  let t2 := Integrator.i_time (Integrator.integ_after x2 pars k) in
  0 <= t2 /\ t2 <= t1 /\ t1 <= pow 10.0 x2 / pow 10.0 x1 * t2.
Proof.
  intros Hv Hx Hk.
  pose proof Hv as [Hm [Hq [Hs [Hr Hn]]]].
  pose proof (integ_dx_pos pars Hv) as Hdx.
  assert (Hn1 : 0 < pow 10.0 x1) by (apply pow_gt_0; lra).
  assert (Hn12 : pow 10.0 x1 <= pow 10.0 x2).
  { destruct Hx as [Hx | ->]; [left; apply pow_10_increasing; assumption | right; reflexivity]. }
  assert (Hrho : 1 <= pow 10.0 x2 / pow 10.0 x1).
  { apply Rmult_le_reg_r with (pow 10.0 x1); [assumption |].
    replace (pow 10.0 x2 / pow 10.0 x1 * pow 10.0 x1) with (pow 10.0 x2) by (field; lra). lra. }
  pattern k. apply natlike_ind; [| | exact Hk].
  - simpl. lra.
  - intros j Hj [IH0 [IH1 IH2]]. unfold Z.succ. rewrite !integ_after_succ by assumption.
    destruct (integ_after_sepa x1 pars j Hj) as [Hl1 Hs1].
    destruct (integ_after_sepa x2 pars j Hj) as [Hl2 Hs2].
    destruct (integ_after_dadt x1 pars j Hj) as [Hp1 Hd1].
    destruct (integ_after_dadt x2 pars j Hj) as [Hp2 Hd2].
    set (st1 := Integrator.integ_after x1 pars j) in *.
    set (st2 := Integrator.integ_after x2 pars j) in *.
    cbn [Integrator.integ_step Integrator.i_time].
    rewrite Hd1, Hd2.
    assert (Hsame : Integrator.i_sepa_log10 st2 = Integrator.i_sepa_log10 st1) by lra.
    assert (Hsl : Integrator.i_sepa_left st2 = Integrator.i_sepa_left st1)
      by (rewrite Hs1, Hs2, Hsame; reflexivity).
    rewrite Hsame, Hsl.
    set (sl := Integrator.i_sepa_left st1) in *.
    set (sr := pow 10.0 (Integrator.i_sepa_log10 st1 - Integrator.integ_dx pars)).
    assert (Hsr0 : 0 < sr) by (apply pow_gt_0; lra).
    assert (Hsr : sr < sl) by (unfold sr; rewrite Hs1; apply pow_10_increasing; lra).
    rewrite !hard_func_affine.
    pose proof (dt_ratio sl sr _ _ _ _ (pow 10.0 x1) (pow 10.0 x2) Hsr
                  (power_law_shape_pos _ (Integrator.gamma_inner pars)
                     (Integrator.gamma_outer pars) _ Hr Hp1)
                  (power_law_shape_pos _ (Integrator.gamma_inner pars)
                     (Integrator.gamma_outer pars) _ Hr Hsr0)
                  (hard_gw_neg _ _ _ Hm Hq Hp1) (hard_gw_neg _ _ _ Hm Hq Hsr0)
                  (conj Hn1 Hn12)) as [Hda [Hdb Hdc]].
    cbv beta in Hda, Hdb, Hdc.
    set (d1 := 2.0 * (sr - sl) / _) in *. set (d2 := 2.0 * (sr - sl) / _) in *.
    set (t1 := Integrator.i_time st1) in *. set (t2 := Integrator.i_time st2) in *.
    set (rho := pow 10.0 x2 / pow 10.0 x1) in *.
    split; [lra |]. split; [lra |]. nra.
Qed.

Lemma pow_10_ratio (x y : R) : pow 10.0 y / pow 10.0 x = Rpower 10 (y - x).
Proof.
  rewrite !pow_pos_base by lra. replace 10.0 with 10 by lra.
  unfold Rminus. rewrite Rpower_plus, Rpower_Ropp. reflexivity.
Qed.

(** The time to the ISCO is positive, and two normalisations that differ
    by [|x - r|] in log10 give times that differ by no more than the factor
    [10 ^ |x - r|]. *)



(** ** Continuity of the coalescence time in the normalisation *)

Lemma continuity_ext (f g : R -> R) :
  (forall x : R, f x = g x) -> continuity f -> continuity g.
Proof.
  intros Heq Hf x. apply (continuity_pt_locally_ext f g 1 x); [lra | | apply Hf].
  intros y _. apply Heq.
Qed.

Lemma pow_10_continuity : continuity (fun x : R => pow 10.0 x).
Proof.
  apply (continuity_ext (comp exp (mult_fct id (fct_cte (ln 10.0))))).
  - intros x. rewrite pow_pos_base by lra. unfold comp, mult_fct, id, fct_cte, Rpower.
    reflexivity.
  - apply continuity_comp.
    + apply continuity_mult; [apply derivable_continuous, derivable_id |].
      apply continuity_const. intros x y. reflexivity.
    + apply derivable_continuous, derivable_exp.
Qed.

(** One more step adds [c / (a n + b)] to the time, with [n] the
    normalisation and [a], [b], [c] positive numbers that do not depend on
    it. *)

Lemma integ_time_succ (pars : Integrator.integrate_2pl_params) (k : Z) :
  valid_pars pars -> (0 <= k)%Z ->
  exists a b c : R,
    0 < a /\ 0 < b /\ 0 < c /\
    forall x : R,
      Integrator.i_time (Integrator.integ_after x pars (k + 1))
      = Integrator.i_time (Integrator.integ_after x pars k) + c / (a * pow 10.0 x + b).
Proof.
  intros Hv Hk. pose proof Hv as [Hm [Hq [Hs [Hr Hn]]]].
  pose proof (integ_dx_pos pars Hv) as Hdx.
  set (l := log10 (Integrator.sepa_init pars) - IZR k * Integrator.integ_dx pars).
  set (sl := pow 10.0 l). set (sr := pow 10.0 (l - Integrator.integ_dx pars)).
  assert (Hsl : 0 < sl) by (apply pow_gt_0; lra).
  assert (Hsr : 0 < sr) by (apply pow_gt_0; lra).
  assert (Hlt : sr < sl) by (apply pow_10_increasing; lra).
  pose proof (power_law_shape_pos _ (Integrator.gamma_inner pars)
                (Integrator.gamma_outer pars) _ Hr Hsl) as Hpl.
  pose proof (power_law_shape_pos _ (Integrator.gamma_inner pars)
                (Integrator.gamma_outer pars) _ Hr Hsr) as Hpr.
  pose proof (hard_gw_neg _ _ _ Hm Hq Hsl) as Hgl.
  pose proof (hard_gw_neg _ _ _ Hm Hq Hsr) as Hgr.
  set (pl := power_law_shape _ _ _ sl) in *. set (pr := power_law_shape _ _ _ sr) in *.
  set (gl := hard_gw _ _ sl) in *. set (gr := hard_gw _ _ sr) in *.
  exists (pl + pr), (- (gl + gr)), (2 * (sl - sr)).
  split; [lra |]. split; [lra |]. split; [lra |].
  intros x. rewrite integ_after_succ by assumption.
  destruct (integ_after_sepa x pars k Hk) as [Hl1 Hs1].
  destruct (integ_after_dadt x pars k Hk) as [_ Hd1].
  set (st := Integrator.integ_after x pars k) in *.
  cbn [Integrator.integ_step Integrator.i_time].
  rewrite Hd1, Hs1, Hl1. fold l. fold sl. fold sr.
  rewrite !hard_func_affine. fold pl pr gl gr.
  assert (Hn0 : 0 < pow 10.0 x) by (apply pow_gt_0; lra).
  set (n := pow 10.0 x) in *.
  assert (0 < n * (pl + pr)) by (apply Rmult_lt_0_compat; lra).
  replace 2.0 with 2 by lra. field. split; lra.
Qed.

Lemma integ_time_continuity (pars : Integrator.integrate_2pl_params) (k : Z) :
  valid_pars pars -> (0 <= k)%Z ->
  continuity (fun x : R => Integrator.i_time (Integrator.integ_after x pars k)).
Proof.
  intros Hv Hk. pattern k. apply natlike_ind; [| | exact Hk].
  - apply (continuity_ext (fct_cte 0.0)); [intros x; reflexivity |].
    apply continuity_const. intros x y. reflexivity.
  - intros j Hj IH. unfold Z.succ.
    destruct (integ_time_succ pars j Hv Hj) as [a [b [c [Ha [Hb [Hc Heq]]]]]].
    set (t := fun x : R => Integrator.i_time (Integrator.integ_after x pars j)) in *.
    set (p := fun x : R => pow 10.0 x).
    apply (continuity_ext
             (plus_fct t (div_fct (fct_cte c)
                            (plus_fct (mult_fct (fct_cte a) p) (fct_cte b))))).
    + intros x. rewrite Heq. reflexivity.
    + assert (Hcst : forall v : R, continuity (fct_cte v)).
      { intros v. apply continuity_const. intros x y. reflexivity. }
      apply continuity_plus; [exact IH |].
      intros x. apply continuity_pt_div.
      * apply Hcst.
      * apply continuity_pt_plus; [| apply Hcst].
        apply continuity_pt_mult; [apply Hcst | apply pow_10_continuity].
      * unfold plus_fct, mult_fct, fct_cte, p.
        assert (0 < pow 10.0 x) by (apply pow_gt_0; lra).
        assert (0 < a * pow 10.0 x) by (apply Rmult_lt_0_compat; assumption).
        lra.
Qed.

(** A target time that the two ends of a bracket enclose is the
    coalescence time of some normalisation of the bracket. *)

Lemma integ_time_root (pars : Integrator.integrate_2pl_params) (lo hi T : R) :
  valid_pars pars -> lo < hi ->
  let t := fun x : R =>
    Integrator.i_time (Integrator.integ_after x pars (Integrator.nsteps pars)) in
  T < t lo -> t hi < T -> exists r : R, lo <= r <= hi /\ t r = T.
Proof.
  intros Hv Hlh t Hlo Hhi.
  destruct (IVT (fun x => T - t x) lo hi) as [r [Hr Hz]].
  - apply (continuity_ext (minus_fct (fct_cte T) t)); [intros x; reflexivity |].
    apply continuity_minus.
    + apply continuity_const. intros x y. reflexivity.
    + apply integ_time_continuity; [exact Hv |]. destruct Hv as [_ [_ [_ [_ Hn]]]]. lia.
  - exact Hlh.
  - lra.
  - lra.
  - exists r. split; [exact Hr | lra].
Qed.

(** ** The coalescence time is strictly monotone *)

(** From the first step on the elapsed time is positive, and it is
    strictly shorter for the larger normalisation. *)

Lemma integ_time_strict (x1 x2 : R) (pars : Integrator.integrate_2pl_params) (k : Z) :
  valid_pars pars -> x1 < x2 -> (1 <= k)%Z ->
  let t := fun x : R => Integrator.i_time (Integrator.integ_after x pars k) in
  0 < t x2 /\ t x2 < t x1.
Proof.
  intros Hv Hx Hk t. unfold t. replace k with (k - 1 + 1)%Z by lia.
  destruct (integ_time_succ pars (k - 1) Hv ltac:(lia)) as [a [b [c [Ha [Hb [Hc Heq]]]]]].
  rewrite !Heq.
  destruct (integ_times_ratio x1 x2 pars (k - 1) Hv ltac:(lra) ltac:(lia)) as [H0 [Hle _]].
  pose proof (pow_10_increasing x1 x2 Hx) as Hp.
  assert (Hp1 : 0 < pow 10.0 x1) by (apply pow_gt_0; lra).
  set (p1 := pow 10.0 x1) in *. set (p2 := pow 10.0 x2) in *.
  assert (Hd1 : 0 < a * p1 + b) by nra.
  assert (Hd2 : a * p1 + b < a * p2 + b) by nra.
  assert (Hinv : / (a * p2 + b) < / (a * p1 + b)).
  { apply Rinv_lt_contravar; [apply Rmult_lt_0_compat; lra | assumption]. }
  assert (Hi2 : 0 < / (a * p2 + b)) by (apply Rinv_0_lt_compat; lra).
  unfold Rdiv. split; nra.
Qed.

Lemma integrate_binary_evolution_2pl_time
  (x mtot mrat sepa_init rchar gamma_inner gamma_outer : R) (nsteps : Z) :
  Integrator.integrate_binary_evolution_2pl x mtot mrat sepa_init rchar
    gamma_inner gamma_outer nsteps
  = Integrator.i_time
      (Integrator.integ_after x
         {| Integrator.target_time := 0.0; Integrator.mt := mtot; Integrator.mr := mrat;
            Integrator.sepa_init := sepa_init; Integrator.rchar := rchar;
            Integrator.gamma_inner := gamma_inner; Integrator.gamma_outer := gamma_outer;
            Integrator.nsteps := nsteps |} nsteps).
Proof.
  unfold Integrator.integrate_binary_evolution_2pl,
    Integrator._integrate_binary_evolution_2pl.
  cbn [Integrator.target_time Integrator.nsteps]. lra.
Qed.

(** ** The root finder *)

(** A continuous function with values of opposite signs, or a zero, at the
    two ends of an interval has a root in it. *)



(** Bisection meets the contract of the root finder. *)


(** The relative error that the tolerances of the solver leave on the
    time: [10 ^ 0.0012 - 1] is below 0.4 per cent. *)



(** ** The normalisation solver *)



(** Arrays of masses and of mass ratios of different sizes stop the solver
    at its [assert]. *)

Lemma find_2pl_hardening_norm_asserts
  (brentq : (R -> R) -> R -> R -> R -> R -> Z -> R)
  (time : R) (mtot mrat : dvec) (sepa_init rchar gamma_inner gamma_outer : R)
  (nsteps : Z) :
  size mtot <> size mrat ->
  Integrator.find_2pl_hardening_norm brentq time mtot mrat sepa_init rchar
    gamma_inner gamma_outer nsteps = AssertionError.
Proof.
  intros Hsize. unfold Integrator.find_2pl_hardening_norm.
  destruct (Z.eqb_spec (size mtot) (size mrat)); [contradiction | reflexivity].
Qed.


(** C1 (amended). For a binary with positive total mass, mass ratio in
    (0, 1] and valid hardening parameters, in arrays of masses and mass
    ratios of the same size, and for a target time [T] that the bracket
    encloses (the residual [time_to_isco - T] is positive at -20 and
    negative at 20): the solver returns an array of the size of the masses
    whose entry [x] for the binary is the estimate of the root finder for
    the residual over [-20, 20] with tolerances 1e-3 and 1e-5 and at most
    100 iterations.  With a root finder that keeps to its tolerances, [x]
    lies in the bracket within [1e-3 + 1e-5 |x|] of a root of the residual,
    and re-running the integrator with [x] gives [T] to within the relative
    error [10 ^ (1e-3 + 1e-5 |x|) - 1], which is less than 0.4 per cent. *)

(** ** What the mapper can do to the output fields

    Every write goes through [target_found].  A property of the fields that
    each reachable call of [target_found] preserves is therefore preserved
    by the loops around it, up to the whole pass. *)

Lemma target_found_cases (a : mapper_args) (lc : locals) (ff : Z) (ftemp : R) (out : fields) :
  let newz := _interp_between_vals ftemp (fobs_orb_left lc) (fobs_orb_right lc)
                (redz_left lc) (redz_right lc) in
  (newz <= 0 /\ target_found a lc ff ftemp out = out)
  \/ (0 < newz /\
      exists v : R,
        target_found a lc ff ftemp out
        = {| redz_final := set4 (redz_final out) (ii lc) (jj lc) (kk lc) ff (Val newz);
             diff_num := set4 (diff_num out) (ii lc) (jj lc) (kk lc) ff (Val v) |}).
Proof.
  intros newz. unfold target_found. fold newz.
  destruct (Rltb_spec 0.0 newz) as [H|H].
  - right. split; [lra |]. unfold Rgtb. rewrite Rltb_true by lra. eexists. reflexivity.
  - left. split; [lra |]. unfold Rgtb. rewrite Rltb_false by lra. reflexivity.
Qed.

Lemma ff_loop_preserves (a : mapper_args) (lc : locals) (P : fields -> Prop) (lo : Z) :
  (forall ff ftemp out, (lo <= ff < nf a)%Z -> P out -> P (target_found a lc ff ftemp out)) ->
  forall (fuel : nat) (ff : Z) (ftemp : R) (out : fields),
    (lo <= ff)%Z -> P out -> P (ff_loop fuel a lc ff ftemp out).
Proof.
  intros Hstep. induction fuel as [|fuel IH]; intros ff ftemp out Hff HP; simpl.
  - assumption.
  - destruct (Z.ltb_spec ff (nf a)) as [Hlt|Hge].
    + destruct ((fobs_orb_left lc <? ftemp) && (ftemp <? fobs_orb_right lc)); simpl.
      * apply IH; [lia |]. apply Hstep; [lia | assumption].
      * assumption.
    + rewrite andb_false_r. assumption.
Qed.

Lemma ff_loop_fuel (fuel fuel' : nat) (a : mapper_args) (lc : locals) (ff : Z) (ftemp : R)
  (out : fields) :
  (nf a - ff <= Z.of_nat fuel)%Z -> (fuel <= fuel')%nat ->
  ff_loop fuel' a lc ff ftemp out = ff_loop fuel a lc ff ftemp out.
Proof.
  revert fuel' ff ftemp out. induction fuel as [|fuel IH]; intros fuel' ff ftemp out Hb Hle.
  - destruct fuel' as [|fuel']; simpl; [reflexivity |].
    destruct (Z.ltb_spec ff (nf a)); [lia |]. rewrite andb_false_r. reflexivity.
  - destruct fuel' as [|fuel']; [lia |]. simpl.
    destruct ((fobs_orb_left lc <? ftemp) && (ftemp <? fobs_orb_right lc) && (ff <? nf a)%Z);
      [| reflexivity].
    apply IH; lia.
Qed.

Lemma redz_age_while_fuel (fuel fuel' : nat) (a : mapper_args) (rev ii0 : Z) :
  (ninterp a - 1 - ii0 <= Z.of_nat fuel)%Z -> (fuel <= fuel')%nat ->
  redz_age_while fuel' a rev ii0 = redz_age_while fuel a rev ii0.
Proof.
  revert fuel' ii0. induction fuel as [|fuel IH]; intros fuel' ii0 Hb Hle.
  - destruct fuel' as [|fuel']; simpl; [reflexivity |].
    destruct (Z.ltb_spec ii0 (ninterp a - 1)); [lia |]. rewrite andb_false_r. reflexivity.
  - destruct fuel' as [|fuel']; [lia |]. simpl.
    destruct (((redz_interp_grid a).[ii0 + 1] >? (redz a).[rev]) && (ii0 <? ninterp a - 1)%Z);
      [| reflexivity].
    apply IH; lia.
Qed.

(** The search positions never become negative. *)

Lemma while_while_nonneg (start size : Z) (val : R) (edges : dvec) :
  (0 <= start)%Z -> (0 <= while_while start size val edges)%Z.
Proof.
  intros Hs. unfold while_while.
  pose proof (while_up_range (Z.to_nat (size - 1 - start)) start size val edges).
  pose proof (while_down_range
                (Z.to_nat (while_up (Z.to_nat (size - 1 - start)) start size val edges))
                (while_up (Z.to_nat (size - 1 - start)) start size val edges) val edges).
  lia.
Qed.

Lemma kk_body_preserves (a : mapper_args) (redz_age : Z -> R) (P : fields -> Prop)
  (e : step_edges) (kk : Z) (c : cursor) :
  bin_closed a redz_age P e -> (0 <= kk < nz a)%Z ->
  cursor_ok P c -> cursor_ok P (fst (kk_body a redz_age e kk c)).
Proof.
  intros Hclosed Hkk [HP Hfidx]. unfold kk_body.
  destruct (Rltb_spec (age_universe a) (time_left (kk_locals a redz_age e kk c))) as [Hst|Hst].
  - unfold Rgtb. rewrite Rltb_true by assumption. simpl. split; assumption.
  - unfold Rgtb at 1. rewrite Rltb_false by lra.
    destruct (Rltb_spec ((target_fobs_orb a).[nf a - 1])
                (fobs_orb_left (kk_locals a redz_age e kk c))) as [Hbr|Hbr].
    + unfold Rgtb. rewrite Rltb_true by assumption. simpl. split; assumption.
    + unfold Rgtb. rewrite Rltb_false by lra. simpl.
      pose proof (while_while_nonneg (c_fidx c) (nf a)
                    (fobs_orb_left (kk_locals a redz_age e kk c)) (target_fobs_orb a) Hfidx)
        as Hnn.
      split; [| exact Hnn].
      apply ff_loop_preserves with (lo := 0%Z); [| exact Hnn | exact HP].
      intros ff ftemp out Hff HPo. apply Hclosed; solve [assumption | lia | lra].
Qed.

Lemma kk_loop_preserves (a : mapper_args) (redz_age : Z -> R) (P : fields -> Prop)
  (e : step_edges) (kks : list Z) (c : cursor) :
  bin_closed a redz_age P e -> (forall kk, In kk kks -> (0 <= kk < nz a)%Z) ->
  cursor_ok P c -> cursor_ok P (kk_loop a redz_age e kks c).
Proof.
  intros Hclosed. revert c. induction kks as [|kk kks IH]; intros c Hin Hc; simpl.
  - assumption.
  - pose proof (kk_body_preserves a redz_age P e kk c Hclosed (Hin kk (or_introl eq_refl)) Hc)
      as Hb.
    destruct (kk_body a redz_age e kk c) as [c' [|]]; simpl in Hb.
    + apply IH; [intros k Hk; apply Hin; right; assumption | assumption].
    + assumption.
Qed.

Lemma walk_after_preserves (a : mapper_args) (redz_age : Z -> R) (P : fields -> Prop)
  (ii jj : Z) (out : fields) (k : Z) :
  (forall k', (0 <= k' < k)%Z ->
     bin_closed a redz_age P (step_edges_of a ii jj (walk_after a redz_age ii jj out k'))) ->
  P out -> cursor_ok P (w_cursor (walk_after a redz_age ii jj out k)).
Proof.
  intros Hclosed HP.
  destruct (Z.le_gt_cases 0 k) as [Hk|Hk].
  - revert Hclosed. pattern k. apply natlike_ind; [| | exact Hk].
    + intros _. rewrite walk_after_0. split; simpl; [assumption | lia].
    + intros x Hx IH Hclosed. unfold Z.succ. rewrite walk_after_succ by assumption.
      simpl. apply kk_loop_preserves.
      * apply Hclosed. lia.
      * intros kk Hkk. apply in_range_rev. assumption.
      * apply IH. intros k' Hk'. apply Hclosed. lia.
  - unfold walk_after. rewrite range_nonpos by lia. split; simpl; [assumption | lia].
Qed.

Lemma fold_left_preserves {A : Type} (f : A -> Z -> A) (P : A -> Prop) (l : list Z) (x : A) :
  (forall y i, In i l -> P y -> P (f y i)) -> P x -> P (fold_left f l x).
Proof.
  revert x. induction l as [|i l IH]; intros x Hf Hx; simpl.
  - assumption.
  - apply IH.
    + intros y j Hj. apply Hf. right. assumption.
    + apply Hf; [left; reflexivity | assumption].
Qed.

(** The whole pass. *)

Lemma mapper_preserves (a : mapper_args) (P : fields -> Prop) (out : fields) :
  (forall ii jj out' k',
     (0 <= ii < nm a)%Z -> (0 <= jj < nq a)%Z -> (0 <= k' < num_steps a)%Z ->
     bin_closed a (redz_ages a) P
       (step_edges_of a ii jj (walk_after a (redz_ages a) ii jj out' k'))) ->
  P out -> P (_dynamic_binary_number_at_fobs a out).
Proof.
  intros Hclosed HP. unfold _dynamic_binary_number_at_fobs.
  apply fold_left_preserves; [| assumption].
  intros out1 ii Hii HP1. unfold ii_body.
  apply fold_left_preserves; [| assumption].
  intros out2 jj Hjj HP2. unfold jj_body.
  apply in_range in Hii. apply in_range in Hjj.
  apply (walk_after_preserves a (redz_ages a) P ii jj out2 (num_steps a)); [| assumption].
  intros k' Hk'. apply Hclosed; assumption.
Qed.
(** ** What the loop over the target frequencies passes to a crossing

    A property of the fields that is kept by every crossing of a target
    frequency, strictly between the observed frequencies of the two step
    edges, is kept by the whole pass. *)

Lemma ff_loop_crossings (a : mapper_args) (lc : locals) (P : fields -> Prop) :
  (forall ff out,
     (0 <= ff < nf a)%Z ->
     fobs_orb_left lc < (target_fobs_orb a).[ff] < fobs_orb_right lc ->
     P out -> P (target_found a lc ff (target_fobs_orb a).[ff] out)) ->
  forall (fuel : nat) (ff : Z) (out : fields),
    (0 <= ff)%Z -> P out -> P (ff_loop fuel a lc ff (target_fobs_orb a).[ff] out).
Proof.
  intros Hstep. induction fuel as [|fuel IH]; intros ff out Hff HP; simpl.
  - assumption.
  - destruct (Z.ltb_spec ff (nf a)) as [Hlt|Hge].
    + destruct (Rltb_spec (fobs_orb_left lc) (target_fobs_orb a).[ff]) as [Hl|Hl];
        simpl; [| assumption].
      destruct (Rltb_spec (target_fobs_orb a).[ff] (fobs_orb_right lc)) as [Hr|Hr];
        simpl; [| assumption].
      assert (HP' : P (target_found a lc ff (target_fobs_orb a).[ff] out)).
      { apply Hstep; [lia | lra | assumption]. }
      destruct (Z.ltb_spec (ff + 1) (nf a)) as [Hlt'|Hge'].
      * apply IH; [lia | assumption].
      * destruct fuel as [|fuel']; simpl; [assumption |].
        destruct (Z.ltb_spec (ff + 1) (nf a)); [lia |].
        rewrite andb_false_r. assumption.
    + rewrite andb_false_r. assumption.
Qed.

Lemma kk_body_crossings (a : mapper_args) (redz_age : Z -> R) (P : fields -> Prop)
  (e : step_edges) (kk : Z) (c : cursor) :
  crossing_closed a redz_age P e -> (0 <= kk < nz a)%Z ->
  cursor_ok P c -> cursor_ok P (fst (kk_body a redz_age e kk c)).
Proof.
  intros Hclosed Hkk [HP Hfidx]. unfold kk_body.
  destruct (time_left (kk_locals a redz_age e kk c) >? age_universe a).
  - split; assumption.
  - destruct (fobs_orb_left (kk_locals a redz_age e kk c) >? (target_fobs_orb a).[nf a - 1]).
    + split; assumption.
    + simpl.
      pose proof (while_while_nonneg (c_fidx c) (nf a)
                    (fobs_orb_left (kk_locals a redz_age e kk c)) (target_fobs_orb a) Hfidx)
        as Hnn.
      split; [| exact Hnn].
      apply ff_loop_crossings; [| exact Hnn | exact HP].
      intros ff out Hff Hbetween HPo. apply Hclosed; assumption.
Qed.

Lemma kk_loop_crossings (a : mapper_args) (redz_age : Z -> R) (P : fields -> Prop)
  (e : step_edges) (kks : list Z) (c : cursor) :
  crossing_closed a redz_age P e -> (forall kk, In kk kks -> (0 <= kk < nz a)%Z) ->
  cursor_ok P c -> cursor_ok P (kk_loop a redz_age e kks c).
Proof.
  intros Hclosed. revert c. induction kks as [|kk kks IH]; intros c Hin Hc; simpl.
  - assumption.
  - pose proof (kk_body_crossings a redz_age P e kk c Hclosed (Hin kk (or_introl eq_refl)) Hc)
      as Hb.
    destruct (kk_body a redz_age e kk c) as [c' [|]]; simpl in Hb.
    + apply IH; [intros k Hk; apply Hin; right; assumption | assumption].
    + assumption.
Qed.

Lemma walk_after_crossings (a : mapper_args) (redz_age : Z -> R) (P : fields -> Prop)
  (ii jj : Z) (out : fields) (k : Z) :
  (forall k', (0 <= k' < k)%Z ->
     crossing_closed a redz_age P
       (step_edges_of a ii jj (walk_after a redz_age ii jj out k'))) ->
  P out -> cursor_ok P (w_cursor (walk_after a redz_age ii jj out k)).
Proof.
  intros Hclosed HP.
  destruct (Z.le_gt_cases 0 k) as [Hk|Hk].
  - revert Hclosed. pattern k. apply natlike_ind; [| | exact Hk].
    + intros _. rewrite walk_after_0. split; simpl; [assumption | lia].
    + intros x Hx IH Hclosed. unfold Z.succ. rewrite walk_after_succ by assumption.
      simpl. apply kk_loop_crossings.
      * apply Hclosed. lia.
      * intros kk Hkk. apply in_range_rev. assumption.
      * apply IH. intros k' Hk'. apply Hclosed. lia.
  - unfold walk_after. rewrite range_nonpos by lia. split; simpl; [assumption | lia].
Qed.

Lemma mapper_crossings (a : mapper_args) (P : fields -> Prop) (out : fields) :
  (forall ii jj out' k',
     (0 <= ii < nm a)%Z -> (0 <= jj < nq a)%Z -> (0 <= k' < num_steps a)%Z ->
     crossing_closed a (redz_ages a) P
       (step_edges_of a ii jj (walk_after a (redz_ages a) ii jj out' k'))) ->
  P out -> P (_dynamic_binary_number_at_fobs a out).
Proof.
  intros Hclosed HP. unfold _dynamic_binary_number_at_fobs.
  apply fold_left_preserves; [| assumption].
  intros out1 ii Hii HP1. unfold ii_body.
  apply fold_left_preserves; [| assumption].
  intros out2 jj Hjj HP2. unfold jj_body.
  apply in_range in Hii. apply in_range in Hjj.
  apply (walk_after_crossings a (redz_ages a) P ii jj out2 (num_steps a)); [| assumption].
  intros k' Hk'. apply Hclosed; assumption.
Qed.

(** ** The elapsed time along a trajectory *)

Lemma dt_pos (sepa_left sepa_right dadt_left dadt_right : R) :
  sepa_right < sepa_left -> dadt_left < 0 -> dadt_right < 0 ->
  0 < 2.0 * (sepa_right - sepa_left) / (dadt_left + dadt_right).
Proof.
  intros Hs Hl Hr.
  replace (2.0 * (sepa_right - sepa_left) / (dadt_left + dadt_right))
    with (2 * (sepa_left - sepa_right) / - (dadt_left + dadt_right)).
  - apply Rdiv_lt_0_compat; lra.
  - replace 2.0 with 2 by lra. field. lra.
Qed.

(** Along the walk of a valid binary the left edge is a positive
    separation, the left rate is the hardening rate there, and the elapsed
    time is not negative. *)

Lemma walk_after_time (a : mapper_args) (redz_age : Z -> R) (ii jj : Z) (out : fields) (k : Z) :
  valid_binary a ii jj -> (1 <= num_steps a)%Z -> (0 <= k)%Z ->
  let w := walk_after a redz_age ii jj out k in
  0 < w_sepa_left w
  /\ w_dadt_left w = hard_func_2pwl_gw (mtot a).[ii] (mrat a).[jj] (w_sepa_left w)
                       (hard_norm a ii jj) (hard_rchar a)
                       (hard_gamma_inner a) (hard_gamma_outer a)
  /\ 0 <= w_time_evo w.
Proof.
  intros [Hm [Hs [Hq [Hn Hr]]]] Hsteps Hk.
  pose proof (mapper_dx_pos a _ Hm Hs Hsteps) as Hdx.
  pattern k. apply natlike_ind; [| | exact Hk].
  - rewrite walk_after_0. simpl. repeat split; [apply pow_gt_0 | ]; lra.
  - intros x Hx [IH1 [IH2 IH3]]. unfold Z.succ. rewrite walk_after_succ by assumption.
    destruct (walk_after_sepa a redz_age ii jj out x Hx) as [_ [Hleft _]].
    set (w := walk_after a redz_age ii jj out x) in *.
    simpl.
    assert (Hright : 0 < pow 10.0 (w_sepa_log10 w - mapper_dx a (mtot a).[ii]))
      by (apply pow_gt_0; lra).
    repeat split; [exact Hright |].
    assert (Hlt : pow 10.0 (w_sepa_log10 w - mapper_dx a (mtot a).[ii]) < w_sepa_left w).
    { rewrite Hleft. apply pow_10_increasing. lra. }
    pose proof (hard_func_2pwl_gw_neg _ _ _ _ _ (hard_gamma_inner a) (hard_gamma_outer a)
                  Hm Hq IH1 Hn Hr) as Hl.
    pose proof (hard_func_2pwl_gw_neg _ _ _ _ _ (hard_gamma_inner a) (hard_gamma_outer a)
                  Hm Hq Hright Hn Hr) as Hrt.
    rewrite <- IH2 in Hl.
    pose proof (dt_pos _ _ _ _ Hlt Hl Hrt). lra.
Qed.

(** The left-edge time of a bin is the time elapsed before the step, plus
    the galaxy-merger time and the age at the starting redshift. *)

Lemma kk_locals_time_left (a : mapper_args) (redz_age : Z -> R) (ii jj : Z) (w : walk)
  (kk : Z) (c : cursor) :
  time_left (kk_locals a redz_age (step_edges_of a ii jj w) kk c)
  = w_time_evo w + gmt_time a ii jj kk + redz_age kk.
Proof. simpl. ring. Qed.

Lemma kk_locals_indices (a : mapper_args) (redz_age : Z -> R) (e : step_edges)
  (kk0 : Z) (c : cursor) :
  let lc := kk_locals a redz_age e kk0 c in
  ii lc = e_ii e /\ jj lc = e_jj e /\ kk lc = kk0.
Proof. simpl. repeat split. Qed.

(** A stalled bin leaves the cursor alone and lets the loop go on. *)

Lemma kk_body_stalled (a : mapper_args) (redz_age : Z -> R) (e : step_edges) (kk : Z)
  (c : cursor) :
  age_universe a < time_left (kk_locals a redz_age e kk c) ->
  kk_body a redz_age e kk c = (c, Next).
Proof. intros H. unfold kk_body, Rgtb. rewrite Rltb_true by assumption. reflexivity. Qed.

(** ** Cells of the output fields *)

Lemma set4_same (f : field4) (i j k l : Z) (v : cell) : set4 f i j k l v i j k l = v.
Proof. unfold set4. rewrite !Z.eqb_refl. reflexivity. Qed.

Lemma set4_other (f : field4) (i j k l : Z) (v : cell) (i' j' k' l' : Z) :
  (i', j', k', l') <> (i, j, k, l) -> set4 f i j k l v i' j' k' l' = f i' j' k' l'.
Proof.
  intros H. unfold set4.
  destruct (Z.eqb_spec i' i); [| reflexivity].
  destruct (Z.eqb_spec j' j); [| reflexivity].
  destruct (Z.eqb_spec k' k); [| reflexivity].
  destruct (Z.eqb_spec l' l); [| reflexivity].
  subst. contradiction H. reflexivity.
Qed.

Lemma set4_cases (f : field4) (i j k l : Z) (v : cell) (i' j' k' l' : Z) :
  ((i', j', k', l') = (i, j, k, l) /\ set4 f i j k l v i' j' k' l' = v)
  \/ ((i', j', k', l') <> (i, j, k, l) /\ set4 f i j k l v i' j' k' l' = f i' j' k' l').
Proof.
  assert (Hother : (i', j', k', l') <> (i, j, k, l) ->
                   (i', j', k', l') <> (i, j, k, l)
                   /\ set4 f i j k l v i' j' k' l' = f i' j' k' l').
  { intros H. split; [exact H | apply set4_other; exact H]. }
  destruct (Z.eq_dec i' i) as [->|Hi]; [| right; apply Hother; congruence].
  destruct (Z.eq_dec j' j) as [->|Hj]; [| right; apply Hother; congruence].
  destruct (Z.eq_dec k' k) as [->|Hk]; [| right; apply Hother; congruence].
  destruct (Z.eq_dec l' l) as [->|Hl]; [| right; apply Hother; congruence].
  left. split; [reflexivity | apply set4_same].
Qed.
(** ** The sentinel of the output fields *)

Lemma target_found_paired (a : mapper_args) (lc : locals) (ff : Z) (ftemp : R) (out : fields) :
  paired out -> paired (target_found a lc ff ftemp out).
Proof.
  intros HP.
  destruct (target_found_cases a lc ff ftemp out) as [[_ ->] | [Hz [v ->]]]; [assumption |].
  intros i j k l. simpl.
  destruct (set4_cases (redz_final out) (ii lc) (jj lc) (kk lc) ff
              (Val (_interp_between_vals ftemp (fobs_orb_left lc) (fobs_orb_right lc)
                      (redz_left lc) (redz_right lc))) i j k l) as [[He ->] | [Hne ->]].
  - split; [discriminate |]. intros z Hzv. injection Hzv as <-. assumption.
  - rewrite set4_other by assumption. apply HP.
Qed.

Lemma mapper_paired (a : mapper_args) (out : fields) :
  paired out -> paired (_dynamic_binary_number_at_fobs a out).
Proof.
  apply mapper_preserves. intros ii0 jj0 out' k' _ _ _ kk0 c ff ftemp out0 _ lc _ _ _.
  apply target_found_paired.
Qed.

Lemma alloc_fields_paired : paired alloc_fields.
Proof. intros i j k l. simpl. split; [reflexivity | discriminate]. Qed.

(** ** No target frequency *)

Lemma mapper_no_target (a : mapper_args) (out : fields) :
  nf a = 0%Z -> _dynamic_binary_number_at_fobs a out = out.
Proof.
  intros Hnf. apply (mapper_preserves a (fun o => o = out)); [| reflexivity].
  intros ii0 jj0 out' k' _ _ _ kk0 c ff ftemp out0 _ lc _ _ Hff. lia.
Qed.

(** C5 (amended). When the array of target frequencies is empty no
    crossing is recorded: the pass returns the two fields as they were
    allocated, [redz_final] not-a-number and [diff_num] zero in every cell. *)

Theorem empty_targets_record_nothing (a : mapper_args) :
  size (target_fobs_orb a) = 0%Z ->
  dynamic_binary_number_at_fobs a = alloc_fields
  /\ forall i j k l : Z,
       redz_final (dynamic_binary_number_at_fobs a) i j k l = NaN
       /\ diff_num (dynamic_binary_number_at_fobs a) i j k l = Val 0.
Proof.
  intros Hnf.
  assert (H : dynamic_binary_number_at_fobs a = alloc_fields)
    by (apply mapper_no_target; exact Hnf).
  split; [exact H |]. intros i j k l. rewrite H. split; reflexivity.
Qed.

(** ** Stalled binaries *)

(** The time that a valid binary has spent hardening is not negative. *)

Lemma valid_binary_elapsed (a : mapper_args) (i j : Z) :
  valid_binary a i j -> elapsed_nonneg a i j.
Proof.
  intros Hvalid ss out Hss.
  destruct (walk_after_time a (redz_ages a) i j out ss Hvalid ltac:(lia) ltac:(lia))
    as [_ [_ Ht]].
  exact Ht.
Qed.

(** The cells of a starting redshift at which such a binary is stalled
    from the outset are not written by the pass. *)

Lemma stalled_cell_untouched (a : mapper_args) (out : fields) (i j k l : Z) :
  elapsed_nonneg a i j ->
  age_universe a < gmt_time a i j k + redz_ages a k ->
  redz_final (_dynamic_binary_number_at_fobs a out) i j k l = redz_final out i j k l
  /\ diff_num (_dynamic_binary_number_at_fobs a out) i j k l = diff_num out i j k l.
Proof.
  intros Helapsed Hstall.
  apply (mapper_preserves a
           (fun o => redz_final o i j k l = redz_final out i j k l
                     /\ diff_num o i j k l = diff_num out i j k l));
    [| split; reflexivity].
  intros ii0 jj0 out' k' _ _ Hk' kk0 c ff ftemp out0 _ lc Htime _ _ [H1 H2].
  assert (Hne : (i, j, k, l) <> (ii lc, jj lc, kk lc, ff)).
  { unfold lc. simpl. intros Heq. injection Heq as -> -> -> ->.
    unfold lc in Htime. rewrite kk_locals_time_left in Htime.
    pose proof (Helapsed k' out' Hk'). lra. }
  destruct (target_found_cases a lc ff ftemp out0) as [[_ ->] | [_ [v ->]]].
  - split; assumption.
  - simpl. rewrite !set4_other by assumption. split; assumption.
Qed.

Lemma stalled_cell_kept (a : mapper_args) (out : fields) (i j k l : Z) :
  valid_binary a i j ->
  age_universe a < gmt_time a i j k + redz_ages a k ->
  redz_final (_dynamic_binary_number_at_fobs a out) i j k l = redz_final out i j k l
  /\ diff_num (_dynamic_binary_number_at_fobs a out) i j k l = diff_num out i j k l.
Proof.
  intros Hvalid. apply stalled_cell_untouched. apply valid_binary_elapsed. exact Hvalid.
Qed.

(** A loop over the starting redshifts in which the bin [k] is stalled
    does to the cursor what the loop over the other bins does. *)

Lemma kk_loop_without (a : mapper_args) (redz_age : Z -> R) (e : step_edges) (k : Z)
  (kks : list Z) (c : cursor) :
  (forall c', kk_body a redz_age e k c' = (c', Next)) ->
  kk_loop a redz_age e kks c = kk_loop a redz_age e (remove Z.eq_dec k kks) c.
Proof.
  intros Hk. revert c. induction kks as [|k' kks IH]; intros c; [reflexivity |].
  cbn [remove]. destruct (Z.eq_dec k k') as [<-|Hne].
  - cbn [kk_loop]. rewrite Hk. apply IH.
  - cbn [kk_loop]. destruct (kk_body a redz_age e k' c) as [c' [|]]; [apply IH | reflexivity].
Qed.

(** C6 (amended). For a binary whose time spent hardening before each
    step is not negative, and a starting redshift whose galaxy-merger time
    plus age of the universe exceeds the present age: the pass leaves every
    frequency bin of that cell as it was allocated.  At every step the test
    for a stalled bin holds; the body of the loop over the starting
    redshifts then leaves the cursor as it is and lets the loop go on (it
    does not leave the loop); the loop goes on with the body of the next
    bin, from the same cursor; and the whole loop of the step does what the
    loop over the other bins does. *)

Theorem stalled_bin_is_skipped (a : mapper_args) (i j k : Z) :
  elapsed_nonneg a i j ->
  (0 <= i < nm a)%Z -> (0 <= j < nq a)%Z -> (0 <= k < nz a)%Z ->
  gmt_time a i j k + redz_ages a k > age_universe a ->
  (forall l : Z,
     redz_final (dynamic_binary_number_at_fobs a) i j k l = NaN
     /\ diff_num (dynamic_binary_number_at_fobs a) i j k l = Val 0)
  /\ (forall (ss : Z) (out : fields) (c : cursor),
        (0 <= ss < num_steps a)%Z ->
        let e := step_edges_of a i j (walk_after a (redz_ages a) i j out ss) in
        time_left (kk_locals a (redz_ages a) e k c) > age_universe a
        /\ kk_body a (redz_ages a) e k c = (c, Next)
        /\ (forall kks : list Z,
              kk_loop a (redz_ages a) e (k :: kks) c = kk_loop a (redz_ages a) e kks c)
        /\ (forall (k' : Z) (kks : list Z),
              kk_loop a (redz_ages a) e (k :: k' :: kks) c
              = match kk_body a (redz_ages a) e k' c with
                | (c', Break) => c'
                | (c', Next) => kk_loop a (redz_ages a) e kks c'
                end)
        /\ kk_loop a (redz_ages a) e (range_rev (nz a)) c
           = kk_loop a (redz_ages a) e (remove Z.eq_dec k (range_rev (nz a))) c).
Proof.
  intros Helapsed _ _ _ Hstall. split.
  - intros l. apply (stalled_cell_untouched a alloc_fields i j k l Helapsed). lra.
  - intros ss out c Hss e.
    assert (Ht : forall c', time_left (kk_locals a (redz_ages a) e k c') > age_universe a).
    { intros c'. unfold e. rewrite kk_locals_time_left.
      pose proof (Helapsed ss out Hss). lra. }
    assert (Hb : forall c', kk_body a (redz_ages a) e k c' = (c', Next)).
    { intros c'. apply kk_body_stalled. apply Ht. }
    split; [apply Ht |]. split; [apply Hb |]. split; [| split].
    + intros kks. cbn [kk_loop]. rewrite Hb. reflexivity.
    + intros k' kks. cbn [kk_loop]. rewrite Hb. reflexivity.
    + apply kk_loop_without. exact Hb.
Qed.
(** ** The small runs, step by step *)

Lemma example_risco : 0 < risco 1 < 1e-27.
Proof. unfold risco, MY_SCHW. lra. Qed.

Lemma example_with_valid (targets redzs grid : list R) (gmt : Z -> R) :
  valid_binary (example_with targets redzs grid gmt) 0 0.
Proof.
  unfold valid_binary. simpl. pose proof example_risco. repeat split; lra.
Qed.

(** With both slopes equal to one the double power law is the constant
    [- norm]. *)

Lemma hard_func_unit_slopes (mtot mrat sepa norm rchar : R) :
  0 < sepa -> 0 < rchar ->
  hard_func_2pwl_gw mtot mrat sepa norm rchar 1 1 = - norm + hard_gw mtot mrat sepa.
Proof.
  intros Hs Hr. unfold hard_func_2pwl_gw, _hard_func_2pwl.
  assert (Hx : 0 < sepa / rchar) by (apply Rdiv_lt_0_compat; assumption).
  rewrite !pow_pos_base by lra.
  replace (- (1) + 1) with 0 by lra. replace (1 - 1) with 0 by lra.
  rewrite !Rpower_O by lra. lra.
Qed.

(** Bounds on Kepler's constant and on the two rest-frame frequencies. *)

Lemma KEPLER_CONST_FREQ_bounds : 1e-5 < KEPLER_CONST_FREQ < 1.
Proof.
  unfold KEPLER_CONST_FREQ, M_PI.
  pose proof PI2_3_2 as Hlo. pose proof PI_4 as Hhi.
  assert (Hs1 : 1e-4 < sqrt MY_NWTG).
  { replace 1e-4 with (sqrt (1e-4 * 1e-4)) by (apply sqrt_square; lra).
    apply sqrt_lt_1_alt. unfold MY_NWTG. lra. }
  assert (Hs2 : sqrt MY_NWTG < 1).
  { rewrite <- sqrt_1. apply sqrt_lt_1_alt. unfold MY_NWTG. lra. }
  assert (Hi : / 8 <= 1.0 / (2.0 * PI) < / 6).
  { replace (1.0 / (2.0 * PI)) with (/ (2 * PI)) by (undecimal; field; lra). split.
    - apply Rinv_le_contravar; lra.
    - apply Rinv_lt_contravar; lra. }
  nra.
Qed.

Lemma pow_below_one (x y : R) : 0 < x < 1 -> 1 < y -> pow x y < x.
Proof.
  intros [H0 H1] Hy. rewrite pow_pos_base by assumption. unfold Rpower.
  rewrite <- (exp_ln x) at 2 by assumption. apply exp_increasing.
  assert (ln x < 0) by (rewrite <- ln_1; apply ln_increasing; assumption).
  nra.
Qed.

Lemma pow_one (y : R) : pow 1 y = 1.
Proof. rewrite pow_pos_base by lra. unfold Rpower. rewrite ln_1, Rmult_0_r. apply exp_0. Qed.

(** The step is the same whatever is left open: it runs from separation 1
    down to the ISCO. *)

Lemma example_pow_left (targets redzs grid : list R) (gmt : Z -> R) :
  pow 10.0 (sepa_init_log10 (example_with targets redzs grid gmt)) = 1.
Proof. unfold sepa_init_log10. simpl. apply pow_10_log10. lra. Qed.

Lemma example_pow_right (targets redzs grid : list R) (gmt : Z -> R) :
  pow 10.0 (sepa_init_log10 (example_with targets redzs grid gmt)
            - mapper_dx (example_with targets redzs grid gmt) 1)
  = risco 1.
Proof.
  unfold mapper_dx, sepa_init_log10. simpl.
  replace (log10 1 - (log10 1 - log10 (risco 1)) / 1) with (log10 (risco 1)) by field.
  apply pow_10_log10. apply example_risco.
Qed.

Lemma example_with_dt (targets redzs grid : list R) (gmt : Z -> R) :
  0 < e_dt (edges_of (example_with targets redzs grid gmt)) < 2.
Proof.
  unfold edges_of. simpl. rewrite example_pow_left, example_pow_right.
  pose proof example_risco as [Hr0 Hr1].
  rewrite !hard_func_unit_slopes by lra.
  pose proof (hard_gw_neg 1 1 1 ltac:(lra) ltac:(lra) ltac:(lra)) as H1.
  pose proof (hard_gw_neg 1 1 (risco 1) ltac:(lra) ltac:(lra) Hr0) as H2.
  set (g1 := hard_gw 1 1 1) in *. set (g2 := hard_gw 1 1 (risco 1)) in *.
  set (r := risco 1) in *.
  replace (2.0 * (r - 1) / (- (1) + g1 + (- (1) + g2)))
    with (2 * (1 - r) / (2 - g1 - g2)) by (replace 2.0 with 2 by lra; field; lra).
  split.
  - apply Rdiv_lt_0_compat; lra.
  - apply Rmult_lt_reg_r with (2 - g1 - g2); [lra |].
    unfold Rdiv. rewrite Rmult_assoc, Rinv_l by lra. lra.
Qed.

Lemma example_with_time_evo (targets redzs grid : list R) (gmt : Z -> R) :
  e_time_evo (edges_of (example_with targets redzs grid gmt))
  = e_dt (edges_of (example_with targets redzs grid gmt)).
Proof. unfold edges_of. simpl. lra. Qed.

Lemma example_with_frst_left (targets redzs grid : list R) (gmt : Z -> R) :
  e_frst_orb_left (edges_of (example_with targets redzs grid gmt)) = KEPLER_CONST_FREQ.
Proof.
  unfold edges_of. simpl. rewrite example_pow_left.
  unfold kepler_freq_from_sepa. rewrite sqrt_1, pow_one. field.
Qed.

Lemma example_with_frst_right (targets redzs grid : list R) (gmt : Z -> R) :
  1e22 < e_frst_orb_right (edges_of (example_with targets redzs grid gmt)).
Proof.
  unfold edges_of. simpl. rewrite example_pow_right.
  unfold kepler_freq_from_sepa. rewrite sqrt_1.
  pose proof example_risco as [Hr0 Hr1].
  pose proof (pow_below_one (risco 1) 1.5 ltac:(lra) ltac:(lra)) as Hp.
  pose proof (pow_gt_0 (risco 1) 1.5 Hr0) as Hp0.
  pose proof KEPLER_CONST_FREQ_bounds as [HK _].
  apply Rmult_lt_reg_r with (pow (risco 1) 1.5); [assumption |].
  replace (KEPLER_CONST_FREQ * 1 / pow (risco 1) 1.5 * pow (risco 1) 1.5)
    with KEPLER_CONST_FREQ by (field; lra).
  nra.
Qed.


(** *** The run with one target frequency *)

Lemma example_redz_age : redz_ages example_args 0%Z = 4.
Proof.
  unfold redz_ages. simpl. rewrite (Rgtb_false 1 1) by lra. simpl.
  unfold update, interp_at_index. simpl. lra.
Qed.

Lemma example_age_universe : age_universe example_args = 8.
Proof. reflexivity. Qed.

Lemma example_dt : 0 < e_dt example_edges < 2.
Proof. apply example_with_dt. Qed.

Lemma example_time_evo : e_time_evo example_edges = e_dt example_edges.
Proof. apply example_with_time_evo. Qed.

Lemma example_frst_left : e_frst_orb_left example_edges = KEPLER_CONST_FREQ.
Proof. apply example_with_frst_left. Qed.

Lemma example_frst_right : 1e22 < e_frst_orb_right example_edges.
Proof. apply example_with_frst_right. Qed.

(** The only bin of the step: its times, search positions and redshifts. *)

Lemma example_time_left : time_left example_locals = 4.
Proof.
  unfold example_locals, kk_locals. cbn [time_left].
  rewrite example_time_evo, example_redz_age. simpl. lra.
Qed.

Lemma example_time_right : time_right example_locals = 4 + e_dt example_edges.
Proof.
  unfold example_locals, kk_locals. cbn [time_right].
  rewrite example_time_evo, example_redz_age. simpl. lra.
Qed.

Lemma example_search : while_while 0 3 4 (of_list [0; 4; 8]) = 0%Z.
Proof.
  unfold while_while. simpl. rewrite (Rltb_false 4 4) by lra. reflexivity.
Qed.

Lemma example_interp_left : interp_left example_locals = 0%Z.
Proof.
  change (while_while 0 3 (time_left example_locals) (of_list [0; 4; 8]) = 0%Z).
  rewrite example_time_left. apply example_search.
Qed.

Lemma example_interp_right : interp_right example_locals = 0%Z.
Proof.
  change (while_while (interp_left example_locals) 3 (time_left example_locals)
            (of_list [0; 4; 8]) = 0%Z).
  rewrite example_interp_left, example_time_left. apply example_search.
Qed.

Lemma example_redz_left : redz_left example_locals = 1.
Proof.
  change (interp_at_index (interp_left example_locals) (time_left example_locals)
            (of_list [0; 4; 8]) (of_list [2; 1; 0.5]) = 1).
  rewrite example_interp_left, example_time_left. unfold interp_at_index. simpl. lra.
Qed.

Lemma example_redz_right : redz_right example_locals = 1 - e_dt example_edges / 4.
Proof.
  change (interp_at_index (interp_right example_locals) (time_right example_locals)
            (of_list [0; 4; 8]) (of_list [2; 1; 0.5]) = 1 - e_dt example_edges / 4).
  rewrite example_interp_right, example_time_right. unfold interp_at_index. simpl. lra.
Qed.

Lemma example_fobs_left : fobs_orb_left example_locals = KEPLER_CONST_FREQ / 2.
Proof.
  change (e_frst_orb_left example_edges / (1.0 + redz_left example_locals)
          = KEPLER_CONST_FREQ / 2).
  rewrite example_frst_left, example_redz_left. f_equal. lra.
Qed.

Lemma example_fobs_right :
  fobs_orb_right example_locals
  = e_frst_orb_right example_edges / (2 - e_dt example_edges / 4).
Proof.
  change (e_frst_orb_right example_edges / (1.0 + redz_right example_locals)
          = e_frst_orb_right example_edges / (2 - e_dt example_edges / 4)).
  rewrite example_redz_right. f_equal. lra.
Qed.

(** The target frequency 1 lies strictly between the observed frequencies
    of the two edges. *)

Lemma example_straddle :
  0 < fobs_orb_left example_locals /\ fobs_orb_left example_locals < 1
  /\ 1 < fobs_orb_right example_locals.
Proof.
  rewrite example_fobs_left, example_fobs_right.
  pose proof KEPLER_CONST_FREQ_bounds as [HK0 HK1].
  pose proof example_dt as [Hd0 Hd1]. pose proof example_frst_right as Hf.
  repeat split; try lra.
  apply Rmult_lt_reg_r with (2 - e_dt example_edges / 4); [lra |].
  replace (e_frst_orb_right example_edges / (2 - e_dt example_edges / 4)
           * (2 - e_dt example_edges / 4))
    with (e_frst_orb_right example_edges) by (field; lra).
  lra.
Qed.

(** The crossing redshift is positive. *)

Lemma example_newz_bounds : / 2 < example_newz <= 1.
Proof.
  unfold example_newz, _interp_between_vals.
  rewrite example_redz_left, example_redz_right.
  pose proof example_straddle as [Hl0 [Hl1 Hr1]].
  pose proof example_dt as [Hd0 Hd1].
  set (fl := fobs_orb_left example_locals) in *.
  set (fr := fobs_orb_right example_locals) in *.
  set (dt := e_dt example_edges) in *.
  assert (Hq : 0 < (1 - fl) / (fr - fl) < 1).
  { split.
    - apply Rdiv_lt_0_compat; lra.
    - apply Rmult_lt_reg_r with (fr - fl); [lra |].
      replace ((1 - fl) / (fr - fl) * (fr - fl)) with (1 - fl) by (field; lra). lra. }
  replace (1 + (1 - dt / 4 - 1) * (1 - fl) / (fr - fl))
    with (1 - dt / 4 * ((1 - fl) / (fr - fl))) by (field; lra).
  nra.
Qed.

(** The body of the redshift loop records the crossing and goes on. *)

Lemma example_kk_body :
  kk_body example_args (redz_ages example_args) example_edges 0 example_cursor
  = ({| c_interp_left := 0; c_fidx := 0;
        c_out := target_found example_args example_locals 0 1 alloc_fields |}, Next).
Proof.
  unfold kk_body. fold example_locals.
  pose proof example_straddle as [Hl0 [Hl1 Hr1]].
  rewrite example_time_left, example_age_universe, (Rgtb_false 4 8) by lra.
  change ((target_fobs_orb example_args).[nf example_args - 1]) with 1.
  rewrite (Rgtb_false (fobs_orb_left example_locals) 1) by lra.
  rewrite example_interp_left.
  change (while_while (c_fidx example_cursor) (nf example_args)
            (fobs_orb_left example_locals) (target_fobs_orb example_args)) with 0%Z.
  change ((target_fobs_orb example_args).[0]) with 1.
  change (Z.to_nat (nf example_args - 0)) with 1%nat.
  cbn [ff_loop c_out example_cursor].
  rewrite (Rltb_true _ _ Hl1), (Rltb_true _ _ Hr1).
  reflexivity.
Qed.

(** The whole pass on the example is that single write. *)

Lemma example_run :
  dynamic_binary_number_at_fobs example_args
  = target_found example_args example_locals 0 1 alloc_fields.
Proof.
  change (dynamic_binary_number_at_fobs example_args)
    with (c_out (kk_loop example_args (redz_ages example_args) example_edges [0%Z]
                   example_cursor)).
  cbn [kk_loop]. rewrite example_kk_body. reflexivity.
Qed.

Lemma example_target_found :
  exists v : R,
    target_found example_args example_locals 0 1 alloc_fields
    = {| redz_final := set4 (redz_final alloc_fields) 0 0 0 0 (Val example_newz);
         diff_num := set4 (diff_num alloc_fields) 0 0 0 0 (Val v) |}.
Proof.
  destruct (target_found_cases example_args example_locals 0 1 alloc_fields)
    as [[Hz _] | [_ [v Hv]]].
  - pose proof example_newz_bounds. unfold example_newz in *. lra.
  - exists v. exact Hv.
Qed.
(** ** What a crossing writes *)

Lemma target_found_entry (a : mapper_args) (lc : locals) (ff : Z) (ftemp : R) (out : fields) :
  let newz := _interp_between_vals ftemp (fobs_orb_left lc) (fobs_orb_right lc)
                (redz_left lc) (redz_right lc) in
  0 < newz ->
  target_found a lc ff ftemp out
  = {| redz_final := set4 (redz_final out) (ii lc) (jj lc) (kk lc) ff (Val newz);
       diff_num := set4 (diff_num out) (ii lc) (jj lc) (kk lc) ff
                     (Val (dens a (ii lc) (jj lc) (kk lc)
                           * residence_time a lc ftemp newz
                           * weight_coded newz (crossing_dcom a lc ftemp))) |}.
Proof.
  intros newz Hz. unfold target_found. fold newz.
  unfold Rgtb. rewrite Rltb_true by lra.
  f_equal. f_equal. f_equal. unfold residence_time, weight_coded, crossing_dcom.
  rewrite pow_sqr. unfold FOUR_PI_SPLC_OVER_MPC, M_PI.
  replace (1.0 + newz) with (1 + newz) by lra.
  replace (2.0 / 3.0) with (2 / 3) by lra.
  simpl. ring.
Qed.

(** C2 (amended). When [target_found] records a crossing, that is when
    the interpolated redshift [newz] is positive, the cell (mass, ratio,
    starting redshift, frequency) of [redz_final] receives [newz] and that
    of [diff_num] receives the density of the cell times the residence time
    [- (2/3) sepa / (da/dt)] at the separation of the rest-frame frequency
    [ftemp (1 + newz)], times the weight [(4 pi c / Mpc) (1 + newz)
    (D / Mpc)^2], the comoving distance [D] being interpolated at the target
    frequency between those of the two step edges. *)

Theorem crossing_differential_number
  (a : mapper_args) (lc : locals) (ff : Z) (ftemp : R) (out : fields) :
  let newz := _interp_between_vals ftemp (fobs_orb_left lc) (fobs_orb_right lc)
                (redz_left lc) (redz_right lc) in
  newz > 0 ->
  redz_final (target_found a lc ff ftemp out) (ii lc) (jj lc) (kk lc) ff = Val newz
  /\ diff_num (target_found a lc ff ftemp out) (ii lc) (jj lc) (kk lc) ff
     = Val (dens a (ii lc) (jj lc) (kk lc)
            * (- (2 / 3) * kepler_sepa_from_freq (mt lc) (ftemp * (1 + newz))
               / hard_func_2pwl_gw (mt lc) (mr lc)
                   (kepler_sepa_from_freq (mt lc) (ftemp * (1 + newz))) (norm lc)
                   (hard_rchar a) (hard_gamma_inner a) (hard_gamma_outer a))
            * (4 * PI * MY_SPLC / MY_MPC * (1 + newz)
               * (crossing_dcom a lc ftemp / MY_MPC) ^ 2)).
Proof.
  intros newz Hz. rewrite (target_found_entry a lc ff ftemp out) by (fold newz; lra).
  fold newz. simpl. rewrite !set4_same. split; reflexivity.
Qed.

(** The theorem at the crossing of the small run. *)

Lemma crossing_differential_number_witness :
  redz_final (target_found example_args example_locals 0 1 alloc_fields) 0%Z 0%Z 0%Z 0%Z
  = Val example_newz
  /\ diff_num (target_found example_args example_locals 0 1 alloc_fields) 0%Z 0%Z 0%Z 0%Z
     = Val (1
            * (- (2 / 3) * kepler_sepa_from_freq 1 (1 * (1 + example_newz))
               / hard_func_2pwl_gw 1 1
                   (kepler_sepa_from_freq 1 (1 * (1 + example_newz))) 1 1 1 1)
            * (4 * PI * MY_SPLC / MY_MPC * (1 + example_newz)
               * (crossing_dcom example_args example_locals 1 / MY_MPC) ^ 2)).
Proof.
  apply (crossing_differential_number example_args example_locals 0 1 alloc_fields).
  pose proof example_newz_bounds. unfold example_newz in *. lra.
Defined.
(** ** The two fields are written together *)

Lemma target_found_recorded (a : mapper_args) (ii0 jj0 ss kk0 ff : Z) (out0 out : fields)
  (c : cursor) :
  (0 <= ii0 < nm a)%Z -> (0 <= jj0 < nq a)%Z -> (0 <= ss < num_steps a)%Z ->
  (0 <= kk0 < nz a)%Z -> (0 <= ff < nf a)%Z ->
  let lc := kk_locals a (redz_ages a)
              (step_edges_of a ii0 jj0 (walk_after a (redz_ages a) ii0 jj0 out0 ss)) kk0 c in
  fobs_orb_left lc < (target_fobs_orb a).[ff] < fobs_orb_right lc ->
  recorded_together a out ->
  recorded_together a (target_found a lc ff (target_fobs_orb a).[ff] out).
Proof.
  intros Hii Hjj Hss Hkk Hff lc Hbetween Hout.
  destruct (target_found_cases a lc ff (target_fobs_orb a).[ff] out) as [[_ ->] | [Hz _]];
    [assumption |].
  rewrite (target_found_entry a lc ff (target_fobs_orb a).[ff] out) by exact Hz.
  intros i j k l.
  destruct (set4_cases (redz_final out) (ii lc) (jj lc) (kk lc) ff
              (Val (_interp_between_vals (target_fobs_orb a).[ff] (fobs_orb_left lc)
                      (fobs_orb_right lc) (redz_left lc) (redz_right lc)))
              i j k l) as [[Heq Hset] | [Hne Hset]].
  - right. injection Heq as -> -> -> ->.
    change (ii lc) with ii0. change (jj lc) with jj0. change (kk lc) with kk0.
    split; [unfold in_shape; repeat split; lia |].
    exists ss, out0, c. split; [exact Hss |]. fold lc. cbv zeta.
    split; [exact Hbetween |]. split; [exact Hz |].
    cbn [redz_final diff_num].
    change (ii lc) with ii0. change (jj lc) with jj0. change (kk lc) with kk0.
    rewrite !set4_same. split; reflexivity.
  - assert (Hr : redz_final
                   {| redz_final := set4 (redz_final out) (ii lc) (jj lc) (kk lc) ff
                                      (Val (_interp_between_vals (target_fobs_orb a).[ff]
                                              (fobs_orb_left lc) (fobs_orb_right lc)
                                              (redz_left lc) (redz_right lc)));
                      diff_num := set4 (diff_num out) (ii lc) (jj lc) (kk lc) ff
                                    (Val (dens a (ii lc) (jj lc) (kk lc)
                                          * residence_time a lc (target_fobs_orb a).[ff]
                                              (_interp_between_vals (target_fobs_orb a).[ff]
                                                 (fobs_orb_left lc) (fobs_orb_right lc)
                                                 (redz_left lc) (redz_right lc))
                                          * weight_coded
                                              (_interp_between_vals (target_fobs_orb a).[ff]
                                                 (fobs_orb_left lc) (fobs_orb_right lc)
                                                 (redz_left lc) (redz_right lc))
                                              (crossing_dcom a lc (target_fobs_orb a).[ff]))) |}
                   i j k l = redz_final out i j k l) by exact Hset.
    destruct (Hout i j k l) as [[H1 H2] | [Hshape [ss' [out' [c' [Hss' Hrec]]]]]].
    + left. cbn [redz_final diff_num]. rewrite !set4_other by assumption.
      split; assumption.
    + right. split; [exact Hshape |]. exists ss', out', c'. split; [exact Hss' |].
      cbv zeta in Hrec |- *. cbn [redz_final diff_num].
      rewrite !set4_other by assumption. exact Hrec.
Qed.

Lemma mapper_recorded (a : mapper_args) (out : fields) :
  recorded_together a out -> recorded_together a (_dynamic_binary_number_at_fobs a out).
Proof.
  apply mapper_crossings.
  intros ii0 jj0 out' k' Hii Hjj Hk' kk0 c ff out0 Hkk lc ftemp Hff Hbetween Hout.
  apply target_found_recorded; assumption.
Qed.

(** C4 (amended). [redz_final] is allocated as not-a-number and [diff_num]
    as zero.  After the pass the two cells at an index are either both as
    they were allocated, or they hold the record of one crossing, written
    together: a cell whose [redz_final] is still not-a-number has a
    [diff_num] of zero; a cell whose [redz_final] is a number lies inside
    the shape of the fields, the number is the positive redshift of a
    crossing, and its [diff_num] is the differential number of that same
    crossing. *)

Theorem fields_allocated_and_paired (a : mapper_args) (i j k l : Z) :
  (redz_final alloc_fields i j k l = NaN /\ diff_num alloc_fields i j k l = Val 0)
  /\ (redz_final (dynamic_binary_number_at_fobs a) i j k l = NaN ->
      diff_num (dynamic_binary_number_at_fobs a) i j k l = Val 0)
  /\ (forall z : R, redz_final (dynamic_binary_number_at_fobs a) i j k l = Val z -> 0 < z)
  /\ (forall z : R,
        redz_final (dynamic_binary_number_at_fobs a) i j k l = Val z ->
        in_shape a i j k l
        /\ crossing_record a (dynamic_binary_number_at_fobs a) i j k l)
  /\ ((redz_final (dynamic_binary_number_at_fobs a) i j k l = NaN
       /\ diff_num (dynamic_binary_number_at_fobs a) i j k l = Val 0)
      \/ (in_shape a i j k l
          /\ crossing_record a (dynamic_binary_number_at_fobs a) i j k l)).
Proof.
  assert (Hrec : recorded_together a (dynamic_binary_number_at_fobs a)).
  { apply mapper_recorded. intros i' j' k' l'. left. split; reflexivity. }
  split; [split; reflexivity |].
  destruct (mapper_paired a alloc_fields alloc_fields_paired i j k l) as [Hnan Hpos].
  split; [exact Hnan |]. split; [exact Hpos |]. split; [| apply Hrec].
  intros z Hz. destruct (Hrec i j k l) as [[H1 _] | H]; [| exact H].
  unfold dynamic_binary_number_at_fobs in Hz, H1. congruence.
Qed.

(** ** The small run against the claims *)

Lemma example_with_in_shape (f z : R) (redzs grid : list R) (gmt : Z -> R) :
  in_shape (example_with [f] (z :: redzs) grid gmt) 0 0 0 0.
Proof.
  unfold in_shape, nm, nq, nz, nf. unfold example_with, size, of_list, mtot, mrat, redz,
    target_fobs_orb. cbn [length]. lia.
Qed.

Lemma example_final_cells :
  redz_final (dynamic_binary_number_at_fobs example_args) 0%Z 0%Z 0%Z 0%Z = Val example_newz
  /\ diff_num (dynamic_binary_number_at_fobs example_args) 0%Z 0%Z 0%Z 0%Z
     = Val (1 * residence_time example_args example_locals 1 example_newz
            * weight_coded example_newz (crossing_dcom example_args example_locals 1)).
Proof.
  rewrite example_run.
  rewrite (target_found_entry example_args example_locals 0 1 alloc_fields)
    by (pose proof example_newz_bounds; unfold example_newz in *; lra).
  simpl. rewrite !set4_same. split; reflexivity.
Qed.

(** C5, counterexample.  With a single target frequency the small run
    records a crossing: the cell (0, 0, 0, 0) of [redz_final], which is in
    the shape of the field, does not keep the not-a-number it was allocated
    with. *)

Lemma single_target_records_crossing :
  size (target_fobs_orb example_args) = 1%Z
  /\ in_shape example_args 0 0 0 0
  /\ redz_final alloc_fields 0%Z 0%Z 0%Z 0%Z = NaN
  /\ redz_final (dynamic_binary_number_at_fobs example_args) 0%Z 0%Z 0%Z 0%Z <> NaN.
Proof.
  split; [reflexivity |]. split; [apply example_with_in_shape |]. split; [reflexivity |].
  destruct example_final_cells as [-> _]. discriminate.
Qed.

(** The amended C5 on the small run without target frequencies. *)

Lemma empty_targets_record_nothing_witness :
  dynamic_binary_number_at_fobs example_empty = alloc_fields
  /\ forall i j k l : Z,
       redz_final (dynamic_binary_number_at_fobs example_empty) i j k l = NaN
       /\ diff_num (dynamic_binary_number_at_fobs example_empty) i j k l = Val 0.
Proof.
  apply (empty_targets_record_nothing example_empty). reflexivity.
Defined.

Lemma example_stalled_redz_age : redz_ages example_stalled 0%Z = 4.
Proof.
  unfold redz_ages. simpl. rewrite (Rgtb_false 1 1) by lra. simpl.
  unfold update, interp_at_index. simpl. lra.
Qed.

(** C4, counterexample.  [diff_num] is allocated with zeros, not with the
    not-a-number of [redz_final]; after the pass over the stalled binary the
    cell (0, 0, 0, 0) still holds the not-a-number in [redz_final] and the
    zero in [diff_num]. *)

Lemma diff_num_sentinel_is_not_nan :
  in_shape example_stalled 0 0 0 0
  /\ diff_num alloc_fields 0%Z 0%Z 0%Z 0%Z <> NaN
  /\ redz_final (dynamic_binary_number_at_fobs example_stalled) 0%Z 0%Z 0%Z 0%Z = NaN
  /\ diff_num (dynamic_binary_number_at_fobs example_stalled) 0%Z 0%Z 0%Z 0%Z <> NaN.
Proof.
  split; [apply example_with_in_shape |]. split; [discriminate |].
  assert (Hstall : age_universe example_stalled
                   < gmt_time example_stalled 0 0 0 + redz_ages example_stalled 0).
  { rewrite example_stalled_redz_age. unfold age_universe. simpl. lra. }
  destruct (stalled_cell_kept example_stalled alloc_fields 0 0 0 0
              (example_with_valid _ _ _ _) Hstall) as [H1 H2].
  unfold dynamic_binary_number_at_fobs. rewrite H1, H2. split; [reflexivity | discriminate].
Qed.

(** C4 on the run with one target frequency: the cell (0, 0, 0, 0) holds
    the record of the crossing. *)

Lemma fields_allocated_and_paired_witness :
  redz_final (dynamic_binary_number_at_fobs example_args) 0%Z 0%Z 0%Z 0%Z = Val example_newz
  /\ in_shape example_args 0 0 0 0
  /\ crossing_record example_args (dynamic_binary_number_at_fobs example_args) 0 0 0 0.
Proof.
  destruct example_final_cells as [Hz _].
  destruct (fields_allocated_and_paired example_args 0 0 0 0) as [_ [_ [_ [Hrec _]]]].
  split; [exact Hz | exact (Hrec example_newz Hz)].
Defined.

(** *** The run with a stalled bin above a bin that is not *)

Lemma skipped_redz_ages :
  redz_ages example_skipped 1%Z = 2 /\ redz_ages example_skipped 0%Z = 4.
Proof.
  unfold redz_ages. simpl. rewrite (Rgtb_false 1 1.5) by lra. simpl.
  rewrite (Rgtb_false 1 1) by lra. simpl.
  unfold update, interp_at_index. simpl. split; lra.
Qed.

(** Bin 0 of that run is the only bin of [example_args]: the same local
    variables, the same crossing. *)

Lemma skipped_locals_eq :
  kk_locals example_skipped (redz_ages example_skipped) (edges_of example_skipped) 0
    example_cursor
  = example_locals.
Proof.
  unfold example_locals, kk_locals.
  destruct skipped_redz_ages as [_ ->]. rewrite example_redz_age. reflexivity.
Qed.

Lemma skipped_kk_body :
  kk_body example_skipped (redz_ages example_skipped) (edges_of example_skipped) 0
    example_cursor
  = ({| c_interp_left := 0; c_fidx := 0;
        c_out := target_found example_args example_locals 0 1 alloc_fields |}, Next).
Proof.
  unfold kk_body. rewrite skipped_locals_eq.
  pose proof example_straddle as [Hl0 [Hl1 Hr1]].
  rewrite example_time_left.
  change (age_universe example_skipped) with 8. rewrite (Rgtb_false 4 8) by lra.
  change ((target_fobs_orb example_skipped).[nf example_skipped - 1]) with 1.
  rewrite (Rgtb_false (fobs_orb_left example_locals) 1) by lra.
  rewrite example_interp_left.
  change (while_while (c_fidx example_cursor) (nf example_skipped)
            (fobs_orb_left example_locals) (target_fobs_orb example_skipped)) with 0%Z.
  change ((target_fobs_orb example_skipped).[0]) with 1.
  change (Z.to_nat (nf example_skipped - 0)) with 1%nat.
  cbn [ff_loop c_out example_cursor].
  rewrite (Rltb_true _ _ Hl1), (Rltb_true _ _ Hr1).
  reflexivity.
Qed.

(** C6 on the run with two starting redshifts.  Bin 1 is stalled: its
    cells stay as allocated and, in the one step of the run, the loop over
    the starting redshifts does what the loop over bin 0 alone does.  Bin 0
    is examined: it records the crossing of the target frequency. *)

Lemma stalled_bin_is_skipped_witness :
  ((forall l : Z,
      redz_final (dynamic_binary_number_at_fobs example_skipped) 0%Z 0%Z 1%Z l = NaN
      /\ diff_num (dynamic_binary_number_at_fobs example_skipped) 0%Z 0%Z 1%Z l = Val 0)
   /\ kk_loop example_skipped (redz_ages example_skipped) (edges_of example_skipped)
        [1%Z; 0%Z] example_cursor
      = kk_loop example_skipped (redz_ages example_skipped) (edges_of example_skipped)
          [0%Z] example_cursor)
  /\ redz_final (dynamic_binary_number_at_fobs example_skipped) 0%Z 0%Z 0%Z 0%Z
     = Val example_newz
  /\ 0 < example_newz.
Proof.
  assert (Hstall : gmt_time example_skipped 0 0 1 + redz_ages example_skipped 1
                   > age_universe example_skipped).
  { destruct skipped_redz_ages as [-> _]. unfold age_universe. simpl. lra. }
  assert (Hi : (0 <= 0 < nm example_skipped)%Z) by (unfold nm; simpl; lia).
  assert (Hj : (0 <= 0 < nq example_skipped)%Z) by (unfold nq; simpl; lia).
  assert (Hk : (0 <= 1 < nz example_skipped)%Z) by (unfold nz; simpl; lia).
  assert (Hss : (0 <= 0 < num_steps example_skipped)%Z) by (simpl; lia).
  destruct (stalled_bin_is_skipped example_skipped 0 0 1
              (valid_binary_elapsed _ 0 0 (example_with_valid _ _ _ _)) Hi Hj Hk Hstall)
    as [Hcells Hloop].
  destruct (Hloop 0%Z alloc_fields example_cursor Hss) as [_ [_ [_ [_ Hwithout]]]].
  change (kk_loop example_skipped (redz_ages example_skipped) (edges_of example_skipped)
            [1%Z; 0%Z] example_cursor
          = kk_loop example_skipped (redz_ages example_skipped) (edges_of example_skipped)
              [0%Z] example_cursor) in Hwithout.
  split; [split; [exact Hcells | exact Hwithout] |].
  split; [| pose proof example_newz_bounds; lra].
  change (dynamic_binary_number_at_fobs example_skipped)
    with (c_out (kk_loop example_skipped (redz_ages example_skipped)
                   (edges_of example_skipped) [1%Z; 0%Z] example_cursor)).
  rewrite Hwithout. cbn [kk_loop]. rewrite skipped_kk_body. cbn [c_out].
  destruct example_target_found as [v ->]. cbn [redz_final]. apply set4_same.
Defined.

(** C9 on the small run. *)

Lemma trajectory_strictly_monotone_witness :
  let sepa := fun k : Z =>
    w_sepa_left (walk_after example_args (redz_ages example_args) 0 0 alloc_fields k) in
  let frst := fun k : Z =>
    w_frst_orb_left (walk_after example_args (redz_ages example_args) 0 0 alloc_fields k) in
  (forall k : Z, (0 <= k <= 1)%Z ->
     Integrator.i_sepa_left (Integrator.integ_after 0 example_pars k) = sepa k)
  /\ (forall k : Z, (0 <= k <= 1)%Z ->
        sepa k = pow 10.0 (log10 1 - IZR k * ((log10 1 - log10 (risco 1)) / 1)))
  /\ sepa 0%Z = 1
  /\ sepa 1%Z = risco 1
  /\ (forall k : Z, (0 <= k <= 1)%Z -> frst k = kepler_freq_from_sepa 1 (sepa k))
  /\ (forall k : Z, (0 <= k < 1)%Z -> sepa (k + 1)%Z < sepa k /\ frst k < frst (k + 1)%Z).
Proof.
  apply (trajectory_strictly_monotone example_args (redz_ages example_args) 0 0 alloc_fields
           0 example_pars).
  - apply (example_with_valid [1] [1] [2; 1; 0.5] (fun _ => 0)).
  - apply (example_with_valid [1] [1] [2; 1; 0.5] (fun _ => 0)).
  - reflexivity.
  - reflexivity.
  - reflexivity.
  - reflexivity.
Defined.

(** C2, counterexample.  The differential number that the small run
    records is not the density times the residence time times
    [4 pi c (1 + newz) D^2 / Mpc^2]: the source divides by one more
    megaparsec. *)

Lemma example_crossing_dcom :
  MY_MPC / 2 < crossing_dcom example_args example_locals 1 <= MY_MPC.
Proof.
  unfold crossing_dcom, _interp_between_vals.
  rewrite example_interp_left, example_interp_right, example_time_left, example_time_right.
  pose proof example_straddle as [Hl0 [Hl1 Hr1]].
  pose proof example_dt as [Hd0 Hd1]. pose proof MY_MPC_pos as HM.
  set (fl := fobs_orb_left example_locals) in *.
  set (fr := fobs_orb_right example_locals) in *.
  set (dt := e_dt example_edges) in *.
  assert (Hq : 0 < (1 - fl) / (fr - fl) < 1).
  { split.
    - apply Rdiv_lt_0_compat; lra.
    - apply Rmult_lt_reg_r with (fr - fl); [lra |].
      replace ((1 - fl) / (fr - fl) * (fr - fl)) with (1 - fl) by (field; lra). lra. }
  set (q := (1 - fl) / (fr - fl)) in *.
  unfold interp_at_index. simpl.
  replace (2 * MY_MPC + (MY_MPC - 2 * MY_MPC) / (4 - 0) * (4 - 0) +
           (2 * MY_MPC + (MY_MPC - 2 * MY_MPC) / (4 - 0) * (4 + dt - 0) -
            (2 * MY_MPC + (MY_MPC - 2 * MY_MPC) / (4 - 0) * (4 - 0))) * (1 - fl) / (fr - fl))
    with (MY_MPC * (1 - dt / 4 * q)) by (unfold q; field; lra).
  assert (Hp : 0 < dt / 4 * q < / 2) by nra.
  set (p := dt / 4 * q) in *. nra.
Qed.

Lemma example_residence_time :
  0 < residence_time example_args example_locals 1 example_newz.
Proof.
  unfold residence_time. simpl.
  pose proof example_newz_bounds as [Hz0 Hz1].
  assert (Hs : 0 < kepler_sepa_from_freq 1 (1 * (1 + example_newz))).
  { unfold kepler_sepa_from_freq.
    apply Rdiv_lt_0_compat; [| apply pow_gt_0; lra].
    apply Rmult_lt_0_compat; [apply KEPLER_CONST_SEPA_pos | apply pow_gt_0; lra]. }
  pose proof (hard_func_2pwl_gw_neg 1 1 _ 1 1 1 1 ltac:(lra) ltac:(lra) Hs ltac:(lra) ltac:(lra))
    as Hd.
  set (s := kepler_sepa_from_freq 1 (1 * (1 + example_newz))) in *.
  set (d := hard_func_2pwl_gw 1 1 s 1 1 1 1) in *.
  replace (- (2 / 3) * s / d) with (2 / 3 * s / - d) by (field; lra).
  apply Rdiv_lt_0_compat; lra.
Qed.

Lemma weight_coded_claimed (newz dcom : R) :
  weight_claimed newz dcom = MY_MPC * weight_coded newz dcom.
Proof. unfold weight_claimed, weight_coded. pose proof MY_MPC_pos. field. lra. Qed.

Lemma crossing_weight_is_not_claimed :
  example_newz > 0
  /\ redz_final (dynamic_binary_number_at_fobs example_args) 0%Z 0%Z 0%Z 0%Z = Val example_newz
  /\ diff_num (dynamic_binary_number_at_fobs example_args) 0%Z 0%Z 0%Z 0%Z
     <> Val (dens example_args 0 0 0
             * residence_time example_args example_locals 1 example_newz
             * weight_claimed example_newz (crossing_dcom example_args example_locals 1)).
Proof.
  pose proof example_newz_bounds as [Hz0 Hz1].
  destruct example_final_cells as [H1 H2].
  split; [lra |]. split; [exact H1 |]. rewrite H2. intros Heq. injection Heq as Heq.
  rewrite weight_coded_claimed in Heq. simpl in Heq.
  pose proof example_residence_time as Ht.
  pose proof example_crossing_dcom as [Hd0 Hd1].
  pose proof MY_MPC_pos as HM.
  assert (Hw : 0 < weight_coded example_newz (crossing_dcom example_args example_locals 1)).
  { unfold weight_coded. pose proof PI_RGT_0. pose proof MY_SPLC_pos.
    apply Rmult_lt_0_compat; [apply Rmult_lt_0_compat |].
    - apply Rdiv_lt_0_compat; [| assumption].
      apply Rmult_lt_0_compat; lra.
    - lra.
    - apply pow_lt. apply Rdiv_lt_0_compat; lra. }
  set (t := residence_time example_args example_locals 1 example_newz) in *.
  set (w := weight_coded example_newz (crossing_dcom example_args example_locals 1)) in *.
  assert (HM1 : 1 < MY_MPC) by (unfold MY_MPC; lra).
  assert (0 < t * w) by (apply Rmult_lt_0_compat; assumption).
  nra.
Qed.

(** ** The solver on the unit binary *)

(** Whatever the normalisation, the unit binary reaches its ISCO in less
    than half a second: the gravitational-wave term alone is that fast. *)

Lemma unit_gw_rate_at_isco : hard_gw 1 1 (risco 1) < -4.
Proof.
  pose proof example_risco as [Hr0 Hr1].
  unfold hard_gw. rewrite pow_one, (pow_3 _ Hr0), (pow_2 (1 + 1)) by lra.
  rewrite GW_DADT_SEP_CONST_closed. unfold risco, MY_NWTG, MY_SPLC, MY_SCHW. lra.
Qed.


(** C1, counterexample.  For the unit binary and a target time of one
    second the residual has no root: the solver returns (with bisection as
    its root finder, for one), and whatever root finder is plugged in,
    re-running the integrator with the normalisation that it returns misses
    the target by more than half of it. *)


(** The amended C1 on the unit binary, with bisection as the root finder
    and, as the target, the time that the binary takes with unit
    normalisation: the bracket encloses it. *)

(** *** The run of a binary that is pushed apart *)

Lemma softening_redz_age : redz_ages example_softening 0%Z = 4.
Proof.
  unfold redz_ages. simpl. rewrite (Rgtb_false 1 1) by lra. simpl.
  unfold update, interp_at_index. simpl. lra.
Qed.

(** The separation between the two steps is the geometric mean of the
    initial separation, 1, and the ISCO. *)

Lemma softening_sepa_sqr : 0 < softening_sepa /\ softening_sepa * softening_sepa = risco 1.
Proof.
  pose proof example_risco as [Hr0 Hr1].
  assert (Hs : 0 < softening_sepa) by (apply pow_gt_0; lra).
  split; [exact Hs |].
  unfold softening_sepa. rewrite pow_pos_base by lra. rewrite <- Rpower_plus.
  transitivity (pow 10.0 (log10 (risco 1))); [| apply pow_10_log10; exact Hr0].
  rewrite pow_pos_base by lra. f_equal. unfold mapper_dx, sepa_init_log10. simpl.
  assert (H1 : log10 1 = 0) by (unfold log10; rewrite ln_1; lra).
  rewrite H1. lra.
Qed.

Lemma softening_sepa_bounds : 2e-14 < softening_sepa < 3e-14.
Proof.
  destruct softening_sepa_sqr as [Hs Hsq].
  assert (Hr : 4e-28 < risco 1 < 5e-28) by (unfold risco, MY_SCHW; lra).
  split; nra.
Qed.

(** The gravitational-wave term is negligible down to that separation and
    dominates at the ISCO. *)

Lemma softening_gw_rates :
  - 0.1 < hard_gw 1 1 1 < 0
  /\ - 0.1 < hard_gw 1 1 softening_sepa < 0
  /\ hard_gw 1 1 (risco 1) < -4.
Proof.
  destruct softening_sepa_sqr as [Hs Hsq]. pose proof softening_sepa_bounds as [Hlo Hhi].
  pose proof example_risco as [Hr0 Hr1].
  split; [| split; [| exact unit_gw_rate_at_isco]].
  - split; [| apply hard_gw_neg; lra].
    unfold hard_gw. rewrite !pow_one, (pow_2 (1 + 1)) by lra.
    rewrite GW_DADT_SEP_CONST_closed. unfold MY_NWTG, MY_SPLC. lra.
  - split; [| apply hard_gw_neg; lra].
    unfold hard_gw. rewrite pow_one, (pow_3 _ Hs), (pow_2 (1 + 1)) by lra.
    rewrite GW_DADT_SEP_CONST_closed.
    replace (softening_sepa ^ 3) with (risco 1 * softening_sepa) by (rewrite <- Hsq; ring).
    set (k := 64 * MY_NWTG ^ 3 / (5 * MY_SPLC ^ 5)).
    assert (Hk : 0 < k < 1e-70) by (unfold k, MY_NWTG, MY_SPLC; lra).
    assert (Hr : 4e-28 < risco 1) by (unfold risco, MY_SCHW; lra).
    assert (Hd : 1e-42 < risco 1 * softening_sepa) by nra.
    set (d := risco 1 * softening_sepa) in *.
    replace (- k * 1 * 1 / d / (1 + 1) ^ 2) with (- (k / 4) / d) by (field; lra).
    apply Rmult_lt_reg_r with d; [lra |].
    replace (- (k / 4) / d * d) with (- (k / 4)) by (field; lra).
    nra.
Qed.

(** The first step: the bin is stalled, and the binary being pushed apart
    while its separation is stepped down, the step lasts minus one second,
    about. *)

Lemma softening_first_stalled (c : cursor) :
  kk_body example_softening (redz_ages example_softening) (edges_of example_softening) 0 c
  = (c, Next).
Proof.
  apply kk_body_stalled. unfold edges_of. rewrite kk_locals_time_left.
  rewrite softening_redz_age. unfold age_universe. simpl. lra.
Qed.

Lemma softening_walk_eq :
  softening_walk
  = {| w_sepa_log10 := sepa_init_log10 example_softening - mapper_dx example_softening 1;
       w_sepa_left := softening_sepa;
       w_dadt_left := hard_func_2pwl_gw 1 1 softening_sepa (-1) 1 1 1;
       w_frst_orb_left := kepler_freq_from_sepa 1 softening_sepa;
       w_time_evo := e_time_evo (edges_of example_softening);
       w_cursor := example_cursor |}.
Proof.
  unfold softening_walk.
  change (walk_after example_softening (redz_ages example_softening) 0 0 alloc_fields 1)
    with (walk_step example_softening (redz_ages example_softening) 0 0
            (walk_init example_softening 0 0 alloc_fields) 0).
  unfold walk_step. fold (edges_of example_softening).
  change (range_rev (nz example_softening)) with [0%Z]. cbn [kk_loop].
  rewrite softening_first_stalled. reflexivity.
Qed.

Lemma softening_first_time : -1.2 < e_time_evo (edges_of example_softening) < -0.9.
Proof.
  unfold edges_of. simpl. fold softening_sepa.
  replace (pow 10.0 (sepa_init_log10 example_softening)) with 1
    by (symmetry; unfold sepa_init_log10; simpl; apply pow_10_log10; lra).
  destruct softening_sepa_sqr as [Hs Hsq]. pose proof softening_sepa_bounds as [Hlo Hhi].
  rewrite !hard_func_unit_slopes by lra.
  destruct softening_gw_rates as [[G1 G1'] [[G2 G2'] _]].
  set (g1 := hard_gw 1 1 1) in *. set (g2 := hard_gw 1 1 softening_sepa) in *.
  set (s := softening_sepa) in *.
  replace (0.0 + 2.0 * (s - 1) / (- -1 + g1 + (- -1 + g2)))
    with (- (2 * (1 - s) / (2 + g1 + g2))) by (undecimal; field; lra).
  assert (Hq : 0.9 < 2 * (1 - s) / (2 + g1 + g2) < 1.2).
  { split.
    - apply Rmult_lt_reg_r with (2 + g1 + g2); [lra |].
      replace (2 * (1 - s) / (2 + g1 + g2) * (2 + g1 + g2)) with (2 * (1 - s))
        by (field; lra).
      lra.
    - apply Rmult_lt_reg_r with (2 + g1 + g2); [lra |].
      replace (2 * (1 - s) / (2 + g1 + g2) * (2 + g1 + g2)) with (2 * (1 - s))
        by (field; lra).
      lra. }
  lra.
Qed.

(** The second step runs from that separation down to the ISCO, in a tiny
    positive time. *)

Lemma softening_sepa_right :
  pow 10.0 (sepa_init_log10 example_softening - mapper_dx example_softening 1
            - mapper_dx example_softening 1)
  = risco 1.
Proof.
  pose proof example_risco as [Hr0 Hr1].
  transitivity (pow 10.0 (log10 (risco 1))); [| apply pow_10_log10; exact Hr0].
  f_equal.
  unfold mapper_dx, sepa_init_log10. simpl.
  assert (H1 : log10 1 = 0) by (unfold log10; rewrite ln_1; lra).
  rewrite H1. lra.
Qed.

Lemma softening_edges_eq :
  e_dt softening_edges
  = 2.0 * (risco 1 - softening_sepa)
    / (hard_func_2pwl_gw 1 1 softening_sepa (-1) 1 1 1
       + hard_func_2pwl_gw 1 1 (risco 1) (-1) 1 1 1)
  /\ e_time_evo softening_edges
     = e_time_evo (edges_of example_softening) + e_dt softening_edges
  /\ e_frst_orb_left softening_edges = kepler_freq_from_sepa 1 softening_sepa
  /\ e_frst_orb_right softening_edges = kepler_freq_from_sepa 1 (risco 1).
Proof.
  unfold softening_edges. rewrite softening_walk_eq. unfold step_edges_of.
  cbn [e_dt e_time_evo e_frst_orb_left e_frst_orb_right w_sepa_log10 w_sepa_left
       w_dadt_left w_frst_orb_left w_time_evo].
  change ((mtot example_softening).[0]) with 1.
  change ((mrat example_softening).[0]) with 1.
  rewrite softening_sepa_right. repeat split.
Qed.

Lemma softening_dt : 0 < e_dt softening_edges < 0.1.
Proof.
  destruct softening_edges_eq as [-> _].
  destruct softening_sepa_sqr as [Hs Hsq]. pose proof softening_sepa_bounds as [Hlo Hhi].
  pose proof example_risco as [Hr0 Hr1].
  rewrite !hard_func_unit_slopes by lra.
  destruct softening_gw_rates as [_ [[G2 G2'] G3]].
  set (g2 := hard_gw 1 1 softening_sepa) in *. set (g3 := hard_gw 1 1 (risco 1)) in *.
  set (s := softening_sepa) in *. set (r := risco 1) in *.
  replace (2.0 * (r - s) / (- -1 + g2 + (- -1 + g3)))
    with (2 * (s - r) / (- 2 - g2 - g3)) by (undecimal; field; lra).
  split.
  - apply Rdiv_lt_0_compat; lra.
  - apply Rmult_lt_reg_r with (- 2 - g2 - g3); [lra |].
    replace (2 * (s - r) / (- 2 - g2 - g3) * (- 2 - g2 - g3)) with (2 * (s - r))
      by (field; lra).
    nra.
Qed.

Lemma pow_15_sqr (x : R) : 0 < x -> pow x 1.5 * pow x 1.5 = x * x * x.
Proof.
  intros Hx. rewrite pow_pos_base by assumption. rewrite <- Rpower_plus.
  replace (1.5 + 1.5) with (INR 3) by (simpl; lra).
  rewrite Rpower_pow by assumption. simpl. ring.
Qed.

(** The rest-frame frequencies at the two edges of the second step. *)

Lemma softening_frst_left : 0 < e_frst_orb_left softening_edges < 1e21.
Proof.
  destruct softening_edges_eq as [_ [_ [-> _]]].
  destruct softening_sepa_sqr as [Hs Hsq]. pose proof softening_sepa_bounds as [Hlo Hhi].
  pose proof KEPLER_CONST_FREQ_bounds as [HK0 HK1].
  unfold kepler_freq_from_sepa. rewrite sqrt_1.
  pose proof (pow_gt_0 softening_sepa 1.5 Hs) as Hp0.
  pose proof (pow_15_sqr softening_sepa Hs) as Hp.
  assert (Hr : 4e-28 < risco 1) by (unfold risco, MY_SCHW; lra).
  set (p := pow softening_sepa 1.5) in *.
  assert (Hp1 : 1e-21 < p).
  { rewrite Hsq in Hp. assert (8e-42 < p * p) by nra. nra. }
  split.
  - apply Rdiv_lt_0_compat; lra.
  - apply Rmult_lt_reg_r with p; [lra |].
    replace (KEPLER_CONST_FREQ * 1 / p * p) with KEPLER_CONST_FREQ by (field; lra).
    nra.
Qed.

Lemma softening_frst_right : 1e35 < e_frst_orb_right softening_edges.
Proof.
  destruct softening_edges_eq as [_ [_ [_ ->]]].
  pose proof example_risco as [Hr0 Hr1].
  pose proof KEPLER_CONST_FREQ_bounds as [HK0 HK1].
  unfold kepler_freq_from_sepa. rewrite sqrt_1.
  pose proof (pow_gt_0 (risco 1) 1.5 Hr0) as Hp0.
  pose proof (pow_15_sqr (risco 1) Hr0) as Hp.
  set (p := pow (risco 1) 1.5) in *. set (r := risco 1) in *.
  assert (Hp1 : p < 1e-40).
  { assert (r * r < 1e-54) by nra. assert (r * r * r < 1e-81) by nra. nra. }
  apply Rmult_lt_reg_r with p; [lra |].
  replace (KEPLER_CONST_FREQ * 1 / p * p) with KEPLER_CONST_FREQ by (field; lra).
  nra.
Qed.

(** The only bin of the second step: the elapsed time being negative, its
    left-edge time is below the present age, although the galaxy-merger
    time and the age at the starting redshift add up to more. *)

Lemma softening_time_left : 7.3 < time_left softening_locals < 7.6.
Proof.
  unfold softening_locals, softening_edges. rewrite kk_locals_time_left.
  rewrite softening_walk_eq, softening_redz_age. cbn [w_time_evo gmt_time example_softening].
  pose proof softening_first_time. lra.
Qed.

Lemma softening_time_right :
  time_right softening_locals = time_left softening_locals + e_dt softening_edges.
Proof. unfold softening_locals, kk_locals. cbn [time_left time_right]. ring. Qed.

Lemma softening_search (t : R) :
  4 < t <= 8 ->
  while_while 0 3 t (of_list [0; 4; 8]) = 1%Z /\ while_while 1 3 t (of_list [0; 4; 8]) = 1%Z.
Proof.
  intros [H4 H8]. unfold while_while. simpl.
  rewrite (Rltb_true 4 t) by lra. simpl.
  rewrite (Rltb_false 8 t) by lra. simpl. rewrite (Rgtb_false 0 t) by lra. split; reflexivity.
Qed.

Lemma softening_interp_left : interp_left softening_locals = 1%Z.
Proof.
  change (while_while 0 3 (time_left softening_locals) (of_list [0; 4; 8]) = 1%Z).
  pose proof softening_time_left. apply softening_search. lra.
Qed.

Lemma softening_interp_right : interp_right softening_locals = 1%Z.
Proof.
  change (while_while (interp_left softening_locals) 3 (time_left softening_locals)
            (of_list [0; 4; 8]) = 1%Z).
  rewrite softening_interp_left. pose proof softening_time_left. apply softening_search. lra.
Qed.

Lemma softening_redz_left :
  redz_left softening_locals = 1 - (time_left softening_locals - 4) / 8.
Proof.
  change (interp_at_index (interp_left softening_locals) (time_left softening_locals)
            (of_list [0; 4; 8]) (of_list [2; 1; 0.5])
          = 1 - (time_left softening_locals - 4) / 8).
  rewrite softening_interp_left. unfold interp_at_index. simpl. lra.
Qed.

Lemma softening_redz_right :
  redz_right softening_locals
  = 1 - (time_left softening_locals + e_dt softening_edges - 4) / 8.
Proof.
  change (interp_at_index (interp_right softening_locals) (time_right softening_locals)
            (of_list [0; 4; 8]) (of_list [2; 1; 0.5])
          = 1 - (time_left softening_locals + e_dt softening_edges - 4) / 8).
  rewrite softening_interp_right, softening_time_right. unfold interp_at_index. simpl. lra.
Qed.

(** The target frequency lies strictly between the observed frequencies
    of the two edges, and the crossing redshift is positive. *)

Lemma softening_straddle :
  0 < fobs_orb_left softening_locals /\ fobs_orb_left softening_locals < 1e30
  /\ 1e30 < fobs_orb_right softening_locals.
Proof.
  change (fobs_orb_left softening_locals)
    with (e_frst_orb_left softening_edges / (1.0 + redz_left softening_locals)).
  change (fobs_orb_right softening_locals)
    with (e_frst_orb_right softening_edges / (1.0 + redz_right softening_locals)).
  rewrite softening_redz_left, softening_redz_right.
  pose proof softening_time_left as [Ht0 Ht1]. pose proof softening_dt as [Hd0 Hd1].
  pose proof softening_frst_left as [Hl0 Hl1]. pose proof softening_frst_right as Hr.
  set (tl := time_left softening_locals) in *. set (dt := e_dt softening_edges) in *.
  set (fl := e_frst_orb_left softening_edges) in *.
  set (fr := e_frst_orb_right softening_edges) in *.
  assert (H1 : 1 < 1.0 + (1 - (tl - 4) / 8) < 2) by lra.
  assert (H2 : 1 < 1.0 + (1 - (tl + dt - 4) / 8) < 2) by lra.
  set (zl := 1.0 + (1 - (tl - 4) / 8)) in *. set (zr := 1.0 + (1 - (tl + dt - 4) / 8)) in *.
  split; [apply Rdiv_lt_0_compat; lra |]. split.
  - apply Rmult_lt_reg_r with zl; [lra |].
    replace (fl / zl * zl) with fl by (field; lra). nra.
  - apply Rmult_lt_reg_r with zr; [lra |].
    replace (fr / zr * zr) with fr by (field; lra). nra.
Qed.

Lemma softening_newz_bounds : / 2 < softening_newz < 1.
Proof.
  unfold softening_newz, _interp_between_vals.
  rewrite softening_redz_left, softening_redz_right.
  pose proof softening_straddle as [Hl0 [Hl1 Hr1]].
  pose proof softening_time_left as [Ht0 Ht1]. pose proof softening_dt as [Hd0 Hd1].
  set (fl := fobs_orb_left softening_locals) in *.
  set (fr := fobs_orb_right softening_locals) in *.
  set (tl := time_left softening_locals) in *. set (dt := e_dt softening_edges) in *.
  assert (Hq : 0 < (1e30 - fl) / (fr - fl) < 1).
  { split.
    - apply Rdiv_lt_0_compat; lra.
    - apply Rmult_lt_reg_r with (fr - fl); [lra |].
      replace ((1e30 - fl) / (fr - fl) * (fr - fl)) with (1e30 - fl) by (field; lra). lra. }
  set (q := (1e30 - fl) / (fr - fl)) in *.
  replace (1 - (tl - 4) / 8 + (1 - (tl + dt - 4) / 8 - (1 - (tl - 4) / 8)) * (1e30 - fl) / (fr - fl))
    with (1 - (tl - 4) / 8 - dt / 8 * q) by (unfold q; field; lra).
  assert (0 < dt * q < 0.1) by nra. lra.
Qed.

(** The body of the redshift loop records that crossing. *)

Lemma softening_kk_body :
  kk_body example_softening (redz_ages example_softening) softening_edges 0 example_cursor
  = ({| c_interp_left := 1; c_fidx := 0;
        c_out := target_found example_softening softening_locals 0 1e30 alloc_fields |},
     Next).
Proof.
  unfold kk_body. fold softening_locals.
  pose proof softening_straddle as [Hl0 [Hl1 Hr1]].
  pose proof softening_time_left as [Ht0 Ht1].
  change (age_universe example_softening) with 8.
  rewrite (Rgtb_false (time_left softening_locals) 8) by lra.
  change ((target_fobs_orb example_softening).[nf example_softening - 1]) with 1e30.
  rewrite (Rgtb_false (fobs_orb_left softening_locals) 1e30) by lra.
  rewrite softening_interp_left.
  change (while_while (c_fidx example_cursor) (nf example_softening)
            (fobs_orb_left softening_locals) (target_fobs_orb example_softening)) with 0%Z.
  change ((target_fobs_orb example_softening).[0]) with 1e30.
  change (Z.to_nat (nf example_softening - 0)) with 1%nat.
  cbn [ff_loop c_out example_cursor].
  rewrite (Rltb_true _ _ Hl1), (Rltb_true _ _ Hr1).
  reflexivity.
Qed.

(** The whole pass is that single write. *)

Lemma softening_run :
  dynamic_binary_number_at_fobs example_softening
  = target_found example_softening softening_locals 0 1e30 alloc_fields.
Proof.
  change (dynamic_binary_number_at_fobs example_softening)
    with (c_out (kk_loop example_softening (redz_ages example_softening) softening_edges
                   [0%Z] (w_cursor softening_walk))).
  rewrite softening_walk_eq. cbn [w_cursor kk_loop]. rewrite softening_kk_body. reflexivity.
Qed.

(** C6, counterexample.  The galaxy-merger time of the only cell of that
    run and the age at its starting redshift add up to 8.5, more than the
    present age, 8.  Before the second step the elapsed time is negative;
    the bin is then no longer stalled and the pass writes the crossing of
    the target frequency into the cell. *)

Lemma pushed_apart_binary_leaves_the_stall :
  in_shape example_softening 0 0 0 0
  /\ gmt_time example_softening 0 0 0 + redz_ages example_softening 0
     > age_universe example_softening
  /\ w_time_evo (walk_after example_softening (redz_ages example_softening) 0 0
                   alloc_fields 1) < 0
  /\ ~ elapsed_nonneg example_softening 0 0
  /\ time_left softening_locals <= age_universe example_softening
  /\ redz_final (dynamic_binary_number_at_fobs example_softening) 0%Z 0%Z 0%Z 0%Z
     = Val softening_newz
  /\ 0 < softening_newz
  /\ redz_final (dynamic_binary_number_at_fobs example_softening) 0%Z 0%Z 0%Z 0%Z <> NaN.
Proof.
  pose proof softening_newz_bounds as [Hz0 Hz1].
  pose proof softening_time_left as [Ht0 Ht1].
  pose proof softening_first_time as [Hf0 Hf1].
  assert (Hcell : redz_final (dynamic_binary_number_at_fobs example_softening)
                    0%Z 0%Z 0%Z 0%Z = Val softening_newz).
  { rewrite softening_run.
    rewrite (target_found_entry example_softening softening_locals 0 1e30 alloc_fields)
      by (fold softening_newz; lra).
    cbn [redz_final]. fold softening_newz. apply set4_same. }
  split; [unfold in_shape, nm, nq, nz, nf; simpl; lia |].
  split; [rewrite softening_redz_age; unfold age_universe; simpl; lra |].
  split; [fold softening_walk; rewrite softening_walk_eq; cbn [w_time_evo]; lra |].
  split.
  { intros Helapsed.
    specialize (Helapsed 1%Z alloc_fields ltac:(simpl; lia)).
    fold softening_walk in Helapsed. rewrite softening_walk_eq in Helapsed.
    cbn [w_time_evo] in Helapsed. lra. }
  split; [change (age_universe example_softening) with 8; lra |].
  split; [exact Hcell |]. split; [lra |].
  rewrite Hcell. discriminate.
Qed.
(** ** The search position of the right edge *)

(** The right-edge index is searched from the left-edge index with the
    left-edge time: in an ascending table it is the left-edge index again,
    whatever the right-edge time. *)

Lemma interp_right_is_interp_left (a : mapper_args) (redz_age : Z -> R) (e : step_edges)
  (kk0 : Z) (c : cursor) :
  (1 <= ninterp a)%Z -> ascending (ninterp a) (tage_interp_grid a) ->
  (0 <= c_interp_left c <= ninterp a - 1)%Z ->
  interp_right (kk_locals a redz_age e kk0 c) = interp_left (kk_locals a redz_age e kk0 c).
Proof.
  intros Hn Hasc Hc. unfold kk_locals. cbn [interp_right interp_left].
  apply while_while_idempotent; assumption.
Qed.

(** C3, at the small run.  The bin is processed (its left edge is not
    beyond the age of the universe) and the left-edge index 0 brackets the
    left-edge time 4.  The right-edge time lies in the next row of the
    table, bracketed by index 1, but the index used for the right edge is 0
    again, and the right-edge redshift is not the piecewise-linear
    interpolant of the table at the right-edge time. *)

Theorem right_edge_index_ignores_right_time :
  let tage := tage_interp_grid example_args in
  let grid := redz_interp_grid example_args in
  let n := ninterp example_args in
  time_left example_locals <= age_universe example_args
  /\ brackets tage n (interp_left example_locals) (time_left example_locals)
  /\ is_interpolant tage grid n (time_left example_locals) (redz_left example_locals)
  /\ interp_right example_locals = interp_left example_locals
  /\ brackets tage n 1 (time_right example_locals)
  /\ ~ brackets tage n (interp_right example_locals) (time_right example_locals)
  /\ ~ is_interpolant tage grid n (time_right example_locals) (redz_right example_locals).
Proof.
  intros tage grid n.
  pose proof example_dt as [Hd0 Hd1].
  pose proof example_time_right as Htr. pose proof example_redz_right as Hrr.
  set (dt := e_dt example_edges) in *.
  assert (Hn : n = 3%Z) by reflexivity.
  assert (Hl : brackets tage n 0 4).
  { unfold brackets. rewrite Hn. simpl. split; [lia | lra]. }
  split; [rewrite example_time_left, example_age_universe; lra |].
  split; [rewrite example_interp_left, example_time_left; exact Hl |].
  split.
  { exists 0%Z. rewrite example_time_left. split; [exact Hl |].
    rewrite example_redz_left. unfold interp_at_index. simpl. lra. }
  split; [rewrite example_interp_right, example_interp_left; reflexivity |].
  split.
  { rewrite Htr. unfold brackets. rewrite Hn. simpl. split; [lia | lra]. }
  split.
  { rewrite example_interp_right, Htr. unfold brackets. simpl.
    intros [_ [_ H]]. lra. }
  intros [i [[Hi Hb] Hv]]. rewrite Htr in Hb, Hv. rewrite Hrr in Hv.
  rewrite Hn in Hi.
  assert (Hc : i = 0%Z \/ i = 1%Z) by lia.
  destruct Hc as [-> | ->].
  - simpl in Hb. lra.
  - unfold interp_at_index in Hv. simpl in Hv. lra.
Qed.
(** ** Leaving the redshift loop *)

(** A bin that is not stalled and whose left-edge observed frequency is
    above the last target frequency ends the loop over the starting
    redshifts. *)

Lemma kk_body_break (a : mapper_args) (redz_age : Z -> R) (e : step_edges) (kk0 : Z)
  (c : cursor) :
  time_left (kk_locals a redz_age e kk0 c) <= age_universe a ->
  (target_fobs_orb a).[nf a - 1] < fobs_orb_left (kk_locals a redz_age e kk0 c) ->
  kk_body a redz_age e kk0 c
  = ({| c_interp_left := interp_left (kk_locals a redz_age e kk0 c);
        c_fidx := c_fidx c; c_out := c_out c |}, Break).
Proof.
  intros Htime Htop. unfold kk_body.
  rewrite Rgtb_false by assumption. rewrite Rgtb_true by assumption. reflexivity.
Qed.

(** *** The run with a delayed bin *)

Lemma delayed_redz_ages :
  redz_ages example_delayed 1%Z = 0 /\ redz_ages example_delayed 0%Z = 4.
Proof.
  unfold redz_ages. simpl. rewrite (Rgtb_false 1e6 2e6) by lra. simpl.
  rewrite (Rgtb_false 1e6 1e6) by lra. simpl.
  unfold update, interp_at_index. simpl. split; lra.
Qed.

Lemma delayed_dt : 0 < e_dt delayed_edges < 2.
Proof. apply example_with_dt. Qed.

Lemma delayed_time_evo : e_time_evo delayed_edges = e_dt delayed_edges.
Proof. apply example_with_time_evo. Qed.

Lemma delayed_frst_left : e_frst_orb_left delayed_edges = KEPLER_CONST_FREQ.
Proof. apply example_with_frst_left. Qed.

Lemma delayed_frst_right : 1e22 < e_frst_orb_right delayed_edges.
Proof. apply example_with_frst_right. Qed.

(** Bin 1, visited first: it starts hardening at the present age, where
    the redshift is 0, and its observed frequency is Kepler's constant. *)

Lemma delayed_first_time_left : time_left delayed_first = 8.
Proof.
  unfold delayed_first, kk_locals. cbn [time_left].
  destruct delayed_redz_ages as [-> _]. rewrite delayed_time_evo. simpl. lra.
Qed.

Lemma delayed_search_8 : while_while 0 3 8 (of_list [0; 4; 8]) = 1%Z.
Proof.
  unfold while_while. simpl. rewrite (Rltb_true 4 8) by lra. simpl.
  rewrite (Rltb_false 8 8) by lra. simpl. rewrite (Rgtb_false 0 8) by lra. reflexivity.
Qed.

Lemma delayed_first_interp_left : interp_left delayed_first = 1%Z.
Proof.
  change (while_while 0 3 (time_left delayed_first) (of_list [0; 4; 8]) = 1%Z).
  rewrite delayed_first_time_left. apply delayed_search_8.
Qed.

Lemma delayed_first_redz_left : redz_left delayed_first = 0.
Proof.
  change (interp_at_index (interp_left delayed_first) (time_left delayed_first)
            (of_list [0; 4; 8]) (of_list [2e6; 1e6; 0]) = 0).
  rewrite delayed_first_interp_left, delayed_first_time_left.
  unfold interp_at_index. simpl. lra.
Qed.

Lemma delayed_first_fobs_left : fobs_orb_left delayed_first = KEPLER_CONST_FREQ.
Proof.
  change (e_frst_orb_left delayed_edges / (1.0 + redz_left delayed_first)
          = KEPLER_CONST_FREQ).
  rewrite delayed_frst_left, delayed_first_redz_left. undecimal. field.
Qed.

Lemma delayed_first_break :
  kk_body example_delayed (redz_ages example_delayed) delayed_edges 1 example_cursor
  = ({| c_interp_left := 1; c_fidx := 0; c_out := alloc_fields |}, Break).
Proof.
  rewrite kk_body_break.
  - fold delayed_first. rewrite delayed_first_interp_left. reflexivity.
  - fold delayed_first. rewrite delayed_first_time_left. unfold age_universe. simpl. lra.
  - fold delayed_first. rewrite delayed_first_fobs_left.
    pose proof KEPLER_CONST_FREQ_bounds. simpl. lra.
Qed.

Lemma delayed_cursor_eq :
  delayed_cursor = {| c_interp_left := 1; c_fidx := 0; c_out := alloc_fields |}.
Proof. unfold delayed_cursor. rewrite delayed_first_break. reflexivity. Qed.

(** The whole pass stops there: nothing is recorded. *)

Lemma delayed_run : dynamic_binary_number_at_fobs example_delayed = alloc_fields.
Proof.
  change (dynamic_binary_number_at_fobs example_delayed)
    with (c_out (kk_loop example_delayed (redz_ages example_delayed) delayed_edges
                   [1%Z; 0%Z] example_cursor)).
  cbn [kk_loop]. rewrite delayed_first_break. reflexivity.
Qed.

(** Bin 0, which the loop does not reach: it starts hardening at age 4,
    where the redshift is 1e6. *)

Lemma delayed_next_time_left : time_left delayed_next = 4.
Proof.
  unfold delayed_next, kk_locals. cbn [time_left].
  destruct delayed_redz_ages as [_ ->]. rewrite delayed_time_evo. simpl. lra.
Qed.

Lemma delayed_next_time_right : time_right delayed_next = 4 + e_dt delayed_edges.
Proof.
  unfold delayed_next, kk_locals. cbn [time_right].
  destruct delayed_redz_ages as [_ ->]. rewrite delayed_time_evo. simpl. lra.
Qed.

Lemma delayed_search_4 : while_while 1 3 4 (of_list [0; 4; 8]) = 1%Z.
Proof.
  unfold while_while. simpl. rewrite (Rltb_false 8 4) by lra. simpl.
  rewrite (Rgtb_false 0 4) by lra. reflexivity.
Qed.

Lemma delayed_next_interp_left : interp_left delayed_next = 1%Z.
Proof.
  change (while_while (c_interp_left delayed_cursor) 3 (time_left delayed_next)
            (of_list [0; 4; 8]) = 1%Z).
  rewrite delayed_cursor_eq, delayed_next_time_left. apply delayed_search_4.
Qed.

Lemma delayed_next_interp_right : interp_right delayed_next = 1%Z.
Proof.
  change (while_while (interp_left delayed_next) 3 (time_left delayed_next)
            (of_list [0; 4; 8]) = 1%Z).
  rewrite delayed_next_interp_left, delayed_next_time_left. apply delayed_search_4.
Qed.

Lemma delayed_next_redz_left : redz_left delayed_next = 1e6.
Proof.
  change (interp_at_index (interp_left delayed_next) (time_left delayed_next)
            (of_list [0; 4; 8]) (of_list [2e6; 1e6; 0]) = 1e6).
  rewrite delayed_next_interp_left, delayed_next_time_left.
  unfold interp_at_index. simpl. lra.
Qed.

Lemma delayed_next_redz_right :
  redz_right delayed_next = 1e6 - 2.5e5 * e_dt delayed_edges.
Proof.
  change (interp_at_index (interp_right delayed_next) (time_right delayed_next)
            (of_list [0; 4; 8]) (of_list [2e6; 1e6; 0])
          = 1e6 - 2.5e5 * e_dt delayed_edges).
  rewrite delayed_next_interp_right, delayed_next_time_right.
  set (dt := e_dt delayed_edges). unfold interp_at_index. simpl. lra.
Qed.

Lemma delayed_next_fobs_left : fobs_orb_left delayed_next = KEPLER_CONST_FREQ / (1 + 1e6).
Proof.
  change (e_frst_orb_left delayed_edges / (1.0 + redz_left delayed_next)
          = KEPLER_CONST_FREQ / (1 + 1e6)).
  rewrite delayed_frst_left, delayed_next_redz_left. f_equal. lra.
Qed.

Lemma delayed_next_straddle :
  0 < fobs_orb_left delayed_next /\ fobs_orb_left delayed_next < 1e-6
  /\ 1e-6 < fobs_orb_right delayed_next.
Proof.
  pose proof KEPLER_CONST_FREQ_bounds as [HK0 HK1].
  pose proof delayed_dt as [Hd0 Hd1]. pose proof delayed_frst_right as Hf.
  rewrite delayed_next_fobs_left.
  change (fobs_orb_right delayed_next)
    with (e_frst_orb_right delayed_edges / (1.0 + redz_right delayed_next)).
  rewrite delayed_next_redz_right.
  set (dt := e_dt delayed_edges) in *. set (fr := e_frst_orb_right delayed_edges) in *.
  split; [apply Rdiv_lt_0_compat; lra |]. split.
  - apply Rmult_lt_reg_r with (1 + 1e6); [lra |].
    replace (KEPLER_CONST_FREQ / (1 + 1e6) * (1 + 1e6)) with KEPLER_CONST_FREQ by (field; lra).
    lra.
  - apply Rmult_lt_reg_r with (1.0 + (1e6 - 2.5e5 * dt)); [lra |].
    replace (fr / (1.0 + (1e6 - 2.5e5 * dt)) * (1.0 + (1e6 - 2.5e5 * dt)))
      with fr by (replace 1.0 with 1 by lra; field; lra).
    nra.
Qed.

Lemma delayed_next_newz :
  0 < _interp_between_vals 1e-6 (fobs_orb_left delayed_next) (fobs_orb_right delayed_next)
        (redz_left delayed_next) (redz_right delayed_next).
Proof.
  unfold _interp_between_vals.
  rewrite delayed_next_redz_left, delayed_next_redz_right.
  pose proof delayed_next_straddle as [Hl0 [Hl1 Hr1]].
  pose proof delayed_dt as [Hd0 Hd1].
  set (fl := fobs_orb_left delayed_next) in *.
  set (fr := fobs_orb_right delayed_next) in *.
  set (dt := e_dt delayed_edges) in *.
  assert (Hq : 0 < (1e-6 - fl) / (fr - fl) < 1).
  { split.
    - apply Rdiv_lt_0_compat; lra.
    - apply Rmult_lt_reg_r with (fr - fl); [lra |].
      replace ((1e-6 - fl) / (fr - fl) * (fr - fl)) with (1e-6 - fl) by (field; lra). lra. }
  set (q := (1e-6 - fl) / (fr - fl)) in *.
  replace (1e6 + (1e6 - 2.5e5 * dt - 1e6) * (1e-6 - fl) / (fr - fl))
    with (1e6 - 2.5e5 * (dt * q)) by (unfold q; field; lra).
  assert (0 < dt * q < 2) by nra. lra.
Qed.

(** Had the loop gone on, bin 0 would have recorded its crossing. *)

Lemma delayed_next_records :
  redz_final (c_out (fst (kk_body example_delayed (redz_ages example_delayed)
                             delayed_edges 0 delayed_cursor))) 0%Z 0%Z 0%Z 0%Z
  <> NaN.
Proof.
  unfold kk_body. fold delayed_next.
  pose proof delayed_next_straddle as [Hl0 [Hl1 Hr1]].
  rewrite delayed_next_time_left.
  change (age_universe example_delayed) with 8. rewrite (Rgtb_false 4 8) by lra.
  change ((target_fobs_orb example_delayed).[nf example_delayed - 1]) with 1e-6.
  rewrite (Rgtb_false (fobs_orb_left delayed_next) 1e-6) by lra.
  rewrite delayed_cursor_eq. cbn [c_fidx c_out c_interp_left fst].
  change (while_while 0 (nf example_delayed) (fobs_orb_left delayed_next)
            (target_fobs_orb example_delayed)) with 0%Z.
  change ((target_fobs_orb example_delayed).[0]) with 1e-6.
  change (Z.to_nat (nf example_delayed - 0)) with 1%nat.
  cbn [ff_loop c_out fst].
  rewrite (Rltb_true _ _ Hl1), (Rltb_true _ _ Hr1).
  change ((0 <? nf example_delayed)%Z) with true. cbn [andb].
  rewrite (target_found_entry example_delayed delayed_next 0 1e-6 alloc_fields)
    by apply delayed_next_newz.
  cbn [redz_final]. change (ii delayed_next) with 0%Z. change (jj delayed_next) with 0%Z.
  change (kk delayed_next) with 0%Z. rewrite set4_same. discriminate.
Qed.


(** C7.  The loop over the starting redshifts is left at the first bin
    whose left-edge observed frequency is above the last target frequency,
    on the assumption, written in the source next to the [break], that
    every later bin has a higher observed frequency still.  The run with a
    delayed bin, whose binary satisfies the invariants of the data model,
    shows the code leaving the loop where that does not hold: bin 1,
    visited first, is not stalled and its left-edge observed frequency is
    above the only target frequency, so the loop is left and the pass
    records nothing; yet the left-edge observed frequency of the next bin,
    bin 0, is lower, below the target frequency, and the body of the loop
    run on that bin records a crossing in the cell (0, 0, 0, 0). *)

Theorem fobs_left_decreases_after_break :
  valid_binary example_delayed 0 0
  /\ in_shape example_delayed 0 0 0 0
  /\ time_left delayed_first <= age_universe example_delayed
  /\ fobs_orb_left delayed_first
     > (target_fobs_orb example_delayed).[nf example_delayed - 1]
  /\ kk_body example_delayed (redz_ages example_delayed) delayed_edges 1 example_cursor
     = (delayed_cursor, Break)
  /\ fobs_orb_left delayed_next < fobs_orb_left delayed_first
  /\ fobs_orb_left delayed_next < (target_fobs_orb example_delayed).[0]
     < fobs_orb_right delayed_next
  /\ redz_final (dynamic_binary_number_at_fobs example_delayed) 0%Z 0%Z 0%Z 0%Z = NaN
  /\ redz_final (c_out (fst (kk_body example_delayed (redz_ages example_delayed)
                                delayed_edges 0 delayed_cursor))) 0%Z 0%Z 0%Z 0%Z
     <> NaN.
Proof.
  pose proof KEPLER_CONST_FREQ_bounds as [HK0 HK1].
  pose proof delayed_next_straddle as [Hl0 [Hl1 Hr1]].
  split; [apply example_with_valid |].
  split; [apply example_with_in_shape |].
  split; [rewrite delayed_first_time_left; unfold age_universe; simpl; lra |].
  split; [rewrite delayed_first_fobs_left; simpl; lra |].
  split; [rewrite delayed_cursor_eq; apply delayed_first_break |].
  split; [rewrite delayed_first_fobs_left; lra |].
  split; [change ((target_fobs_orb example_delayed).[0]) with 1e-6; lra |].
  split; [rewrite delayed_run; reflexivity |].
  apply delayed_next_records.
Qed.
(** * Further properties of the source *)

(** ** [while_while]: where the search stops, by the side it starts from *)

Lemma while_up_below (fuel : nat) (index size : Z) (val : R) (edges : dvec) :
  edges.[index] <= val -> edges.[while_up fuel index size val edges] <= val.
Proof.
  revert index. induction fuel as [|fuel IH]; intros index H; simpl.
  - assumption.
  - destruct (Z.ltb_spec index (size - 1)); simpl; [| assumption].
    destruct (Rltb_spec (edges.[index + 1]) val); [| assumption].
    apply IH. lra.
Qed.

(** X1. A search that starts at or below the value moves up only, and stops
    at the left edge of the bin that holds the value. *)

Theorem while_while_from_below (start size : Z) (val : R) (edges : dvec) :
  ascending size edges -> (0 <= start <= size - 1)%Z -> edges.[start] <= val ->
  let index := while_while start size val edges in
  (start <= index <= size - 1)%Z
  /\ edges.[index] <= val
  /\ ((index < size - 1)%Z -> val <= edges.[index + 1]).
Proof.
  intros Hasc Hstart Hval. unfold while_while.
  set (up := while_up (Z.to_nat (size - 1 - start)) start size val edges).
  assert (Hup : (start <= up <= size - 1)%Z).
  { unfold up.
    pose proof (while_up_range (Z.to_nat (size - 1 - start)) start size val edges). lia. }
  assert (Hlow : edges.[up] <= val) by (apply while_up_below; assumption).
  assert (Hupx : (up < size - 1)%Z -> val <= edges.[up + 1]).
  { unfold up. apply while_up_exit. lia. }
  rewrite while_down_stay.
  - split; [exact Hup | split; [exact Hlow | exact Hupx]].
  - intros Hpos.
    pose proof (Hasc (up - 1)%Z up ltac:(lia) ltac:(lia) ltac:(lia)). lra.
Qed.

Lemma while_while_from_below_witness :
  let edges := of_list [0; 1; 2; 3] in
  let index := while_while 0 4 1.5 edges in
  (0 <= index <= 4 - 1)%Z
  /\ edges.[index] <= 1.5
  /\ ((index < 4 - 1)%Z -> 1.5 <= edges.[index + 1]).
Proof.
  apply (while_while_from_below 0 4 1.5 (of_list [0; 1; 2; 3])).
  - intros i j Hi Hij Hj.
    assert (Hc : (i = 0 \/ i = 1 \/ i = 2 \/ i = 3)%Z) by lia.
    assert (Hd : (j = 0 \/ j = 1 \/ j = 2 \/ j = 3)%Z) by lia.
    destruct Hc as [-> | [-> | [-> | ->]]]; destruct Hd as [-> | [-> | [-> | ->]]];
      try lia; simpl; lra.
  - lia.
  - simpl. lra.
Defined.

(** X2. A search that starts above the value moves down only, and stops at the
    lowest edge that is still above the value: the right edge of the bin
    that holds the value, not its left edge. *)

Theorem while_while_from_above (start size : Z) (val : R) (edges : dvec) :
  ascending size edges -> (0 <= start <= size - 1)%Z -> val < edges.[start] ->
  let index := while_while start size val edges in
  (0 <= index <= start)%Z
  /\ val < edges.[index]
  /\ ((index > 0)%Z -> edges.[index - 1] <= val).
Proof.
  intros Hasc Hstart Hval. unfold while_while.
  rewrite (while_up_stay _ start size val edges).
  - pose proof (while_down_range (Z.to_nat start) start val edges) as Hrange.
    pose proof (while_down_exit (Z.to_nat start) start val edges ltac:(lia)) as Hlow.
    pose proof (while_down_upper (Z.to_nat start) start size val edges Hasc ltac:(lia))
      as Hupper.
    simpl in *.
    set (r := while_down (Z.to_nat start) start val edges) in *.
    split; [lia | split].
    + destruct Hupper as [-> | [_ [_ H]]]; assumption.
    + intros Hr. apply Hlow. lia.
  - intros Hlt.
    pose proof (Hasc start (start + 1)%Z ltac:(lia) ltac:(lia) ltac:(lia)). lra.
Qed.

Lemma while_while_from_above_witness :
  let edges := of_list [0; 1; 2; 3] in
  let index := while_while 3 4 0.5 edges in
  (0 <= index <= 3)%Z
  /\ 0.5 < edges.[index]
  /\ ((index > 0)%Z -> edges.[index - 1] <= 0.5).
Proof.
  apply (while_while_from_above 3 4 0.5 (of_list [0; 1; 2; 3])).
  - intros i j Hi Hij Hj.
    assert (Hc : (i = 0 \/ i = 1 \/ i = 2 \/ i = 3)%Z) by lia.
    assert (Hd : (j = 0 \/ j = 1 \/ j = 2 \/ j = 3)%Z) by lia.
    destruct Hc as [-> | [-> | [-> | ->]]]; destruct Hd as [-> | [-> | [-> | ->]]];
      try lia; simpl; lra.
  - lia.
  - simpl. lra.
Defined.

(** X3. A value outside the table: below the first edge the search returns the
    first index, above the last edge the last index, from any start. *)

Theorem while_while_clamps (start size : Z) (val : R) (edges : dvec) :
  (1 <= size)%Z -> ascending size edges -> (0 <= start <= size - 1)%Z ->
  (val < edges.[0] -> while_while start size val edges = 0%Z)
  /\ (edges.[size - 1] < val -> while_while start size val edges = (size - 1)%Z).
Proof.
  intros Hsize Hasc Hstart.
  destruct (while_while_spec start size val edges Hsize Hasc Hstart) as [Hr [Hlo Hhi]].
  set (r := while_while start size val edges) in *.
  split; intros Hval.
  - destruct (Z.eq_dec r 0) as [|Hne]; [assumption | exfalso].
    pose proof (Hlo ltac:(lia)).
    pose proof (Hasc 0%Z (r - 1)%Z ltac:(lia) ltac:(lia) ltac:(lia)). lra.
  - destruct (Z.eq_dec r (size - 1)) as [|Hne]; [assumption | exfalso].
    pose proof (Hhi ltac:(lia)).
    pose proof (Hasc (r + 1)%Z (size - 1)%Z ltac:(lia) ltac:(lia) ltac:(lia)). lra.
Qed.

Lemma while_while_clamps_witness :
  (-1 < (of_list [0; 1; 2; 3]).[0] -> while_while 2 4 (-1) (of_list [0; 1; 2; 3]) = 0%Z)
  /\ ((of_list [0; 1; 2; 3]).[4 - 1] < -1
      -> while_while 2 4 (-1) (of_list [0; 1; 2; 3]) = (4 - 1)%Z).
Proof.
  apply (while_while_clamps 2 4 (-1) (of_list [0; 1; 2; 3])).
  - lia.
  - intros i j Hi Hij Hj.
    assert (Hc : (i = 0 \/ i = 1 \/ i = 2 \/ i = 3)%Z) by lia.
    assert (Hd : (j = 0 \/ j = 1 \/ j = 2 \/ j = 3)%Z) by lia.
    destruct Hc as [-> | [-> | [-> | ->]]]; destruct Hd as [-> | [-> | [-> | ->]]];
      try lia; simpl; lra.
  - lia.
Defined.

(** X4. Searching again for the same value, from the index that a search
    returned, returns that index. *)

Theorem while_while_search_again (start size : Z) (val : R) (edges : dvec) :
  (1 <= size)%Z -> ascending size edges -> (0 <= start <= size - 1)%Z ->
  while_while (while_while start size val edges) size val edges
  = while_while start size val edges.
Proof. exact (while_while_idempotent start size val edges). Qed.

Lemma while_while_search_again_witness :
  while_while (while_while 3 4 0.5 (of_list [0; 1; 2; 3])) 4 0.5 (of_list [0; 1; 2; 3])
  = while_while 3 4 0.5 (of_list [0; 1; 2; 3]).
Proof.
  apply (while_while_search_again 3 4 0.5 (of_list [0; 1; 2; 3])).
  - lia.
  - intros i j Hi Hij Hj.
    assert (Hc : (i = 0 \/ i = 1 \/ i = 2 \/ i = 3)%Z) by lia.
    assert (Hd : (j = 0 \/ j = 1 \/ j = 2 \/ j = 3)%Z) by lia.
    destruct Hc as [-> | [-> | [-> | ->]]]; destruct Hd as [-> | [-> | [-> | ->]]];
      try lia; simpl; lra.
  - lia.
Defined.

(** ** Kepler's law, both ways *)

Lemma ln_eq_inv (x y : R) : 0 < x -> 0 < y -> ln x = ln y -> x = y.
Proof. intros Hx Hy H. apply ln_inv; assumption. Qed.

Lemma ln_div (x y : R) : 0 < x -> 0 < y -> ln (x / y) = ln x - ln y.
Proof.
  intros Hx Hy. unfold Rdiv.
  rewrite ln_mult by (try apply Rinv_0_lt_compat; assumption).
  rewrite ln_Rinv by assumption. ring.
Qed.

Lemma ln_sqrt (x : R) : 0 < x -> ln (sqrt x) = ln x / 2.
Proof.
  intros Hx. rewrite <- Rpower_sqrt by assumption. unfold Rpower. rewrite ln_exp. lra.
Qed.

Lemma ln_c_pow (x y : R) : 0 < x -> ln (pow x y) = y * ln x.
Proof. intros Hx. rewrite pow_pos_base by assumption. unfold Rpower. apply ln_exp. Qed.

Lemma ln_KEPLER_CONST_FREQ : ln KEPLER_CONST_FREQ = ln MY_NWTG / 2 - ln (2 * PI).
Proof.
  unfold KEPLER_CONST_FREQ, M_PI. pose proof PI_RGT_0. pose proof MY_NWTG_pos.
  replace 1.0 with 1 by lra. replace 2.0 with 2 by lra.
  rewrite ln_mult; [| apply Rdiv_lt_0_compat; lra | apply sqrt_lt_R0; assumption].
  rewrite ln_div by lra. rewrite ln_1. rewrite ln_sqrt by assumption. lra.
Qed.

Lemma ln_KEPLER_CONST_SEPA : ln KEPLER_CONST_SEPA = ln MY_NWTG / 3 - 2 / 3 * ln (2 * PI).
Proof.
  unfold KEPLER_CONST_SEPA, M_PI. pose proof PI_RGT_0. pose proof MY_NWTG_pos.
  replace 1.0 with 1 by lra. replace 2.0 with 2 by lra. replace 3.0 with 3 by lra.
  rewrite ln_div by (apply pow_gt_0; lra).
  rewrite !ln_c_pow by lra. lra.
Qed.

Lemma ln_kepler_freq_from_sepa (mtot sepa : R) :
  0 < mtot -> 0 < sepa ->
  ln (kepler_freq_from_sepa mtot sepa)
  = ln KEPLER_CONST_FREQ + ln mtot / 2 - 1.5 * ln sepa.
Proof.
  intros Hm Hs. unfold kepler_freq_from_sepa.
  pose proof KEPLER_CONST_FREQ_pos. pose proof (sqrt_lt_R0 mtot Hm).
  rewrite ln_div; [| apply Rmult_lt_0_compat; assumption | apply pow_gt_0; assumption].
  rewrite ln_mult by assumption. rewrite ln_sqrt by assumption.
  rewrite ln_c_pow by assumption. lra.
Qed.

Lemma kepler_sepa_from_freq_pos (mtot freq : R) :
  0 < mtot -> 0 < freq -> 0 < kepler_sepa_from_freq mtot freq.
Proof.
  intros Hm Hf. unfold kepler_sepa_from_freq.
  apply Rdiv_lt_0_compat; [| apply pow_gt_0; assumption].
  apply Rmult_lt_0_compat; [apply KEPLER_CONST_SEPA_pos | apply pow_gt_0; assumption].
Qed.

Lemma ln_kepler_sepa_from_freq (mtot freq : R) :
  0 < mtot -> 0 < freq ->
  ln (kepler_sepa_from_freq mtot freq)
  = ln KEPLER_CONST_SEPA + ln mtot / 3 - 2 / 3 * ln freq.
Proof.
  intros Hm Hf. unfold kepler_sepa_from_freq.
  pose proof KEPLER_CONST_SEPA_pos. pose proof (pow_gt_0 mtot (1.0 / 3.0) Hm).
  replace 1.0 with 1 in * by lra. replace 2.0 with 2 by lra. replace 3.0 with 3 in * by lra.
  rewrite ln_div; [| apply Rmult_lt_0_compat; assumption | apply pow_gt_0; assumption].
  rewrite ln_mult by assumption. rewrite !ln_c_pow by assumption. lra.
Qed.

(** X5. The separation of the frequency of a separation is that separation. *)

Theorem kepler_sepa_of_freq_of_sepa (mtot sepa : R) :
  0 < mtot -> 0 < sepa ->
  kepler_sepa_from_freq mtot (kepler_freq_from_sepa mtot sepa) = sepa.
Proof.
  intros Hm Hs.
  pose proof (kepler_freq_from_sepa_pos mtot sepa Hm Hs) as Hf.
  apply ln_eq_inv; [apply kepler_sepa_from_freq_pos; assumption | assumption |].
  rewrite ln_kepler_sepa_from_freq by assumption.
  rewrite ln_kepler_freq_from_sepa by assumption.
  rewrite ln_KEPLER_CONST_SEPA, ln_KEPLER_CONST_FREQ. lra.
Qed.

Lemma kepler_sepa_of_freq_of_sepa_witness :
  kepler_sepa_from_freq 2e41 (kepler_freq_from_sepa 2e41 3e18) = 3e18.
Proof. apply (kepler_sepa_of_freq_of_sepa 2e41 3e18); lra. Defined.

(** X6. The frequency of the separation of a frequency is that frequency. *)

Theorem kepler_freq_of_sepa_of_freq (mtot freq : R) :
  0 < mtot -> 0 < freq ->
  kepler_freq_from_sepa mtot (kepler_sepa_from_freq mtot freq) = freq.
Proof.
  intros Hm Hf.
  pose proof (kepler_sepa_from_freq_pos mtot freq Hm Hf) as Hs.
  apply ln_eq_inv; [apply kepler_freq_from_sepa_pos; assumption | assumption |].
  rewrite ln_kepler_freq_from_sepa by assumption.
  rewrite ln_kepler_sepa_from_freq by assumption.
  rewrite ln_KEPLER_CONST_SEPA, ln_KEPLER_CONST_FREQ. lra.
Qed.

Lemma kepler_freq_of_sepa_of_freq_witness :
  kepler_freq_from_sepa 2e41 (kepler_sepa_from_freq 2e41 1e-8) = 1e-8.
Proof. apply (kepler_freq_of_sepa_of_freq 2e41 1e-8); lra. Defined.

(** X7. Kepler's third law with Newton's constant: the square of the angular
    frequency times the cube of the separation is [G * mtot]. *)

Theorem kepler_third_law (mtot sepa : R) :
  0 < mtot -> 0 < sepa ->
  let freq := kepler_freq_from_sepa mtot sepa in
  (2 * PI * freq) ^ 2 * sepa ^ 3 = MY_NWTG * mtot.
Proof.
  intros Hm Hs freq.
  pose proof (kepler_freq_from_sepa_pos mtot sepa Hm Hs) as Hf. fold freq in Hf.
  pose proof PI_RGT_0. pose proof MY_NWTG_pos.
  apply ln_eq_inv.
  - apply Rmult_lt_0_compat; apply pow_lt; [apply Rmult_lt_0_compat; lra | assumption].
  - apply Rmult_lt_0_compat; assumption.
  - assert (H2 : 0 < 2 * PI * freq) by (apply Rmult_lt_0_compat; lra).
    rewrite ln_mult by (apply pow_lt; assumption).
    rewrite !ln_pow by assumption.
    rewrite (ln_mult (2 * PI)) by lra. rewrite (ln_mult MY_NWTG) by assumption.
    unfold freq. rewrite ln_kepler_freq_from_sepa by assumption.
    rewrite ln_KEPLER_CONST_FREQ. simpl. lra.
Qed.

Lemma kepler_third_law_witness :
  let freq := kepler_freq_from_sepa 2e41 3e18 in
  (2 * PI * freq) ^ 2 * 3e18 ^ 3 = MY_NWTG * 2e41.
Proof. apply (kepler_third_law 2e41 3e18); lra. Defined.

(** ** The hardening rates *)

(** X8. Gravitational-wave hardening is faster at the smaller separation. *)

Theorem hard_gw_faster_inwards (mtot mrat sepa1 sepa2 : R) :
  0 < mtot -> 0 < mrat -> 0 < sepa1 -> sepa1 < sepa2 ->
  hard_gw mtot mrat sepa1 < hard_gw mtot mrat sepa2 /\ hard_gw mtot mrat sepa2 < 0.
Proof.
  intros Hm Hq H1 H12.
  split; [| apply hard_gw_neg; lra].
  unfold hard_gw.
  pose proof GW_DADT_SEP_CONST_neg as HC.
  pose proof (pow_gt_0 mtot 3 Hm) as Hpm.
  pose proof (pow_gt_0 sepa1 3 H1) as Hp1.
  pose proof (pow_gt_0 (1 + mrat) 2 ltac:(lra)) as Hpq.
  pose proof (pow_increasing_base sepa1 sepa2 3 ltac:(lra) H1 H12) as Hp.
  set (p1 := pow sepa1 3) in *. set (p2 := pow sepa2 3) in *.
  set (A := pow mtot 3 * mrat / pow (1 + mrat) 2).
  assert (HA : 0 < A).
  { unfold A. apply Rdiv_lt_0_compat; [apply Rmult_lt_0_compat |]; assumption. }
  replace (GW_DADT_SEP_CONST * pow mtot 3 * mrat / p1 / pow (1 + mrat) 2)
    with (GW_DADT_SEP_CONST * A * / p1) by (unfold A; field; lra).
  replace (GW_DADT_SEP_CONST * pow mtot 3 * mrat / p2 / pow (1 + mrat) 2)
    with (GW_DADT_SEP_CONST * A * / p2) by (unfold A; field; lra).
  assert (Hinv : / p2 < / p1).
  { apply Rinv_lt_contravar; [apply Rmult_lt_0_compat; lra | assumption]. }
  assert (HCA : GW_DADT_SEP_CONST * A < 0) by nra.
  nra.
Qed.

Lemma hard_gw_faster_inwards_witness :
  hard_gw 2e41 0.5 1e17 < hard_gw 2e41 0.5 1e18 /\ hard_gw 2e41 0.5 1e18 < 0.
Proof. apply (hard_gw_faster_inwards 2e41 0.5 1e17 1e18); lra. Defined.

(** X9. Gravitational-wave hardening does not tell which of the two black
    holes is the heavier: the mass ratio and its inverse give the same
    rate. *)

Theorem hard_gw_mass_ratio_inverse (mtot mrat sepa : R) :
  0 < mrat -> hard_gw mtot (/ mrat) sepa = hard_gw mtot mrat sepa.
Proof.
  intros Hq. unfold hard_gw.
  assert (Hi : 0 < / mrat) by (apply Rinv_0_lt_compat; assumption).
  rewrite !pow_sqr.
  unfold Rdiv. rewrite !Rmult_assoc. f_equal. f_equal.
  rewrite (Rmult_comm (/ mrat)), (Rmult_comm mrat). rewrite !Rmult_assoc. f_equal.
  field. lra.
Qed.

Lemma hard_gw_mass_ratio_inverse_witness :
  hard_gw 2e41 (/ 0.25) 1e18 = hard_gw 2e41 0.25 1e18.
Proof. apply (hard_gw_mass_ratio_inverse 2e41 0.25 1e18); lra. Defined.

(** X10. The total rate with no phenomenological hardening is the
    gravitational-wave rate, and a larger normalisation only hardens
    faster. *)

Theorem hard_func_2pwl_gw_norm_monotone
  (mtot mrat sepa norm1 norm2 rchar gamma_inner gamma_outer : R) :
  0 < sepa -> 0 < rchar -> norm1 <= norm2 ->
  hard_func_2pwl_gw mtot mrat sepa 0 rchar gamma_inner gamma_outer = hard_gw mtot mrat sepa
  /\ hard_func_2pwl_gw mtot mrat sepa norm2 rchar gamma_inner gamma_outer
     <= hard_func_2pwl_gw mtot mrat sepa norm1 rchar gamma_inner gamma_outer.
Proof.
  intros Hs Hr Hn. rewrite !hard_func_affine.
  pose proof (power_law_shape_pos rchar gamma_inner gamma_outer sepa Hr Hs).
  split; [ring | nra].
Qed.

Lemma hard_func_2pwl_gw_norm_monotone_witness :
  hard_func_2pwl_gw 2e41 0.5 1e18 0 3e19 (-1) 1.5 = hard_gw 2e41 0.5 1e18
  /\ hard_func_2pwl_gw 2e41 0.5 1e18 2e-5 3e19 (-1) 1.5
     <= hard_func_2pwl_gw 2e41 0.5 1e18 1e-5 3e19 (-1) 1.5.
Proof. apply (hard_func_2pwl_gw_norm_monotone 2e41 0.5 1e18 1e-5 2e-5 3e19 (-1) 1.5); lra. Defined.

(** X11. With two equal slopes the double power law is a single power law of
    the separation in units of the characteristic radius. *)

Theorem equal_slopes_single_power_law (norm xx gamma : R) :
  0 < xx -> _hard_func_2pwl norm xx gamma gamma = - norm * Rpower xx (1 - gamma).
Proof.
  intros Hx. unfold _hard_func_2pwl.
  rewrite (pow_pos_base (1.0 + xx)) by lra. rewrite (pow_pos_base xx) by assumption.
  replace (- gamma + gamma) with 0 by ring. rewrite Rpower_O by lra.
  replace (1 - gamma) with (- (gamma - 1)) by ring. rewrite Rpower_Ropp.
  unfold Rdiv. ring.
Qed.

Lemma equal_slopes_single_power_law_witness :
  _hard_func_2pwl 1e-5 0.1 2.5 2.5 = - (1e-5) * Rpower 0.1 (1 - 2.5).
Proof. apply (equal_slopes_single_power_law 1e-5 0.1 2.5); lra. Defined.

(** ** The coalescence time *)

(** X12. The time to coalescence of a valid binary is positive, whatever the
    normalisation. *)

Theorem coalescence_time_positive
  (norm_log10 mtot mrat sepa_init rchar gamma_inner gamma_outer : R) (nsteps : Z) :
  0 < mtot -> 0 < mrat -> risco mtot < sepa_init -> 0 < rchar -> (1 <= nsteps)%Z ->
  0 < Integrator.integrate_binary_evolution_2pl norm_log10 mtot mrat sepa_init rchar
        gamma_inner gamma_outer nsteps.
Proof.
  intros Hm Hq Hs Hr Hn. rewrite integrate_binary_evolution_2pl_time.
  apply (integ_time_strict (norm_log10 - 1) norm_log10); [| lra | assumption].
  unfold valid_pars. simpl. repeat split; assumption.
Qed.

Lemma coalescence_time_positive_witness :
  0 < Integrator.integrate_binary_evolution_2pl 0 1 1 1 1 1 1 1.
Proof.
  apply (coalescence_time_positive 0 1 1 1 1 1 1 1); try lra; try lia.
  pose proof example_risco. lra.
Defined.

(** X13. The time to coalescence of a valid binary strictly decreases with the
    normalisation of the hardening rate. *)

Theorem coalescence_time_decreasing
  (x1 x2 mtot mrat sepa_init rchar gamma_inner gamma_outer : R) (nsteps : Z) :
  0 < mtot -> 0 < mrat -> risco mtot < sepa_init -> 0 < rchar -> (1 <= nsteps)%Z ->
  x1 < x2 ->
  Integrator.integrate_binary_evolution_2pl x2 mtot mrat sepa_init rchar
    gamma_inner gamma_outer nsteps
  < Integrator.integrate_binary_evolution_2pl x1 mtot mrat sepa_init rchar
      gamma_inner gamma_outer nsteps.
Proof.
  intros Hm Hq Hs Hr Hn Hx. rewrite !integrate_binary_evolution_2pl_time.
  apply (integ_time_strict x1 x2); [| assumption | assumption].
  unfold valid_pars. simpl. repeat split; assumption.
Qed.

Lemma coalescence_time_decreasing_witness :
  Integrator.integrate_binary_evolution_2pl 1 1 1 1 1 1 1 1
  < Integrator.integrate_binary_evolution_2pl 0 1 1 1 1 1 1 1.
Proof.
  apply (coalescence_time_decreasing 0 1 1 1 1 1 1 1 1); try lra; try lia.
  pose proof example_risco. lra.
Defined.

(** X14. The residual that the root finder is given never takes the same
    value at two different normalisations: it has at most one root,
    whatever the target time. *)

Theorem residual_never_repeats (x1 x2 : R) (pars : Integrator.integrate_2pl_params) :
  valid_pars pars -> x1 <> x2 ->
  Integrator._integrate_binary_evolution_2pl x1 pars
  <> Integrator._integrate_binary_evolution_2pl x2 pars.
Proof.
  intros Hv Hne Heq. unfold Integrator._integrate_binary_evolution_2pl in Heq.
  assert (Hn : (1 <= Integrator.nsteps pars)%Z) by (destruct Hv as [_ [_ [_ [_ H]]]]; exact H).
  destruct (Rtotal_order x1 x2) as [Hlt | [Heq' | Hgt]]; [| contradiction |].
  - destruct (integ_time_strict x1 x2 pars _ Hv Hlt Hn) as [_ H]. simpl in H. lra.
  - destruct (integ_time_strict x2 x1 pars _ Hv Hgt Hn) as [_ H]. simpl in H. lra.
Qed.

Lemma residual_never_repeats_witness :
  Integrator._integrate_binary_evolution_2pl 0 example_pars
  <> Integrator._integrate_binary_evolution_2pl 1 example_pars.
Proof.
  apply (residual_never_repeats 0 1 example_pars); [| lra].
  unfold valid_pars, example_pars. simpl. pose proof example_risco.
  repeat split; try lra; lia.
Defined.

(** X15. Without a step the integrator does not integrate: the residual is
    minus the target time and the time to coalescence is zero, whatever
    the binary. *)

Theorem integrate_without_steps (norm_log10 : R) (pars : Integrator.integrate_2pl_params) :
  (Integrator.nsteps pars <= 0)%Z ->
  Integrator._integrate_binary_evolution_2pl norm_log10 pars = - Integrator.target_time pars
  /\ Integrator.integrate_binary_evolution_2pl norm_log10
       (Integrator.mt pars) (Integrator.mr pars) (Integrator.sepa_init pars)
       (Integrator.rchar pars) (Integrator.gamma_inner pars) (Integrator.gamma_outer pars)
       (Integrator.nsteps pars) = 0.
Proof.
  intros Hn.
  unfold Integrator.integrate_binary_evolution_2pl,
    Integrator._integrate_binary_evolution_2pl, Integrator.integ_after.
  cbn [Integrator.nsteps Integrator.target_time].
  rewrite range_nonpos by assumption. simpl. split; lra.
Qed.

Lemma integrate_without_steps_witness :
  let pars := {| Integrator.target_time := 5; Integrator.mt := 1; Integrator.mr := 1;
                 Integrator.sepa_init := 1; Integrator.rchar := 1;
                 Integrator.gamma_inner := 1; Integrator.gamma_outer := 1;
                 Integrator.nsteps := 0 |} in
  Integrator._integrate_binary_evolution_2pl 0 pars = - Integrator.target_time pars
  /\ Integrator.integrate_binary_evolution_2pl 0
       (Integrator.mt pars) (Integrator.mr pars) (Integrator.sepa_init pars)
       (Integrator.rchar pars) (Integrator.gamma_inner pars) (Integrator.gamma_outer pars)
       (Integrator.nsteps pars) = 0.
Proof.
  intros pars. apply (integrate_without_steps 0 pars). simpl. lia.
Defined.

(** ** The mapper walks the trajectory of the integrator *)

Lemma walk_is_integration (a : mapper_args) (redz_age : Z -> R) (ii jj : Z) (out : fields)
  (x : R) (pars : Integrator.integrate_2pl_params) (k : Z) :
  hard_norm a ii jj = pow 10.0 x ->
  Integrator.mt pars = (mtot a).[ii] -> Integrator.mr pars = (mrat a).[jj] ->
  Integrator.sepa_init pars = sepa_init a -> Integrator.rchar pars = hard_rchar a ->
  Integrator.gamma_inner pars = hard_gamma_inner a ->
  Integrator.gamma_outer pars = hard_gamma_outer a ->
  Integrator.nsteps pars = num_steps a ->
  (0 <= k)%Z ->
  let w := walk_after a redz_age ii jj out k in
  let st := Integrator.integ_after x pars k in
  w_sepa_log10 w = Integrator.i_sepa_log10 st
  /\ w_sepa_left w = Integrator.i_sepa_left st
  /\ w_dadt_left w = Integrator.i_dadt_left st
  /\ w_time_evo w = Integrator.i_time st.
Proof.
  intros Hnorm Hmt Hmr Hsi Hrc Hgi Hgo Hns Hk.
  assert (Hdx : mapper_dx a (mtot a).[ii] = Integrator.integ_dx pars).
  { unfold mapper_dx, Integrator.integ_dx, sepa_init_log10, risco.
    rewrite Hmt, Hsi, Hns. reflexivity. }
  pattern k. apply natlike_ind; [| | exact Hk].
  - rewrite walk_after_0. unfold Integrator.integ_after. simpl.
    unfold sepa_init_log10. rewrite Hnorm, Hmt, Hmr, Hsi, Hrc, Hgi, Hgo.
    repeat split.
  - intros j Hj [IH1 [IH2 [IH3 IH4]]]. unfold Z.succ.
    rewrite walk_after_succ, integ_after_succ by assumption.
    set (w := walk_after a redz_age ii jj out j) in *.
    set (st := Integrator.integ_after x pars j) in *.
    simpl. rewrite Hdx, IH1, IH2, IH3, IH4, Hnorm, Hmt, Hmr, Hrc, Hgi, Hgo.
    repeat split.
Qed.

(** X16. The time that the mapper has accumulated when a binary reaches its
    last step is the time to coalescence that the integrator returns for
    the same binary and the normalisation of the mapper. *)

Theorem mapper_time_is_coalescence_time (a : mapper_args) (redz_age : Z -> R) (ii jj : Z)
  (out : fields) (norm_log10 : R) :
  hard_norm a ii jj = pow 10.0 norm_log10 ->
  w_time_evo (walk_after a redz_age ii jj out (num_steps a))
  = Integrator.integrate_binary_evolution_2pl norm_log10 (mtot a).[ii] (mrat a).[jj]
      (sepa_init a) (hard_rchar a) (hard_gamma_inner a) (hard_gamma_outer a) (num_steps a).
Proof.
  intros Hnorm. rewrite integrate_binary_evolution_2pl_time.
  destruct (Z.le_gt_cases 0 (num_steps a)) as [Hk|Hk].
  - apply (walk_is_integration a redz_age ii jj out norm_log10); try reflexivity; assumption.
  - unfold walk_after, Integrator.integ_after. rewrite range_nonpos by lia. reflexivity.
Qed.

Lemma mapper_time_is_coalescence_time_witness :
  w_time_evo (walk_after example_args (redz_ages example_args) 0 0 alloc_fields
                (num_steps example_args))
  = Integrator.integrate_binary_evolution_2pl 0 (mtot example_args).[0]
      (mrat example_args).[0] (sepa_init example_args) (hard_rchar example_args)
      (hard_gamma_inner example_args) (hard_gamma_outer example_args)
      (num_steps example_args).
Proof.
  apply (mapper_time_is_coalescence_time example_args (redz_ages example_args) 0 0
           alloc_fields 0).
  simpl. rewrite pow_pos_base by lra. rewrite Rpower_O by lra. reflexivity.
Defined.

(** ** Bounds on the coalescence time *)

(** X17. For a valid binary and two normalisations [x1 <= x2] in log10, the
    time to coalescence with [x1] is at most [10 ^ (x2 - x1)] times the
    time with [x2]: a normalisation that is ten times larger shortens the
    time by a factor of ten at most. *)

Theorem coalescence_time_at_most_proportional
  (x1 x2 mtot mrat sepa_init rchar gamma_inner gamma_outer : R) (nsteps : Z) :
  0 < mtot -> 0 < mrat -> risco mtot < sepa_init -> 0 < rchar -> (1 <= nsteps)%Z ->
  x1 <= x2 ->
  Integrator.integrate_binary_evolution_2pl x1 mtot mrat sepa_init rchar
    gamma_inner gamma_outer nsteps
  <= Rpower 10 (x2 - x1)
     * Integrator.integrate_binary_evolution_2pl x2 mtot mrat sepa_init rchar
         gamma_inner gamma_outer nsteps.
Proof.
  intros Hm Hq Hs Hr Hn Hx. rewrite !integrate_binary_evolution_2pl_time.
  rewrite <- pow_10_ratio.
  apply integ_times_ratio; [| assumption | lia].
  unfold valid_pars. simpl. repeat split; assumption.
Qed.

Lemma coalescence_time_at_most_proportional_witness :
  Integrator.integrate_binary_evolution_2pl 0 1 1 1 1 1 1 1
  <= Rpower 10 (1 - 0) * Integrator.integrate_binary_evolution_2pl 1 1 1 1 1 1 1 1.
Proof.
  apply (coalescence_time_at_most_proportional 0 1 1 1 1 1 1 1 1); try lra; try lia.
  pose proof example_risco. lra.
Defined.

Lemma integ_after_norm_succ (norm : R) (pars : Integrator.integrate_2pl_params) (k : Z) :
  (0 <= k)%Z ->
  integ_after_norm norm pars (k + 1)
  = Integrator.integ_step norm pars (integ_after_norm norm pars k) k.
Proof. intros Hk. unfold integ_after_norm. apply fold_left_range_succ. assumption. Qed.

Lemma integ_after_norm_state (norm : R) (pars : Integrator.integrate_2pl_params) (k : Z) :
  (0 <= k)%Z ->
  let st := integ_after_norm norm pars k in
  Integrator.i_sepa_log10 st
  = log10 (Integrator.sepa_init pars) - IZR k * Integrator.integ_dx pars
  /\ Integrator.i_sepa_left st = pow 10.0 (Integrator.i_sepa_log10 st)
  /\ Integrator.i_dadt_left st
     = hard_func_2pwl_gw (Integrator.mt pars) (Integrator.mr pars) (Integrator.i_sepa_left st)
         norm (Integrator.rchar pars)
         (Integrator.gamma_inner pars) (Integrator.gamma_outer pars).
Proof.
  intros Hk. pattern k. apply natlike_ind; [| | exact Hk].
  - simpl. split; [lra | split; reflexivity].
  - intros x Hx [IH1 [IH2 IH3]]. unfold Z.succ. rewrite integ_after_norm_succ by assumption.
    simpl. rewrite IH1. rewrite plus_IZR. split; [lra | split; reflexivity].
Qed.

(** One step adds [c / (a * norm + b)] to the time, with positive [a], [b]
    and [c] that do not depend on the normalisation. *)

Lemma integ_after_norm_time (pars : Integrator.integrate_2pl_params) (k : Z) :
  valid_pars pars -> (0 <= k)%Z ->
  exists a b c : R,
    0 < a /\ 0 < b /\ 0 < c /\
    forall norm : R,
      0 <= norm ->
      Integrator.i_time (integ_after_norm norm pars (k + 1))
      = Integrator.i_time (integ_after_norm norm pars k) + c / (a * norm + b).
Proof.
  intros Hv Hk. pose proof Hv as [Hm [Hq [Hs [Hr Hn]]]].
  pose proof (integ_dx_pos pars Hv) as Hdx.
  set (l := log10 (Integrator.sepa_init pars) - IZR k * Integrator.integ_dx pars).
  set (sl := pow 10.0 l). set (sr := pow 10.0 (l - Integrator.integ_dx pars)).
  assert (Hsl : 0 < sl) by (apply pow_gt_0; lra).
  assert (Hsr : 0 < sr) by (apply pow_gt_0; lra).
  assert (Hlt : sr < sl) by (apply pow_10_increasing; lra).
  pose proof (power_law_shape_pos _ (Integrator.gamma_inner pars)
                (Integrator.gamma_outer pars) _ Hr Hsl) as Hpl.
  pose proof (power_law_shape_pos _ (Integrator.gamma_inner pars)
                (Integrator.gamma_outer pars) _ Hr Hsr) as Hpr.
  pose proof (hard_gw_neg _ _ _ Hm Hq Hsl) as Hgl.
  pose proof (hard_gw_neg _ _ _ Hm Hq Hsr) as Hgr.
  set (pl := power_law_shape _ _ _ sl) in *. set (pr := power_law_shape _ _ _ sr) in *.
  set (gl := hard_gw _ _ sl) in *. set (gr := hard_gw _ _ sr) in *.
  exists (pl + pr), (- (gl + gr)), (2 * (sl - sr)).
  split; [lra |]. split; [lra |]. split; [lra |].
  intros norm Hnorm. rewrite integ_after_norm_succ by assumption.
  destruct (integ_after_norm_state norm pars k Hk) as [Hl1 [Hs1 Hd1]].
  set (st := integ_after_norm norm pars k) in *.
  cbn [Integrator.integ_step Integrator.i_time].
  rewrite Hd1, Hs1, Hl1. fold l. fold sl. fold sr.
  rewrite !hard_func_affine. fold pl pr gl gr.
  assert (0 <= norm * (pl + pr)) by (apply Rmult_le_pos; lra).
  replace 2.0 with 2 by lra. field. split; lra.
Qed.

Lemma integ_after_norm_below (norm : R) (pars : Integrator.integrate_2pl_params) (k : Z) :
  valid_pars pars -> 0 < norm -> (0 <= k)%Z ->
  Integrator.i_time (integ_after_norm norm pars k)
  <= Integrator.i_time (integ_after_norm 0 pars k)
  /\ Integrator.i_time (integ_after_norm norm pars (k + 1))
     < Integrator.i_time (integ_after_norm 0 pars (k + 1)).
Proof.
  intros Hv Hnorm Hk. pattern k. apply natlike_ind; [| | exact Hk].
  - destruct (integ_after_norm_time pars 0 Hv ltac:(lia)) as [a [b [c [Ha [Hb [Hc Heq]]]]]].
    split; [simpl; lra |].
    rewrite !Heq by lra. simpl.
    assert (Hinv : / (a * norm + b) < / (a * 0 + b)).
    { apply Rinv_lt_contravar; [apply Rmult_lt_0_compat; nra | nra]. }
    unfold Rdiv. nra.
  - intros x Hx [_ IH]. unfold Z.succ. split; [lra |].
    destruct (integ_after_norm_time pars (x + 1) Hv ltac:(lia))
      as [a [b [c [Ha [Hb [Hc Heq]]]]]].
    rewrite !Heq by lra.
    assert (Hinv : / (a * norm + b) < / (a * 0 + b)).
    { apply Rinv_lt_contravar; [apply Rmult_lt_0_compat; nra | nra]. }
    unfold Rdiv. nra.
Qed.

(** X18. For a valid binary, the time to coalescence is below the time
    that the same steps take with gravitational-wave hardening alone,
    whatever the normalisation: a target time at or above it is the time
    to coalescence of no normalisation. *)

Theorem coalescence_time_below_gw_only
  (norm_log10 mtot mrat sepa_init rchar gamma_inner gamma_outer : R) (nsteps : Z) :
  0 < mtot -> 0 < mrat -> risco mtot < sepa_init -> 0 < rchar -> (1 <= nsteps)%Z ->
  Integrator.integrate_binary_evolution_2pl norm_log10 mtot mrat sepa_init rchar
    gamma_inner gamma_outer nsteps
  < gw_only_time
      {| Integrator.target_time := 0.0; Integrator.mt := mtot; Integrator.mr := mrat;
         Integrator.sepa_init := sepa_init; Integrator.rchar := rchar;
         Integrator.gamma_inner := gamma_inner; Integrator.gamma_outer := gamma_outer;
         Integrator.nsteps := nsteps |}.
Proof.
  intros Hm Hq Hs Hr Hn. rewrite integrate_binary_evolution_2pl_time.
  unfold gw_only_time. cbn [Integrator.nsteps].
  set (pars := {| Integrator.target_time := 0.0; Integrator.mt := mtot |}).
  assert (Hv : valid_pars pars) by (unfold valid_pars; simpl; repeat split; assumption).
  change (Integrator.integ_after norm_log10 pars nsteps)
    with (integ_after_norm (pow 10.0 norm_log10) pars nsteps).
  replace nsteps with (nsteps - 1 + 1)%Z by lia.
  apply integ_after_norm_below; [assumption | apply pow_gt_0; lra | lia].
Qed.

Lemma coalescence_time_below_gw_only_witness :
  Integrator.integrate_binary_evolution_2pl 0 1 1 1 1 1 1 1
  < gw_only_time
      {| Integrator.target_time := 0.0; Integrator.mt := 1; Integrator.mr := 1;
         Integrator.sepa_init := 1; Integrator.rchar := 1;
         Integrator.gamma_inner := 1; Integrator.gamma_outer := 1;
         Integrator.nsteps := 1 |}.
Proof.
  apply (coalescence_time_below_gw_only 0 1 1 1 1 1 1 1); try lra; try lia.
  pose proof example_risco. lra.
Defined.

(** ** The cells that the mapper writes *)

(** X19. The pass writes inside the shape (mass, ratio, redshift, frequency) of
    its inputs only: a cell at an index outside it is left as it was. *)

Theorem mapper_writes_in_shape (a : mapper_args) (out : fields) (i j k l : Z) :
  ~ in_shape a i j k l ->
  same_cell (_dynamic_binary_number_at_fobs a out) out i j k l.
Proof.
  intros Hout.
  apply (mapper_preserves a (fun o => same_cell o out i j k l)); [| split; reflexivity].
  intros ii0 jj0 out' k' Hii Hjj _ kk0 c ff ftemp out0 Hkk lc _ _ Hff [H1 H2].
  assert (Hne : (i, j, k, l) <> (ii lc, jj lc, kk lc, ff)).
  { unfold lc. simpl. intros Heq. injection Heq as -> -> -> ->.
    apply Hout. unfold in_shape. repeat split; lia. }
  destruct (target_found_cases a lc ff ftemp out0) as [[_ ->] | [_ [v ->]]].
  - split; assumption.
  - split; simpl; rewrite set4_other by assumption; assumption.
Qed.

Lemma mapper_writes_in_shape_witness :
  same_cell (_dynamic_binary_number_at_fobs example_args alloc_fields) alloc_fields 0 0 0 1.
Proof.
  apply (mapper_writes_in_shape example_args alloc_fields 0 0 0 1).
  unfold in_shape, nm, nq, nz, nf. simpl. lia.
Defined.

(** X20. A pass over an empty grid of masses, of mass ratios or of starting
    redshifts, or along a trajectory without steps, writes nothing. *)

Theorem empty_grid_records_nothing (a : mapper_args) (out : fields) :
  (nm a <= 0 \/ nq a <= 0 \/ nz a <= 0 \/ num_steps a <= 0)%Z ->
  _dynamic_binary_number_at_fobs a out = out.
Proof.
  intros Hempty. apply (mapper_preserves a (fun o => o = out)); [| reflexivity].
  intros ii0 jj0 out' k' Hii Hjj Hk' kk0 c ff ftemp out0 Hkk lc _ _ _ _. lia.
Qed.

Lemma empty_grid_records_nothing_witness :
  _dynamic_binary_number_at_fobs (example_with [1] [] [2; 1; 0.5] (fun _ => 0)) alloc_fields
  = alloc_fields.
Proof.
  apply (empty_grid_records_nothing (example_with [1] [] [2; 1; 0.5] (fun _ => 0))).
  right. right. left. unfold nz. simpl. lia.
Defined.

(** ** The search positions of the mapper *)

Lemma while_while_in_range (start size : Z) (val : R) (edges : dvec) :
  (0 <= start <= Z.max 0 (size - 1))%Z ->
  (0 <= while_while start size val edges <= Z.max 0 (size - 1))%Z.
Proof.
  intros Hs. unfold while_while.
  pose proof (while_up_range (Z.to_nat (size - 1 - start)) start size val edges).
  pose proof (while_down_range
                (Z.to_nat (while_up (Z.to_nat (size - 1 - start)) start size val edges))
                (while_up (Z.to_nat (size - 1 - start)) start size val edges) val edges).
  lia.
Qed.

Lemma kk_body_in_range (a : mapper_args) (redz_age : Z -> R) (e : step_edges) (kk : Z)
  (c : cursor) :
  search_in_range a c -> search_in_range a (fst (kk_body a redz_age e kk c)).
Proof.
  intros [Hi Hf]. unfold kk_body.
  pose proof (while_while_in_range (c_interp_left c) (ninterp a)
                (time_left (kk_locals a redz_age e kk c)) (tage_interp_grid a) Hi) as Hi'.
  destruct (time_left (kk_locals a redz_age e kk c) >? age_universe a).
  - split; assumption.
  - destruct (fobs_orb_left (kk_locals a redz_age e kk c) >? (target_fobs_orb a).[nf a - 1]).
    + split; simpl; assumption.
    + split; simpl; [assumption |]. apply while_while_in_range. assumption.
Qed.

Lemma kk_loop_in_range (a : mapper_args) (redz_age : Z -> R) (e : step_edges) (kks : list Z)
  (c : cursor) :
  search_in_range a c -> search_in_range a (kk_loop a redz_age e kks c).
Proof.
  revert c. induction kks as [|kk kks IH]; intros c Hc; simpl.
  - assumption.
  - pose proof (kk_body_in_range a redz_age e kk c Hc) as Hb.
    destruct (kk_body a redz_age e kk c) as [c' [|]]; simpl in Hb.
    + apply IH. assumption.
    + assumption.
Qed.

(** X21. Along the walk of every binary the two search positions, in the table
    of ages and in the array of target frequencies, stay between the first
    and the last row. *)

Theorem search_positions_stay_in_range (a : mapper_args) (redz_age : Z -> R) (ii jj : Z)
  (out : fields) (k : Z) :
  search_in_range a (w_cursor (walk_after a redz_age ii jj out k)).
Proof.
  destruct (Z.le_gt_cases 0 k) as [Hk|Hk].
  - pattern k. apply natlike_ind; [| | exact Hk].
    + rewrite walk_after_0. split; simpl; lia.
    + intros x Hx IH. unfold Z.succ. rewrite walk_after_succ by assumption.
      simpl. apply kk_loop_in_range. exact IH.
  - unfold walk_after. rewrite range_nonpos by lia. split; simpl; lia.
Qed.

(** ** The sign of the differential number *)

Lemma target_found_nonneg (a : mapper_args) (lc : locals) (ff : Z) (ftemp : R)
  (out : fields) :
  0 < mt lc -> 0 < mr lc -> 0 <= norm lc -> 0 < hard_rchar a ->
  0 <= dens a (ii lc) (jj lc) (kk lc) -> 0 < ftemp ->
  diff_num_nonneg out -> diff_num_nonneg (target_found a lc ff ftemp out).
Proof.
  intros Hm Hq Hn Hr Hd Hf Hout. unfold target_found.
  set (newz := _interp_between_vals ftemp (fobs_orb_left lc) (fobs_orb_right lc)
                 (redz_left lc) (redz_right lc)).
  destruct (Rltb_spec 0.0 newz) as [Hz|Hz]; unfold Rgtb.
  - rewrite Rltb_true by assumption.
    intros i j k l. cbn [diff_num].
    destruct (set4_cases (diff_num out) (ii lc) (jj lc) (kk lc) ff
                (Val (dens a (ii lc) (jj lc) (kk lc)
                      * (- (2.0 / 3.0) * kepler_sepa_from_freq (mt lc) (ftemp * (1.0 + newz))
                         / hard_func_2pwl_gw (mt lc) (mr lc)
                             (kepler_sepa_from_freq (mt lc) (ftemp * (1.0 + newz)))
                             (norm lc) (hard_rchar a) (hard_gamma_inner a)
                             (hard_gamma_outer a))
                      * (FOUR_PI_SPLC_OVER_MPC * (1.0 + newz)
                         * pow (_interp_between_vals ftemp (fobs_orb_left lc)
                                  (fobs_orb_right lc)
                                  (interp_at_index (interp_left lc) (time_left lc)
                                     (tage_interp_grid a) (dcom_interp_grid a))
                                  (interp_at_index (interp_right lc) (time_right lc)
                                     (tage_interp_grid a) (dcom_interp_grid a))
                                / MY_MPC) 2)))
                i j k l) as [[_ ->] | [_ ->]]; [| apply Hout].
    eexists. split; [reflexivity |].
    assert (Hfr : 0 < ftemp * (1.0 + newz)) by (apply Rmult_lt_0_compat; lra).
    pose proof (kepler_sepa_from_freq_pos (mt lc) _ Hm Hfr) as Hs.
    set (sepa := kepler_sepa_from_freq (mt lc) (ftemp * (1.0 + newz))) in *.
    pose proof (hard_func_2pwl_gw_neg (mt lc) (mr lc) sepa (norm lc) (hard_rchar a)
                  (hard_gamma_inner a) (hard_gamma_outer a) Hm Hq Hs Hn Hr) as Hdadt.
    set (dadt := hard_func_2pwl_gw _ _ sepa _ _ _ _) in *.
    assert (Htres : 0 < - (2.0 / 3.0) * sepa / dadt).
    { replace (- (2.0 / 3.0) * sepa / dadt) with ((2 / 3) * sepa / - dadt)
        by (undecimal; field; lra).
      apply Rdiv_lt_0_compat; lra. }
    rewrite pow_sqr.
    set (x := _ / MY_MPC).
    pose proof FOUR_PI_SPLC_OVER_MPC_pos as HK.
    assert (Hsq : 0 <= x * x) by nra.
    assert (Hc : 0 <= FOUR_PI_SPLC_OVER_MPC * (1.0 + newz) * (x * x)).
    { apply Rmult_le_pos; [| assumption]. apply Rmult_le_pos; lra. }
    apply Rmult_le_pos; [| assumption]. apply Rmult_le_pos; lra.
  - rewrite Rltb_false by lra. assumption.
Qed.

(** X22. With positive masses, mass ratios and target frequencies, a positive
    characteristic radius, and normalisations and densities that are not
    negative, every differential number that the pass returns is a number
    that is not negative. *)

Theorem differential_number_nonnegative (a : mapper_args) :
  (forall ii, (0 <= ii < nm a)%Z -> 0 < (mtot a).[ii]) ->
  (forall jj, (0 <= jj < nq a)%Z -> 0 < (mrat a).[jj]) ->
  (forall ii jj, (0 <= ii < nm a)%Z -> (0 <= jj < nq a)%Z -> 0 <= hard_norm a ii jj) ->
  0 < hard_rchar a ->
  (forall ii jj kk, (0 <= ii < nm a)%Z -> (0 <= jj < nq a)%Z -> (0 <= kk < nz a)%Z ->
     0 <= dens a ii jj kk) ->
  (forall ff, (0 <= ff < nf a)%Z -> 0 < (target_fobs_orb a).[ff]) ->
  forall i j k l : Z,
    exists v : R, diff_num (dynamic_binary_number_at_fobs a) i j k l = Val v /\ 0 <= v.
Proof.
  intros Hm Hq Hn Hr Hd Hf.
  apply (mapper_crossings a diff_num_nonneg alloc_fields).
  - intros ii0 jj0 out' k' Hii Hjj _ kk0 c ff out0 Hkk lc ftemp Hff _ Hout.
    apply target_found_nonneg; try assumption; unfold lc; simpl.
    + apply Hm. assumption.
    + apply Hq. assumption.
    + apply Hn; assumption.
    + apply Hd; assumption.
    + apply Hf. assumption.
  - intros i j k l. exists 0. split; [reflexivity | lra].
Qed.

Lemma differential_number_nonnegative_witness :
  exists v : R,
    diff_num (dynamic_binary_number_at_fobs example_args) 0%Z 0%Z 0%Z 0%Z = Val v /\ 0 <= v.
Proof.
  apply (differential_number_nonnegative example_args).
  - intros ii Hii. unfold nm in Hii. simpl in Hii. replace ii with 0%Z by lia. simpl. lra.
  - intros jj Hjj. unfold nq in Hjj. simpl in Hjj. replace jj with 0%Z by lia. simpl. lra.
  - intros ii jj _ _. simpl. lra.
  - simpl. lra.
  - intros ii jj kk _ _ _. simpl. lra.
  - intros ff Hff. unfold nf in Hff. simpl in Hff. replace ff with 0%Z by lia. simpl. lra.
Defined.

(** ** Two passes side by side

    The pass never reads the output fields and reads the density only
    where it writes a differential number.  Two passes whose inputs differ
    in the density at most therefore take the same decisions, and a
    relation between their fields that every pair of writes keeps is kept
    by the two passes. *)


Lemma same_inputs_with_dens (a : mapper_args) (d d' : Z -> Z -> Z -> R) :
  same_inputs (with_dens a d) (with_dens a d').
Proof. unfold same_inputs. repeat split. Qed.

Lemma same_inputs_dens (a : mapper_args) (d : Z -> Z -> Z -> R) :
  same_inputs a (with_dens a d).
Proof. unfold same_inputs. repeat split. Qed.

Ltac same_records a a' H :=
  destruct a, a'; unfold same_inputs in H; simpl in H;
  destruct H as (? & ? & ? & ? & ? & ? & ? & ? & ? & ? & ? & ? & ? & ?); subst.

Lemma same_sizes (a a' : mapper_args) :
  same_inputs a a' ->
  nf a' = nf a /\ nm a' = nm a /\ nq a' = nq a /\ nz a' = nz a /\ ninterp a' = ninterp a
  /\ age_universe a' = age_universe a.
Proof. intros H. same_records a a' H. repeat split. Qed.

Lemma same_kk_locals (a a' : mapper_args) (redz_age : Z -> R) (e : step_edges) (kk : Z)
  (c c' : cursor) :
  same_inputs a a' -> c_interp_left c' = c_interp_left c ->
  kk_locals a' redz_age e kk c' = kk_locals a redz_age e kk c.
Proof. intros H Hc. same_records a a' H. unfold kk_locals. simpl. rewrite Hc. reflexivity. Qed.

Lemma same_redz_age_while (a a' : mapper_args) (fuel : nat) (rev ii0 : Z) :
  same_inputs a a' -> redz_age_while fuel a' rev ii0 = redz_age_while fuel a rev ii0.
Proof.
  intros H. same_records a a' H. revert ii0.
  induction fuel as [|fuel IH]; intros ii0; simpl; [reflexivity |].
  unfold ninterp. simpl. rewrite IH. reflexivity.
Qed.

Lemma fold_left_ext {A : Type} (f g : A -> Z -> A) (l : list Z) (x : A) :
  (forall y i, f y i = g y i) -> fold_left f l x = fold_left g l x.
Proof.
  intros H. revert x. induction l as [|i l IH]; intros x; simpl; [reflexivity |].
  rewrite H. apply IH.
Qed.

Lemma same_redz_ages (a a' : mapper_args) :
  same_inputs a a' -> redz_ages a' = redz_ages a.
Proof.
  intros H. unfold redz_ages.
  destruct (same_sizes a a' H) as [_ [_ [_ [Hnz [Hni _]]]]]. rewrite Hnz.
  f_equal. apply fold_left_ext. intros [ii0 ages] kk. unfold redz_age_step.
  rewrite Hnz, Hni. rewrite (same_redz_age_while a a') by assumption.
  same_records a a' H. reflexivity.
Qed.

Lemma sim_ff_loop (a a' : mapper_args) (Rf : fields -> fields -> Prop) (lc : locals) :
  same_inputs a a' ->
  (forall ff ftemp out out',
     Rf out out' -> Rf (target_found a lc ff ftemp out) (target_found a' lc ff ftemp out')) ->
  forall (fuel : nat) (ff : Z) (ftemp : R) (out out' : fields),
    Rf out out' -> Rf (ff_loop fuel a lc ff ftemp out) (ff_loop fuel a' lc ff ftemp out').
Proof.
  intros H Htf.
  destruct (same_sizes a a' H) as [Hnf _].
  assert (Ht : target_fobs_orb a' = target_fobs_orb a) by (destruct H as [H _]; exact H).
  induction fuel as [|fuel IH]; intros ff ftemp out out' HR; simpl; [assumption |].
  rewrite Hnf, Ht.
  destruct ((fobs_orb_left lc <? ftemp) && (ftemp <? fobs_orb_right lc) && (ff <? nf a)%Z);
    [| assumption].
  apply IH. apply Htf. assumption.
Qed.

Lemma sim_kk_body (a a' : mapper_args) (Rf : fields -> fields -> Prop) (redz_age : Z -> R)
  (e : step_edges) (kk : Z) (c c' : cursor) :
  same_inputs a a' ->
  (forall lc ff ftemp out out',
     Rf out out' -> Rf (target_found a lc ff ftemp out) (target_found a' lc ff ftemp out')) ->
  same_search Rf c c' ->
  snd (kk_body a' redz_age e kk c') = snd (kk_body a redz_age e kk c)
  /\ same_search Rf (fst (kk_body a redz_age e kk c)) (fst (kk_body a' redz_age e kk c')).
Proof.
  intros H Htf [Hi [Hf HR]]. unfold kk_body.
  rewrite (same_kk_locals a a' redz_age e kk c c' H Hi).
  destruct (same_sizes a a' H) as [Hnf [_ [_ [_ [_ Hage]]]]].
  assert (Ht : target_fobs_orb a' = target_fobs_orb a) by (destruct H as [H' _]; exact H').
  rewrite Hage, Hnf, Ht, Hf.
  set (lc := kk_locals a redz_age e kk c).
  destruct (time_left lc >? age_universe a).
  - split; [reflexivity |]. split; [| split]; assumption.
  - destruct (fobs_orb_left lc >? (target_fobs_orb a).[nf a - 1]).
    + split; [reflexivity |]. split; [| split]; simpl; solve [reflexivity | assumption].
    + split; [reflexivity |]. split; [| split]; simpl; try reflexivity.
      apply sim_ff_loop; [assumption | apply Htf | assumption].
Qed.

Lemma sim_kk_loop (a a' : mapper_args) (Rf : fields -> fields -> Prop) (redz_age : Z -> R)
  (e : step_edges) (kks : list Z) (c c' : cursor) :
  same_inputs a a' ->
  (forall lc ff ftemp out out',
     Rf out out' -> Rf (target_found a lc ff ftemp out) (target_found a' lc ff ftemp out')) ->
  same_search Rf c c' ->
  same_search Rf (kk_loop a redz_age e kks c) (kk_loop a' redz_age e kks c').
Proof.
  intros H Htf. revert c c'. induction kks as [|kk kks IH]; intros c c' Hc; simpl.
  - assumption.
  - destruct (sim_kk_body a a' Rf redz_age e kk c c' H Htf Hc) as [Hflow Hnext].
    destruct (kk_body a redz_age e kk c) as [c1 fl].
    destruct (kk_body a' redz_age e kk c') as [c1' fl'].
    simpl in Hflow, Hnext. subst fl'. destruct fl.
    + apply IH. assumption.
    + assumption.
Qed.

Lemma same_step_edges_of (a a' : mapper_args) (Rf : fields -> fields -> Prop) (ii jj : Z)
  (w w' : walk) :
  same_inputs a a' -> same_walk Rf w w' ->
  step_edges_of a' ii jj w' = step_edges_of a ii jj w.
Proof.
  intros H [H1 [H2 [H3 [H4 [H5 _]]]]]. same_records a a' H.
  unfold step_edges_of, mapper_dx, sepa_init_log10. simpl.
  rewrite H1, H2, H3, H4, H5. reflexivity.
Qed.

Lemma sim_walk_step (a a' : mapper_args) (Rf : fields -> fields -> Prop) (redz_age : Z -> R)
  (ii jj : Z) (w w' : walk) (ss : Z) :
  same_inputs a a' ->
  (forall lc ff ftemp out out',
     Rf out out' -> Rf (target_found a lc ff ftemp out) (target_found a' lc ff ftemp out')) ->
  same_walk Rf w w' ->
  same_walk Rf (walk_step a redz_age ii jj w ss) (walk_step a' redz_age ii jj w' ss).
Proof.
  intros H Htf Hw. unfold walk_step.
  rewrite (same_step_edges_of a a' Rf ii jj w w' H Hw).
  destruct (same_sizes a a' H) as [_ [_ [_ [Hnz _]]]]. rewrite Hnz.
  destruct Hw as [_ [_ [_ [_ [_ Hc]]]]].
  repeat split; simpl; try reflexivity;
    apply (sim_kk_loop a a' Rf redz_age _ _ _ _ H Htf Hc).
Qed.

Lemma fold_left_rel {A B : Type} (R : A -> B -> Prop) (f : A -> Z -> A) (g : B -> Z -> B)
  (l : list Z) (x : A) (y : B) :
  (forall x' y' i, R x' y' -> R (f x' i) (g y' i)) -> R x y ->
  R (fold_left f l x) (fold_left g l y).
Proof.
  intros H. revert x y. induction l as [|i l IH]; intros x y HR; simpl.
  - assumption.
  - apply IH. apply H. assumption.
Qed.

Lemma sim_jj_body (a a' : mapper_args) (Rf : fields -> fields -> Prop) (redz_age : Z -> R)
  (ii jj : Z) (out out' : fields) :
  same_inputs a a' ->
  (forall lc ff ftemp out out',
     Rf out out' -> Rf (target_found a lc ff ftemp out) (target_found a' lc ff ftemp out')) ->
  Rf out out' ->
  Rf (jj_body a redz_age ii out jj) (jj_body a' redz_age ii out' jj).
Proof.
  intros H Htf HR. unfold jj_body, walk_after.
  assert (Hn : num_steps a' = num_steps a).
  { destruct H as (_ & _ & _ & _ & _ & _ & _ & _ & _ & _ & Hn & _). exact Hn. }
  rewrite Hn.
  assert (Hw : same_walk Rf
                 (fold_left (walk_step a redz_age ii jj) (range (num_steps a))
                    (walk_init a ii jj out))
                 (fold_left (walk_step a' redz_age ii jj) (range (num_steps a))
                    (walk_init a' ii jj out'))).
  { apply fold_left_rel.
    - intros w w' ss Hw. apply sim_walk_step; assumption.
    - clear Hn. same_records a a' H. unfold walk_init, sepa_init_log10. simpl.
      repeat split. assumption. }
  destruct Hw as [_ [_ [_ [_ [_ [_ [_ Hout]]]]]]]. exact Hout.
Qed.

Lemma sim_mapper (a a' : mapper_args) (Rf : fields -> fields -> Prop) (out out' : fields) :
  same_inputs a a' ->
  (forall lc ff ftemp out out',
     Rf out out' -> Rf (target_found a lc ff ftemp out) (target_found a' lc ff ftemp out')) ->
  Rf out out' ->
  Rf (_dynamic_binary_number_at_fobs a out) (_dynamic_binary_number_at_fobs a' out').
Proof.
  intros H Htf HR. unfold _dynamic_binary_number_at_fobs.
  rewrite (same_redz_ages a a' H).
  destruct (same_sizes a a' H) as [_ [Hnm [Hnq _]]]. rewrite Hnm.
  apply fold_left_rel; [| assumption].
  intros o o' ii0 Ho. unfold ii_body. rewrite Hnq.
  apply fold_left_rel; [| assumption].
  intros o1 o1' jj0 Ho1. apply sim_jj_body; assumption.
Qed.

(** ** The density is a factor *)

Lemma target_found_same_redz (a : mapper_args) (d : Z -> Z -> Z -> R) (lc : locals) (ff : Z)
  (ftemp : R) (out out' : fields) :
  same_redz_final out out' ->
  same_redz_final (target_found a lc ff ftemp out)
    (target_found (with_dens a d) lc ff ftemp out').
Proof.
  intros HR. unfold target_found.
  destruct (_interp_between_vals ftemp (fobs_orb_left lc) (fobs_orb_right lc)
              (redz_left lc) (redz_right lc) >? 0.0); [| assumption].
  intros i j k l. cbn [redz_final]. unfold set4.
  destruct ((i =? ii lc)%Z && (j =? jj lc)%Z && (k =? kk lc)%Z && (l =? ff)%Z);
    [reflexivity | apply HR].
Qed.

Lemma target_found_scaled (a : mapper_args) (d : Z -> Z -> Z -> R) (lc : locals) (ff : Z)
  (ftemp : R) (out out' : fields) :
  scaled_by d out out' ->
  scaled_by d (target_found (with_dens a (fun _ _ _ => 1)) lc ff ftemp out)
    (target_found (with_dens a d) lc ff ftemp out').
Proof.
  intros HR. unfold target_found.
  destruct (_interp_between_vals ftemp (fobs_orb_left lc) (fobs_orb_right lc)
              (redz_left lc) (redz_right lc) >? 0.0); [| assumption].
  intros i j k l. cbn [redz_final diff_num with_dens dens hard_rchar hard_gamma_inner
                        hard_gamma_outer tage_interp_grid dcom_interp_grid].
  unfold set4.
  destruct (Z.eqb_spec i (ii lc)); [| apply HR].
  destruct (Z.eqb_spec j (jj lc)); [| apply HR].
  destruct (Z.eqb_spec k (kk lc)); [| apply HR].
  destruct (Z.eqb_spec l ff); [| apply HR].
  subst. simpl. split; [reflexivity |].
  eexists. split; [reflexivity |]. f_equal. ring.
Qed.

(** X23. The differential number of every cell is the density of its (mass,
    ratio, redshift) bin times a weight that does not depend on the
    density, and the crossing redshifts do not depend on the density
    either. *)

Theorem differential_number_is_density_times_weight (a : mapper_args) :
  exists W : Z -> Z -> Z -> Z -> R,
    forall (d : Z -> Z -> Z -> R) (i j k l : Z),
      diff_num (dynamic_binary_number_at_fobs (with_dens a d)) i j k l
      = Val (d i j k * W i j k l)
      /\ redz_final (dynamic_binary_number_at_fobs (with_dens a d)) i j k l
         = redz_final (dynamic_binary_number_at_fobs a) i j k l.
Proof.
  exists (fun i j k l =>
            cell_value (diff_num (dynamic_binary_number_at_fobs
                                    (with_dens a (fun _ _ _ => 1))) i j k l)).
  intros d i j k l. split.
  - assert (Hs : scaled_by d
                   (dynamic_binary_number_at_fobs (with_dens a (fun _ _ _ => 1)))
                   (dynamic_binary_number_at_fobs (with_dens a d))).
    { unfold dynamic_binary_number_at_fobs. apply sim_mapper.
      - apply same_inputs_with_dens.
      - intros lc ff ftemp out out'. apply target_found_scaled.
      - intros i' j' k' l'. split; [reflexivity |].
        exists 0. split; [reflexivity |]. simpl. f_equal. ring. }
    destruct (Hs i j k l) as [_ [w [H1 H2]]]. rewrite H1, H2. reflexivity.
  - apply (sim_mapper a (with_dens a d) same_redz_final alloc_fields alloc_fields).
    + apply same_inputs_dens.
    + intros lc ff ftemp out out'. apply target_found_same_redz.
    + intros i' j' k' l'. reflexivity.
Qed.

(** ** One binary at a time *)



(** A crossing of the binary (ii, jj) leaves the cells of every other
    binary alone. *)



(** The crossings of a binary do not depend on what the fields hold. *)



(** A loop over distinct indices whose body touches what [E] compares at
    the index [i] only, and there does not depend on it. *)





(** X24. The cells of a binary in the result of the pass are those that the
    walk of that binary alone writes into freshly allocated fields: no
    binary sees another. *)



(** ** The ages of the starting redshifts *)

Lemma redz_age_while_spec (fuel : nat) (a : mapper_args) (rev ii0 : Z) :
  (ninterp a - 1 - ii0 <= Z.of_nat fuel)%Z ->
  let r := redz_age_while fuel a rev ii0 in
  (ii0 <= r <= Z.max ii0 (ninterp a - 1))%Z
  /\ ((r < ninterp a - 1)%Z -> (redz_interp_grid a).[r + 1] <= (redz a).[rev])
  /\ ((ii0 < r)%Z -> (redz a).[rev] < (redz_interp_grid a).[r]).
Proof.
  revert ii0. induction fuel as [|fuel IH]; intros ii0 Hfuel; simpl.
  - repeat split; lia.
  - destruct (Rltb_spec (redz a).[rev] (redz_interp_grid a).[ii0 + 1]) as [Hgt|Hle];
      unfold Rgtb.
    + rewrite Rltb_true by assumption. simpl.
      destruct (Z.ltb_spec ii0 (ninterp a - 1)) as [Hlt|Hge].
      * destruct (IH (ii0 + 1)%Z ltac:(lia)) as [H1 [H2 H3]].
        set (r := redz_age_while fuel a rev (ii0 + 1)) in *. simpl in *.
        split; [lia | split; [exact H2 |]].
        intros _. destruct (Z.eq_dec r (ii0 + 1)) as [->|Hne]; [assumption |].
        apply H3. lia.
      * repeat split; lia.
    + rewrite Rltb_false by lra. simpl. split; [lia | split].
      * intros _. lra.
      * lia.
Qed.

Lemma redz_ages_after_succ (a : mapper_args) (m : Z) :
  (0 <= m)%Z -> redz_ages_after a (m + 1) = redz_age_step a (redz_ages_after a m) m.
Proof. intros Hm. unfold redz_ages_after. apply fold_left_range_succ. assumption. Qed.

(** After [m] lookups the cursor is inside the table; unless it is still
    at the first row, one of the redshifts looked up lies below the
    redshift of its row; and each of them was interpolated in its row. *)

Lemma redz_ages_after_rows (a : mapper_args) (m : Z) :
  (1 <= ninterp a)%Z -> ascending (nz a) (redz a) -> (0 <= m <= nz a)%Z ->
  let st := redz_ages_after a m in
  (0 <= fst st <= ninterp a - 1)%Z
  /\ ((0 < fst st)%Z ->
      exists r : Z, (nz a - m <= r < nz a)%Z /\ (redz a).[r] < (redz_interp_grid a).[fst st])
  /\ (forall k : Z, (nz a - m <= k < nz a)%Z ->
        exists idx : Z,
          age_row a (redz a).[k] idx
          /\ snd st k = interp_at_index idx (redz a).[k]
                          (redz_interp_grid a) (tage_interp_grid a)).
Proof.
  intros Hn Hasc [Hm0 Hm]. revert Hm. pattern m. apply natlike_ind; [| | exact Hm0].
  - intros _. simpl. split; [lia | split].
    + intros H. lia.
    + intros k Hk. lia.
  - intros x Hx IH Hle. unfold Z.succ. rewrite redz_ages_after_succ by assumption.
    destruct (IH ltac:(lia)) as [Hcur [Hlast Hrows]]. clear IH.
    destruct (redz_ages_after a x) as [ii0 ages]. simpl in Hcur, Hlast, Hrows.
    unfold redz_age_step.
    set (rev := (nz a - 1 - x)%Z).
    destruct (redz_age_while_spec (Z.to_nat (ninterp a - 1 - ii0)) a rev ii0 ltac:(lia))
      as [H1 [H2 H3]].
    set (r := redz_age_while (Z.to_nat (ninterp a - 1 - ii0)) a rev ii0) in *.
    simpl in H1, H2, H3. cbn [fst snd].
    assert (Hupper : (0 < r)%Z -> (redz a).[rev] < (redz_interp_grid a).[r]).
    { intros Hr. destruct (Z.eq_dec r ii0) as [Heq|Hne].
      - rewrite Heq in *. destruct (Hlast Hr) as [r' [Hr' Hlt]].
        pose proof (Hasc rev r' ltac:(unfold rev; lia) ltac:(unfold rev; lia) ltac:(lia)).
        lra.
      - apply H3. lia. }
    split; [lia | split].
    + intros Hr. exists rev. split; [unfold rev; lia | apply Hupper; assumption].
    + intros k Hk. unfold update.
      destruct (Z.eqb_spec k rev) as [->|Hne].
      * exists r. split; [| reflexivity].
        split; [lia | split; assumption].
      * apply Hrows. unfold rev in Hne. lia.
Qed.

(** X25. With starting redshifts in ascending order, the age of each of them
    is interpolated in its row of the table of redshifts: the row whose
    next redshift is the first that is not above it. *)

Theorem redz_ages_in_their_rows (a : mapper_args) (k : Z) :
  (1 <= ninterp a)%Z -> ascending (nz a) (redz a) -> (0 <= k < nz a)%Z ->
  exists idx : Z,
    age_row a (redz a).[k] idx
    /\ redz_ages a k = interp_at_index idx (redz a).[k]
                         (redz_interp_grid a) (tage_interp_grid a).
Proof.
  intros Hn Hasc Hk.
  destruct (redz_ages_after_rows a (nz a) Hn Hasc ltac:(lia)) as [_ [_ Hrows]].
  apply Hrows. lia.
Qed.

Lemma redz_ages_in_their_rows_witness :
  exists idx : Z,
    age_row example_args (redz example_args).[0] idx
    /\ redz_ages example_args 0
       = interp_at_index idx (redz example_args).[0]
           (redz_interp_grid example_args) (tage_interp_grid example_args).
Proof.
  apply (redz_ages_in_their_rows example_args 0).
  - unfold ninterp. simpl. lia.
  - intros i j Hi Hij Hj. unfold nz in Hj. simpl in Hj.
    replace i with 0%Z by lia. replace j with 0%Z by lia. lra.
  - unfold nz. simpl. lia.
Defined.

